(** * Qualisys JSON loader: rotation converters and camera-rig parsers

    A shallow embedding of [scene/qualisys_json_loader.py]: the camera-model
    registry, [qvec2rotmat], [rotmat2qvec], [read_intrinsics_json] and
    [read_extrinsics_json], then [sorted_image_files], the loop of the
    script part and the numbers the plotting helpers compute, followed by
    the properties proved about them.

    Conventions of the embedding:
    - numbers (Python [int] and [float], numpy [float64]) are real numbers;
      rounding of binary floating point is not modelled, and a document
      holds finite numbers only (the [NaN] and [Infinity] that [json.load]
      also decodes have no counterpart);
    - numpy computes on reals where the entries are of moderate size: the
      array [R] of a pose is followed into [rotmat2qvec] when its entries
      are below 2^29 in absolute value, and the outcome is [Unmodelled]
      otherwise ([extrinsics_qvec]);
    - the value returned by [json.load] is a [json] tree, a Python [dict]
      being a finite map from strings;
    - [open] and [json.load] are represented by the state of the file at a
      path ([file_state]); [numpy.linalg.eigh] is a parameter of
      [rotmat2qvec], returning on every matrix of reals and constrained in
      the theorems by its documented contract ([eigh_spec]) or by that
      contract up to an error ([eigh_within]);
    - a Python exception is a value [Raise e]; the local dictionary a parser
      fills is threaded through its loop as explicit state;
    - [os.listdir] is a parameter of [sorted_image_files]; file names are
      strings of ASCII characters, and the two regular expressions are run
      by a backtracking matcher for the part of [re] they are written in;
    - of matplotlib only the numbers handed to it are kept: in the plotting
      helpers [None] stands for an exception. *)

From Stdlib Require Import Reals Lra Psatz ZArith RNsatz Ascii.
From stdpp Require Import gmap strings list fin_maps pretty sorting.

(* ===================================================================== *)
(** * Exceptions and the two monads of the embedding *)
(* ===================================================================== *)

(** The exceptions the loader can raise. [JSONDecodeError] is the decoder's
    own error; the loader's explicit [raise ValueError(...)] keeps its
    message. *)
Inductive exn : Type :=
| FileNotFoundError (path : string)
| JSONDecodeError
| ValueError (msg : string)
| KeyError (key : string)
| TypeError.

(** Outcome of a call. [Unmodelled] marks the inputs on which numpy's
    coercion of non-numeric entries (strings, booleans, [None], nested
    containers) decides the result: the embedding says nothing there. *)
Inductive result (A : Type) : Type :=
| Ok (a : A)
| Raise (e : exn)
| Unmodelled.
Arguments Ok {A} a.
Arguments Raise {A} e.
Arguments Unmodelled {A}.

#[global] Instance result_ret : MRet result := λ A a, Ok a.
#[global] Instance result_bind : MBind result := λ A B f m,
  match m with
  | Ok a => f a
  | Raise e => Raise e
  | Unmodelled => Unmodelled
  end.

(** Code that updates a local of type [S] and may raise: the state reached
    is returned together with the outcome, so that what had been built when
    an exception left the loop stays observable in the model. *)
Definition stateful (S A : Type) : Type := S → S * result A.

Definition st_ret {S A} (a : A) : stateful S A := λ s, (s, Ok a).

Definition st_bind {S A B} (m : stateful S A) (f : A → stateful S B)
  : stateful S B :=
  λ s, match m s with
       | (s', Ok a) => f a s'
       | (s', Raise e) => (s', Raise e)
       | (s', Unmodelled) => (s', Unmodelled)
       end.

Definition st_lift {S A} (r : result A) : stateful S A := λ s, (s, r).

Definition st_modify {S} (f : S → S) : stateful S unit := λ s, (f s, Ok tt).

Notation "x ⇐ m ; k" := (st_bind m (λ x, k))
  (at level 20, m at level 100, k at level 200, right associativity,
   format "'[' x  ⇐  m ; '/' k ']'").

(** [for idx, x in enumerate(xs, start=idx): body] *)
Fixpoint for_enumerate {S A} (body : Z → A → stateful S unit)
    (idx : Z) (xs : list A) : stateful S unit :=
  match xs with
  | [] => st_ret tt
  | x :: xs' => _ ⇐ body idx x; for_enumerate body (idx + 1) xs'
  end.

(** Leaving the function: [return s] after a normal end of the body, the
    exception otherwise (the local is then dropped). *)
Definition returning {S} (out : S * result unit) : result S :=
  match out with
  | (s, Ok _) => Ok s
  | (_, Raise e) => Raise e
  | (_, Unmodelled) => Unmodelled
  end.

(* ===================================================================== *)
(** * Decoded JSON values *)
(* ===================================================================== *)

#[warnings="-register-all"]
Inductive json : Type :=
| JNull
| JBool (b : bool)
| JNum (r : R)
| JStr (s : string)
| JArr (l : list json)
| JObj (m : gmap string json).

(** [o[k]] for a string key [k]: only a [dict] accepts it. *)
Definition getitem (o : json) (k : string) : result json :=
  match o with
  | JObj m => match m !! k with
              | Some v => Ok v
              | None => Raise (KeyError k)
              end
  | _ => Raise TypeError
  end.

(** [o[k1][k2]] *)
Definition getitem2 (o : json) (k1 k2 : string) : result json :=
  inner ← getitem o k1; getitem inner k2.

(** The items a [for] loop draws from [o]: the elements of a list, the keys
    of a dict, the characters of a string; other values are not iterable.
    (The keys come in the map's order rather than insertion order: they are
    all strings, and the loops below fail alike on each of them.) *)
Definition iter (o : json) : result (list json) :=
  match o with
  | JArr l => Ok l
  | JObj m => Ok (JStr <$> (map_to_list m).*1)
  | JStr s => Ok ((λ c, JStr (String c EmptyString)) <$> String.list_ascii_of_string s)
  | _ => Raise TypeError
  end.

(** A decoded scalar as an entry of an array of numbers. On other values
    [np.array] builds arrays of strings or of objects, which the embedding
    does not follow. *)
Definition as_number (v : json) : result R :=
  match v with
  | JNum r => Ok r
  | _ => Unmodelled
  end.

(** [np.array([v1, ..., vn])] on decoded scalars: the numbers themselves
    when every entry is a number. *)
Definition np_array (vs : list json) : result (list R) := mapM as_number vs.

(* ===================================================================== *)
(** * Data model *)
(* ===================================================================== *)

Record CameraModel : Type := mkCameraModel {
  model_id : Z;
  model_name : string;
  num_params : Z
}.

Record Camera : Type := mkCamera {
  cam_id : Z;
  cam_model : Z;
  cam_width : json;
  cam_height : json;
  cam_params : list R
}.

Definition V3 : Type := R * R * R.
Definition V4 : Type := R * R * R * R.
(** Matrices are tuples of rows. *)
Definition M3 : Type := V3 * V3 * V3.
Definition M4 : Type := V4 * V4 * V4 * V4.

Record Image : Type := mkImage {
  img_id : Z;
  img_qvec : V4;
  img_tvec : list R;
  img_camera_id : Z;
  img_name : string;
  img_xys : list (R * R);
  img_point3D_ids : list R
}.

(** [CAMERA_MODELS], in the order of the source (a Python set: the order is
    immaterial, the names and the ids being pairwise distinct). *)
Definition CAMERA_MODELS : list CameraModel :=
  [ mkCameraModel 0 "SIMPLE_PINHOLE" 3;
    mkCameraModel 1 "PINHOLE" 4;
    mkCameraModel 2 "SIMPLE_RADIAL" 4;
    mkCameraModel 3 "RADIAL" 5;
    mkCameraModel 4 "OPENCV" 8;
    mkCameraModel 5 "OPENCV_FISHEYE" 8;
    mkCameraModel 6 "FULL_OPENCV" 12;
    mkCameraModel 7 "FOV" 5;
    mkCameraModel 8 "SIMPLE_RADIAL_FISHEYE" 4;
    mkCameraModel 9 "RADIAL_FISHEYE" 5;
    mkCameraModel 10 "THIN_PRISM_FISHEYE" 12 ].

Definition CAMERA_MODEL_IDS : gmap Z CameraModel :=
  list_to_map ((λ camera_model, (model_id camera_model, camera_model))
               <$> CAMERA_MODELS).

Definition CAMERA_MODEL_NAMES : gmap string CameraModel :=
  list_to_map ((λ camera_model, (model_name camera_model, camera_model))
               <$> CAMERA_MODELS).

(* ===================================================================== *)
(** * Rotation converters *)
(* ===================================================================== *)

Section Rotation.
Local Open Scope R_scope.

(** [v[i]] for [i] in 0..3 *)
Definition v4_get (v : V4) (i : nat) : R :=
  let '(a, b, c, d) := v in
  match i with
  | O => a
  | 1%nat => b
  | 2%nat => c
  | _ => d
  end.

Definition v4_map (f : R → R) (v : V4) : V4 :=
  let '(a, b, c, d) := v in (f a, f b, f c, f d).

Definition m4_map (f : R → R) (m : M4) : M4 :=
  let '(r0, r1, r2, r3) := m in
  (v4_map f r0, v4_map f r1, v4_map f r2, v4_map f r3).

(** [m[i, j]] *)
Definition m4_get (m : M4) (i j : nat) : R :=
  let '(r0, r1, r2, r3) := m in
  match i with
  | O => v4_get r0 j
  | 1%nat => v4_get r1 j
  | 2%nat => v4_get r2 j
  | _ => v4_get r3 j
  end.

Definition qvec2rotmat (qvec : V4) : M3 :=
  let q := v4_get qvec in
  ((1 - 2 * q 2%nat ^ 2 - 2 * q 3%nat ^ 2,
    2 * q 1%nat * q 2%nat - 2 * q 0%nat * q 3%nat,
    2 * q 3%nat * q 1%nat + 2 * q 0%nat * q 2%nat),
   (2 * q 1%nat * q 2%nat + 2 * q 0%nat * q 3%nat,
    1 - 2 * q 1%nat ^ 2 - 2 * q 3%nat ^ 2,
    2 * q 2%nat * q 3%nat - 2 * q 0%nat * q 1%nat),
   (2 * q 3%nat * q 1%nat - 2 * q 0%nat * q 2%nat,
    2 * q 2%nat * q 3%nat + 2 * q 0%nat * q 1%nat,
    1 - 2 * q 1%nat ^ 2 - 2 * q 2%nat ^ 2)).

(** [np.argmax]: the first index holding the largest entry. *)
Definition argmax (v : V4) : nat :=
  let i1 := if Rlt_dec (v4_get v 0) (v4_get v 1) then 1%nat else 0%nat in
  let i2 := if Rlt_dec (v4_get v i1) (v4_get v 2) then 2%nat else i1 in
  if Rlt_dec (v4_get v i2) (v4_get v 3) then 3%nat else i2.

(** The matrix [K] of [rotmat2qvec], before the eigendecomposition. The
    names follow the source: [R.flat] is row-major, so [Ryx] is [R[0][1]]. *)
Definition rotmat2qvec_K (R : M3) : M4 :=
  let '((Rxx, Ryx, Rzx), (Rxy, Ryy, Rzy), (Rxz, Ryz, Rzz)) := R in
  m4_map (λ k, k / 3)
    ((Rxx - Ryy - Rzz, 0, 0, 0),
     (Ryx + Rxy, Ryy - Rxx - Rzz, 0, 0),
     (Rzx + Rxz, Rzy + Ryz, Rzz - Rxx - Ryy, 0),
     (Ryz - Rzy, Rzx - Rxz, Rxy - Ryx, Rxx + Ryy + Rzz)).

(** [eigvecs[[3, 0, 1, 2], j]] *)
Definition select_eigvec (eigvecs : M4) (j : nat) : V4 :=
  (m4_get eigvecs 3 j, m4_get eigvecs 0 j,
   m4_get eigvecs 1 j, m4_get eigvecs 2 j).

(** [rotmat2qvec], with [np.linalg.eigh] as the parameter [eigh]: it maps a
    matrix to the pair [(eigvals, eigvecs)]. *)
Definition rotmat2qvec (eigh : M4 → V4 * M4) (R : M3) : V4 :=
  let K := rotmat2qvec_K R in
  let '(eigvals, eigvecs) := eigh K in
  let qvec := select_eigvec eigvecs (argmax eigvals) in
  if Rlt_dec (v4_get qvec 0) 0 then v4_map (λ x, x * -1) qvec else qvec.

End Rotation.

(* ===================================================================== *)
(** * The two parsers *)
(* ===================================================================== *)

(** What [open(path, "r")] followed by [json.load(file)] meets at a path. *)
Inductive file_state : Type :=
| NoSuchFile
| NotJSON
| Holds (data : json).

Definition filesystem : Type := string → file_state.

(** [with open(path, "r") as file: data = json.load(file)] *)
Definition load (fs : filesystem) (path : string) : result json :=
  match fs path with
  | NoSuchFile => Raise (FileNotFoundError path)
  | NotJSON => Raise JSONDecodeError
  | Holds data => Ok data
  end.

Definition OPENCV_KEYS : list string :=
  [ "FocalLengthU"; "FocalLengthV"; "CenterPointU"; "CenterPointV";
    "RadialDistortion1"; "RadialDistortion2";
    "TangentalDistortion1"; "TangentalDistortion2" ].

Definition PINHOLE_KEYS : list string :=
  [ "FocalLengthU"; "FocalLengthV"; "CenterPointU"; "CenterPointV" ].

(** The [if]/[elif]/[else] that fills [params]; the entries of the list
    display are looked up left to right before [np.array] sees them. *)
Definition intrinsics_params (camera_model_type : string) (cam : json)
  : result (list R) :=
  if decide (camera_model_type = "OPENCV") then
    vs ← mapM (getitem2 cam "Intrinsic") OPENCV_KEYS; np_array vs
  else if decide (camera_model_type = "PINHOLE") then
    vs ← mapM (getitem2 cam "Intrinsic") PINHOLE_KEYS; np_array vs
  else
    np_array [].

(** Body of the loop of [read_intrinsics_json]; the state is [cameras]. *)
Definition intrinsics_body (camera_model_type : string) (model_id : Z)
    (idx : Z) (cam : json) : stateful (gmap Z Camera) unit :=
  width ⇐ st_lift (getitem2 cam "FovVideo" "Right");
  height ⇐ st_lift (getitem2 cam "FovVideo" "Bottom");
  params ⇐ st_lift (intrinsics_params camera_model_type cam);
  st_modify <[idx := mkCamera idx model_id width height params]>.

Definition read_intrinsics_json (fs : filesystem) (path : string)
    (camera_model_type : string) : result (gmap Z Camera) :=
  let cameras : gmap Z Camera := ∅ in
  data ← load fs path;
  match CAMERA_MODEL_NAMES !! camera_model_type with
  | None =>
      Raise (ValueError ("Unsupported camera model type: " +:+ camera_model_type))
  | Some camera_model =>
      let model_id := model_id camera_model in
      Cameras ← getitem data "Cameras";
      items ← iter Cameras;
      returning
        (for_enumerate (intrinsics_body camera_model_type model_id) 1 items
           cameras)
  end.

(** A call site: [camera_model_type] is optional and defaults to
    ["OPENCV"]. *)
Definition read_intrinsics_json_call (fs : filesystem) (path : string)
    (camera_model_type : option string) : result (gmap Z Camera) :=
  read_intrinsics_json fs path (default "OPENCV" camera_model_type).

Definition TRANSLATION_KEYS : list string := [ "x"; "y"; "z" ].

Definition ROTATION_KEYS : list string :=
  [ "r11"; "r12"; "r13"; "r21"; "r22"; "r23"; "r31"; "r32"; "r33" ].

(** [np.array] on the three rows of three entries each, given row-major. *)
Definition np_array_3x3 (vs : list json) : result M3 :=
  ns ← np_array vs;
  match ns with
  | [a; b; c; d; e; f; g; h; i] => Ok ((a, b, c), (d, e, f), (g, h, i))
  | _ => Unmodelled
  end.

(** [tvec = np.array([cam["Transform"]["x"], ...])] *)
Definition extrinsics_tvec (cam : json) : result (list R) :=
  vs ← mapM (getitem2 cam "Transform") TRANSLATION_KEYS; np_array vs.

(** [R = np.array([[cam["Transform"]["r11"], ...], ...])] *)
Definition extrinsics_R (cam : json) : result M3 :=
  vs ← mapM (getitem2 cam "Transform") ROTATION_KEYS; np_array_3x3 vs.

(** The entries of [R] in the order of [R.flat]. *)
Definition m3_entries (A : M3) : list R :=
  let '((a, b, c), (d, e, f), (g, h, i)) := A in [a; b; c; d; e; f; g; h; i].

(** 2^29. An entry below it in absolute value is, as a float, far from
    overflow; as a JSON integer it fits the integers of numpy on every
    platform, and so do the sums of three such entries that [rotmat2qvec]
    forms before it divides by 3.0. *)
Definition ENTRY_LIMIT : R := 536870912%R.

Definition moderate (r : R) : bool :=
  if Rlt_dec (Rabs r) ENTRY_LIMIT then true else false.

Section Extrinsics.
Variable eigh : M4 → V4 * M4.

(** [qvec = rotmat2qvec(R)] on the array built from the document. With
    moderate entries the array holds machine numbers and the call is the
    [rotmat2qvec] of the embedding. With larger ones numpy may hold [R] in
    integers whose sums wrap around, or (a JSON integer beyond 64 bits) as
    an array of Python objects, on which [numpy.linalg.eigh] raises a
    [TypeError]; a [JNum] does not tell an integer from a float, and the
    embedding does not follow the call. *)
Definition extrinsics_qvec (R : M3) : result V4 :=
  if forallb moderate (m3_entries R) then Ok (rotmat2qvec eigh R)
  else Unmodelled.

(** Body of the loop of [read_extrinsics_json]; the state is [images]. *)
Definition extrinsics_body (idx : Z) (cam : json)
  : stateful (gmap Z Image) unit :=
  tvec ⇐ st_lift (extrinsics_tvec cam);
  R ⇐ st_lift (extrinsics_R cam);
  qvec ⇐ st_lift (extrinsics_qvec R);
  let image_id := idx in
  let camera_id := idx in
  let image_name := "Camera_" +:+ pretty idx in
  let xys : list (Rdefinitions.R * Rdefinitions.R) := [] in
  let point3D_ids : list Rdefinitions.R := [] in
  st_modify <[image_id := mkImage image_id qvec tvec camera_id image_name
                            xys point3D_ids]>.

(** The loop of [read_extrinsics_json] over the decoded document, started
    with [images = {}]: the dictionary reached and how the loop ended. *)
Definition extrinsics_loop (data : json)
  : result (gmap Z Image * result unit) :=
  Cameras ← getitem data "Cameras";
  items ← iter Cameras;
  Ok (for_enumerate extrinsics_body 1 items ∅).

Definition read_extrinsics_json (fs : filesystem) (path : string)
  : result (gmap Z Image) :=
  data ← load fs path;
  out ← extrinsics_loop data;
  returning out.

End Extrinsics.

(* ===================================================================== *)
(** * Vocabulary of the statements *)
(* ===================================================================== *)

(** ** Documents *)

(** Reading a decoded document without raising: [field o k] is the entry of
    the object [o] at [k], [number_at cam block k] the number stored at
    [cam.block.k]. *)
Definition field (o : json) (k : string) : option json :=
  match o with
  | JObj m => m !! k
  | _ => None
  end.

Definition number_at (cam : json) (block k : string) : option R :=
  match field cam block ≫= (λ b, field b k) with
  | Some (JNum r) => Some r
  | _ => None
  end.

Definition has_numbers (cam : json) (block : string) (keys : list string)
  : Prop :=
  Forall (λ k, is_Some (number_at cam block k)) keys.

(** The keys of the [Transform] block in the order in which
    [read_extrinsics_json] reads them. *)
Definition TRANSFORM_KEYS : list string :=
  [ "x"; "y"; "z";
    "r11"; "r12"; "r13"; "r21"; "r22"; "r23"; "r31"; "r32"; "r33" ].

(** A camera element carrying every required field, each a number. *)
Definition well_formed_camera (cam : json) : Prop :=
  has_numbers cam "FovVideo" [ "Right"; "Bottom" ]
  ∧ has_numbers cam "Intrinsic"
      [ "FocalLengthU"; "FocalLengthV"; "CenterPointU"; "CenterPointV";
        "RadialDistortion1"; "RadialDistortion2";
        "TangentalDistortion1"; "TangentalDistortion2" ]
  ∧ has_numbers cam "Transform" TRANSFORM_KEYS.

(** The rotation entries of the element are moderate, as those of every
    rotation matrix are (none exceeds 1 in absolute value). *)
Definition moderate_rotation (cam : json) : Prop :=
  ∀ (k : string) (r : R),
    k ∈ ROTATION_KEYS → number_at cam "Transform" k = Some r →
    (Rabs r < ENTRY_LIMIT)%R.

(** The camera array of a document (empty when there is none). *)
Definition Cameras_of (data : json) : list json :=
  match field data "Cameras" with
  | Some (JArr cams) => cams
  | _ => []
  end.

Definition well_formed_document (data : json) : Prop :=
  field data "Cameras" = Some (JArr (Cameras_of data))
  ∧ Forall well_formed_camera (Cameras_of data).

(** A mapping holds exactly the keys [1..n], each record knowing its key. *)
Definition keyed_1_to {V} (ident : V → Z) (n : nat) (m : gmap Z V) : Prop :=
  size m = n
  ∧ (∀ k : Z, is_Some (m !! k) ↔ (1 ≤ k ≤ Z.of_nat n)%Z)
  ∧ (∀ (k : Z) (v : V), m !! k = Some v → ident v = k).

(** The dictionary a loop has built after storing [mk idx x] at [idx] for
    each [x] of [xs], enumerated from [idx]. *)
Fixpoint fill {A V} (mk : Z → A → V) (idx : Z) (xs : list A)
    (s : gmap Z V) : gmap Z V :=
  match xs with
  | [] => s
  | x :: xs' => fill mk (idx + 1) xs' (<[idx := mk idx x]> s)
  end.

(** The value of a call that did not raise. *)
Definition from_ok {A} (d : A) (r : result A) : A :=
  match r with
  | Ok a => a
  | _ => d
  end.

(** The records an iteration stores at [idx] when the element [cam] carries
    what the iteration reads. *)
Definition camera_of (camera_model_type : string) (model_id : Z)
    (idx : Z) (cam : json) : Camera :=
  mkCamera idx model_id
    (from_ok JNull (getitem2 cam "FovVideo" "Right"))
    (from_ok JNull (getitem2 cam "FovVideo" "Bottom"))
    (from_ok [] (intrinsics_params camera_model_type cam)).

Definition image_of (eigh : M4 → V4 * M4) (idx : Z) (cam : json) : Image :=
  mkImage idx
    (rotmat2qvec eigh
       (from_ok ((0, 0, 0), (0, 0, 0), (0, 0, 0))%R (extrinsics_R cam)))
    (from_ok [] (extrinsics_tvec cam))
    idx ("Camera_" +:+ pretty idx) [] [].

(** The element [cam] is an object whose [Transform] block lacks [k], the
    keys read before [k] being present as numbers; [k = "Transform"] when
    the block itself is absent. *)
Definition first_missing_key (cam : json) (k : string) : Prop :=
  (∃ c, cam = JObj c ∧ c !! "Transform" = None ∧ k = "Transform")
  ∨ (∃ c t before after,
        cam = JObj c ∧ c !! "Transform" = Some (JObj t)
        ∧ TRANSFORM_KEYS = before ++ k :: after
        ∧ has_numbers cam "Transform" before
        ∧ t !! k = None).


(** ** Quaternions, rotation matrices and the eigensolver *)

Section RotationVocabulary.
Local Open Scope R_scope.

Definition v4_opp (v : V4) : V4 := v4_map Ropp v.

Definition v4_scale (k : R) (v : V4) : V4 := v4_map (Rmult k) v.

Definition v4_norm2 (v : V4) : R :=
  let '(a, b, c, d) := v in a ^ 2 + b ^ 2 + c ^ 2 + d ^ 2.

Definition v4_norm (v : V4) : R := sqrt (v4_norm2 v).

Definition unit_quaternion (q : V4) : Prop := v4_norm q = 1.

Definition m3_transpose (A : M3) : M3 :=
  let '((a, b, c), (d, e, f), (g, h, i)) := A in
  ((a, d, g), (b, e, h), (c, f, i)).

Definition m3_mul (A B : M3) : M3 :=
  let '((a, b, c), (d, e, f), (g, h, i)) := A in
  let '((a', b', c'), (d', e', f'), (g', h', i')) := B in
  ((a * a' + b * d' + c * g', a * b' + b * e' + c * h', a * c' + b * f' + c * i'),
   (d * a' + e * d' + f * g', d * b' + e * e' + f * h', d * c' + e * f' + f * i'),
   (g * a' + h * d' + i * g', g * b' + h * e' + i * h', g * c' + h * f' + i * i')).

Definition m3_id : M3 := ((1, 0, 0), (0, 1, 0), (0, 0, 1)).

Definition m3_det (A : M3) : R :=
  let '((a, b, c), (d, e, f), (g, h, i)) := A in
  a * (e * i - f * h) - b * (d * i - f * g) + c * (d * h - e * g).

(** An orthonormal matrix of determinant +1. *)
Definition rotation (A : M3) : Prop :=
  m3_mul (m3_transpose A) A = m3_id ∧ m3_det A = 1.

(** Entrywise agreement within [eps]. *)
Definition v4_close (eps : R) (u v : V4) : Prop :=
  let '(a, b, c, d) := u in
  let '(a', b', c', d') := v in
  Rabs (a - a') <= eps ∧ Rabs (b - b') <= eps
  ∧ Rabs (c - c') <= eps ∧ Rabs (d - d') <= eps.

Definition v3_close (eps : R) (u v : V3) : Prop :=
  let '(a, b, c) := u in
  let '(a', b', c') := v in
  Rabs (a - a') <= eps ∧ Rabs (b - b') <= eps ∧ Rabs (c - c') <= eps.

Definition m3_close (eps : R) (A B : M3) : Prop :=
  let '(r0, r1, r2) := A in
  let '(r0', r1', r2') := B in
  v3_close eps r0 r0' ∧ v3_close eps r1 r1' ∧ v3_close eps r2 r2'.

(** The tolerance of the round-trip properties, 1e-6. *)
Definition tolerance : R := / 1000000.

(** The symmetric matrix [numpy.linalg.eigh] works on: with the default
    [UPLO='L'] only the lower triangle of its argument is read. *)
Definition sym_lower (a : M4) : M4 :=
  let g := m4_get a in
  ((g 0 0, g 1 0, g 2 0, g 3 0)%nat,
   (g 1 0, g 1 1, g 2 1, g 3 1)%nat,
   (g 2 0, g 2 1, g 2 2, g 3 2)%nat,
   (g 3 0, g 3 1, g 3 2, g 3 3)%nat).

Definition v4_dot (u v : V4) : R :=
  let '(a, b, c, d) := u in
  let '(a', b', c', d') := v in
  a * a' + b * b' + c * c' + d * d'.

Definition m4_mulv (a : M4) (u : V4) : V4 :=
  let '(r0, r1, r2, r3) := a in
  (v4_dot r0 u, v4_dot r1 u, v4_dot r2 u, v4_dot r3 u).

(** [m[:, j]] *)
Definition m4_col (m : M4) (j : nat) : V4 :=
  (m4_get m 0 j, m4_get m 1 j, m4_get m 2 j, m4_get m 3 j).

(** The contract of [numpy.linalg.eigh], after its documentation: the
    eigenvalues of the matrix in ascending order, and in column [j] a
    normalized eigenvector for the [j]-th of them. *)
Record eigh_spec (a : M4) (out : V4 * M4) : Prop := mk_eigh_spec {
  eigh_ascending :
    v4_get out.1 0 <= v4_get out.1 1
    ∧ v4_get out.1 1 <= v4_get out.1 2
    ∧ v4_get out.1 2 <= v4_get out.1 3;
  eigh_pair : ∀ j, (j < 4)%nat →
    m4_mulv (sym_lower a) (m4_col out.2 j)
    = v4_scale (v4_get out.1 j) (m4_col out.2 j);
  eigh_normalized : ∀ j, (j < 4)%nat → v4_norm2 (m4_col out.2 j) = 1;
  eigh_all : ∀ (ev : R) (u : V4),
    u ≠ (0, 0, 0, 0) → m4_mulv (sym_lower a) u = v4_scale ev u →
    ∃ j, (j < 4)%nat ∧ v4_get out.1 j = ev
}.

Definition m4_close (eps : R) (A B : M4) : Prop :=
  let '(r0, r1, r2, r3) := A in
  let '(r0', r1', r2', r3') := B in
  v4_close eps r0 r0' ∧ v4_close eps r1 r1'
  ∧ v4_close eps r2 r2' ∧ v4_close eps r3 r3'.

(** What a floating-point [eigh] delivers: eigenvalues and eigenvectors
    within [eps], entry by entry, of an eigendecomposition that meets the
    contract exactly. With [eps = 0] this is [eigh_spec]. *)
Definition eigh_within (eps : R) (a : M4) (out : V4 * M4) : Prop :=
  ∃ exact : V4 * M4,
    eigh_spec a exact
    ∧ v4_close eps out.1 exact.1 ∧ m4_close eps out.2 exact.2.

(** An eigendecomposition of the matrix [K] of the rotation of the unit
    quaternion [q = (a, b, c, d)], as [eigh] may return it: [K] has the
    eigenvalue 1 on the line of [q] (stored as (b, c, d, a)) and -1/3 on
    its orthogonal complement; the columns are orthonormal. *)
Definition quaternion_eigh (q : V4) : V4 * M4 :=
  let '(a, b, c, d) := q in
  ((- (1 / 3), - (1 / 3), - (1 / 3), 1),
   ((a, - d, c, b),
    (d, a, - b, c),
    (- c, b, a, d),
    (- b, - c, - d, a))).

End RotationVocabulary.

(* ===================================================================== *)
(** * A sample rig *)
(* ===================================================================== *)

(** Concrete inputs on which the statements below are exercised: a pose
    with the identity rotation at position (1, 2, 3), a camera element with
    every field, documents built from them, a file system holding them, and
    the eigendecomposition of the diagonal matrix [K] of the identity. *)

Definition identity_transform : gmap string json :=
  list_to_map
    [ ("x", JNum 1); ("y", JNum 2); ("z", JNum 3);
      ("r11", JNum 1); ("r12", JNum 0); ("r13", JNum 0);
      ("r21", JNum 0); ("r22", JNum 1); ("r23", JNum 0);
      ("r31", JNum 0); ("r32", JNum 0); ("r33", JNum 1) ].

Definition identity_pose_document : json :=
  JObj {[ "Cameras" :=
            JArr [ JObj {[ "Transform" := JObj identity_transform ]} ] ]}.

Definition sample_camera : json :=
  JObj (list_to_map
    [ ("FovVideo",
       JObj (list_to_map [ ("Left", JNum 0); ("Top", JNum 0);
                           ("Right", JNum 1919); ("Bottom", JNum 1087) ]));
      ("Intrinsic",
       JObj (list_to_map
         [ ("FocalLengthU", JNum 1100); ("FocalLengthV", JNum 1101);
           ("CenterPointU", JNum 960); ("CenterPointV", JNum 544);
           ("RadialDistortion1", JNum 11); ("RadialDistortion2", JNum 12);
           ("TangentalDistortion1", JNum 21);
           ("TangentalDistortion2", JNum 22) ]));
      ("Transform", JObj identity_transform) ]).

Definition sample_document : json :=
  JObj {[ "Cameras" := JArr [ sample_camera; sample_camera ] ]}.

(** The second element has lost [Transform.r11]. *)
Definition defective_document : json :=
  JObj {[ "Cameras" :=
            JArr [ sample_camera;
                   JObj {[ "Transform" :=
                             JObj (delete "r11" identity_transform) ]};
                   sample_camera ] ]}.

Definition sample_fs : filesystem := λ path,
  if decide (path = "rig.json") then Holds sample_document
  else if decide (path = "pose.json") then Holds identity_pose_document
  else if decide (path = "defective.json") then Holds defective_document
  else if decide (path = "empty.json") then Holds JNull
  else if decide (path = "garbled.json") then NotJSON
  else NoSuchFile.

Definition identity_eigh : M4 → V4 * M4 := λ _,
  ((- (1 / 3), - (1 / 3), - (1 / 3), 1),
   ((1, 0, 0, 0), (0, 1, 0, 0), (0, 0, 1, 0), (0, 0, 0, 1)))%R.

(** A unit quaternion with rational components, for the rotation about the
    x axis with cosine -7/25, and an eigensolver for its matrix. *)
Definition sample_quaternion : V4 := (3 / 5, 4 / 5, 0, 0)%R.

Definition sample_eigh : M4 → V4 * M4 := λ _, quaternion_eigh sample_quaternion.

(* ===================================================================== *)
(** * Further vocabulary for the parsers *)
(* ===================================================================== *)

(** A value a [for] loop draws nothing from without raising: an empty list,
    dict or string. *)
Definition empty_container (v : json) : bool :=
  match v with
  | JArr [] => true
  | JObj m => bool_decide (m = ∅)
  | JStr s => bool_decide (s = "")
  | _ => false
  end.

(** The items of the camera array as the parsers draw them. *)
Definition camera_items (data : json) : result (list json) :=
  Cameras ← getitem data "Cameras"; iter Cameras.

(** The element [cam] gave the iteration of [read_intrinsics_json] all it
    reads: both bounds of the field of view and the parameters of the
    model. *)
Definition intrinsics_read (camera_model_type : string) (cam : json) : Prop :=
  (∃ w, getitem2 cam "FovVideo" "Right" = Ok w)
  ∧ (∃ h, getitem2 cam "FovVideo" "Bottom" = Ok h)
  ∧ (∃ ps, intrinsics_params camera_model_type cam = Ok ps).

(** The value stored at [cam.block.k], whatever it is. *)
Definition value_at (cam : json) (block k : string) : option json :=
  field cam block ≫= (λ b, field b k).

(** A camera element with nothing but its field of view, another with the
    four pinhole intrinsics and no distortion coefficients, documents made
    of them and a file system holding those. *)
Definition fov_only_camera : json :=
  JObj {[ "FovVideo" :=
            JObj (list_to_map [ ("Right", JNum 1919); ("Bottom", JNum 1087) ]) ]}.

Definition pinhole_camera : json :=
  JObj (list_to_map
    [ ("FovVideo",
       JObj (list_to_map [ ("Right", JNum 1919); ("Bottom", JNum 1087) ]));
      ("Intrinsic",
       JObj (list_to_map
         [ ("FocalLengthU", JNum 1100); ("FocalLengthV", JNum 1101);
           ("CenterPointU", JNum 960); ("CenterPointV", JNum 544) ])) ]).

Definition extra_fs : filesystem := λ path,
  if decide (path = "fov.json")
  then Holds (JObj {[ "Cameras" := JArr [ fov_only_camera; fov_only_camera ] ]})
  else if decide (path = "pinhole.json")
  then Holds (JObj {[ "Cameras" := JArr [ pinhole_camera ] ]})
  else if decide (path = "nocameras.json") then Holds (JObj ∅)
  else if decide (path = "text.json")
  then Holds (JObj {[ "Cameras" := JStr "Miqus" ]})
  else if decide (path = "nothing.json")
  then Holds (JObj {[ "Cameras" := JObj ∅ ]})
  else NoSuchFile.

(** [Image.qvec2rotmat], the method of the pose record. *)
Definition Image_qvec2rotmat (self : Image) : M3 := qvec2rotmat (img_qvec self).

(* ===================================================================== *)
(** * The plotting helpers *)
(* ===================================================================== *)

(** Of [visualize_cameras], [visualize_cameras_3d], [set_axes_equal] and
    [create_floor], the numbers handed to matplotlib; the drawing itself is
    not modelled. *)

Section Plotting.
Local Open Scope R_scope.

(** [A @ v] *)
Definition m3_mulv (A : M3) (v : V3) : V3 :=
  let '((a, b, c), (d, e, f), (g, h, i)) := A in
  let '(x, y, z) := v in
  (a * x + b * y + c * z, d * x + e * y + f * z, g * x + h * y + i * z).

(** [camera_orientation = image.qvec2rotmat().T @ np.array([0, 0, -1])], as
    [visualize_cameras] and [visualize_cameras_3d] compute it. *)
Definition camera_orientation (image : Image) : V3 :=
  m3_mulv (m3_transpose (Image_qvec2rotmat image)) (0, 0, -1).

(** The segment [visualize_cameras_3d] hands to [ax.plot] for one image:
    from [camera_pos = image.tvec] to
    [line_end = camera_pos + arrow_length_mm * camera_orientation].
    [None] stands for the exception raised when [tvec] has not three
    entries ([IndexError] in [ax.scatter] or a shape mismatch in the sum). *)
Definition camera_segment_3d (arrow_length_mm : R) (image : Image)
  : option (V3 * V3) :=
  match img_tvec image with
  | [x; y; z] =>
      let '(ox, oy, oz) := camera_orientation image in
      Some ((x, y, z),
            (x + arrow_length_mm * ox, y + arrow_length_mm * oy,
             z + arrow_length_mm * oz))
  | _ => None
  end.

(** The segment [visualize_cameras] hands to [plt.plot] for one image:
    from [camera_pos[:2]] to
    [line_end = camera_pos[:2] + arrow_length_mm * camera_orientation[:2]].
    [None] stands for the [IndexError] of [camera_pos[1]] when [tvec] has
    fewer than two entries. *)
Definition camera_segment_2d (arrow_length_mm : R) (image : Image)
  : option ((R * R) * (R * R)) :=
  match img_tvec image with
  | x :: y :: _ =>
      let '(ox, oy, _) := camera_orientation image in
      Some ((x, y), (x + arrow_length_mm * ox, y + arrow_length_mm * oy))
  | _ => None
  end.

(** The axis limits of a 3D plot, each a pair (lower, upper). *)
Record axes_limits : Type := mk_axes_limits {
  x_limits : R * R;
  y_limits : R * R;
  z_limits : R * R
}.

(** [set_axes_equal]: from the limits read with [get_xlim3d],
    [get_ylim3d], [get_zlim3d], the limits handed to [set_xlim],
    [set_ylim] and [set_zlim]. *)
Definition set_axes_equal (ax : axes_limits) : axes_limits :=
  let x_range := Rabs ((x_limits ax).2 - (x_limits ax).1) in
  let y_range := Rabs ((y_limits ax).2 - (y_limits ax).1) in
  let z_range := Rabs ((z_limits ax).2 - (z_limits ax).1) in
  let max_range := Rmax (Rmax x_range y_range) z_range in
  let padding := max_range * (1 / 10) in
  mk_axes_limits
    ((x_limits ax).1 - padding, (x_limits ax).2 + padding)
    ((y_limits ax).1 - padding, (y_limits ax).2 + padding)
    (0, z_range + padding).

(** [min(values)] and [max(values)]; [None] stands for the [ValueError]
    raised on an empty sequence. *)
Definition py_min (values : list R) : option R :=
  match values with
  | [] => None
  | v :: vs => Some (foldl Rmin v vs)
  end.

Definition py_max (values : list R) : option R :=
  match values with
  | [] => None
  | v :: vs => Some (foldl Rmax v vs)
  end.

(** [np.linspace(start, stop, num)] for [num >= 2]. *)
Definition linspace (start stop : R) (num : nat) : list R :=
  (λ j : nat, start + INR j * ((stop - start) / INR (num - 1))) <$> seq 0 num.

(** [create_floor], up to the two axes handed to [np.meshgrid]: the
    positions of the images in the order of [images.values()], the bounds
    widened by [grid_size], fifty grid lines each way. [None] stands for an
    exception: [IndexError] when a [tvec] has fewer than two entries,
    [ValueError] when there is no image. *)
Definition create_floor_axes (images : list Image) (grid_size : R)
  : option (list R * list R) :=
  x_values ← mapM (λ image, img_tvec image !! 0%nat) images;
  y_values ← mapM (λ image, img_tvec image !! 1%nat) images;
  x_min ← py_min x_values;
  x_max ← py_max x_values;
  y_min ← py_min y_values;
  y_max ← py_max y_values;
  let x_min := x_min - grid_size in
  let x_max := x_max + grid_size in
  let y_min := y_min - grid_size in
  let y_max := y_max + grid_size in
  Some (linspace x_min x_max 50, linspace y_min y_max 50).

End Plotting.

(* ===================================================================== *)
(** * File names *)
(* ===================================================================== *)

(** The part of Python's [re] the two patterns of the loader are written
    in: single characters, greedy repetitions of a single character, one
    capturing group and [$]. A file name is a string of ASCII characters;
    on other names ([\d] and [int] also accept the decimal digits of other
    scripts) the embedding says nothing. *)
Inductive char_class : Type :=
| AnyChar
| Digit
| Literal (c : ascii).

Inductive regex_item : Type :=
| One (cls : char_class)
| ZeroOrMore (cls : char_class)
| OneOrMore (cls : char_class)
| GroupOpen
| GroupClose
| EndOfString.

Definition newline : ascii := "010"%char.

Definition is_digit (c : ascii) : bool :=
  (48 <=? N_of_ascii c)%N && (N_of_ascii c <=? 57)%N.

(** [.] matches every character but a newline (no [DOTALL] flag), [\d] a
    decimal digit. *)
Definition accepts (cls : char_class) (c : ascii) : bool :=
  match cls with
  | AnyChar => negb (Ascii.eqb c newline)
  | Digit => is_digit c
  | Literal a => Ascii.eqb a c
  end.

(** [$] without [MULTILINE]: the end of the string, or the position before
    a newline that ends the string. *)
Definition at_end (s : list ascii) : bool :=
  match s with
  | [] => true
  | [c] => Ascii.eqb c newline
  | _ => false
  end.

(** How far a repetition of [cls] can go at the start of [s]. *)
Fixpoint run (cls : char_class) (s : list ascii) : nat :=
  match s with
  | c :: s' => if accepts cls c then S (run cls s') else 0
  | [] => 0
  end.

(** The text of group 1: what is consumed while the group is open is put
    in front of what the rest of the pattern adds. *)
Definition keep (capturing : bool) (cs g : list ascii) : list ascii :=
  if capturing then cs ++ g else g.

(** A greedy repetition that may take between [lo] and [n] characters:
    the longest first, then one character less at a time, until the rest
    of the pattern [k] matches what is left. *)
Fixpoint greedy (k : list ascii → option (list ascii)) (capturing : bool)
    (lo n : nat) (s : list ascii) : option (list ascii) :=
  if (n <? lo)%nat then None
  else match k (drop n s) with
       | Some g => Some (keep capturing (take n s) g)
       | None => match n with
                 | O => None
                 | S n' => greedy k capturing lo n' s
                 end
       end.

(** Matching the items [p] at the start of [s], by backtracking; the text
    of group 1 is returned. *)
Fixpoint re_run (p : list regex_item) (capturing : bool) (s : list ascii)
  : option (list ascii) :=
  match p with
  | [] => Some []
  | One cls :: p' =>
      match s with
      | c :: s' =>
          if accepts cls c then keep capturing [c] <$> re_run p' capturing s'
          else None
      | [] => None
      end
  | ZeroOrMore cls :: p' =>
      greedy (re_run p' capturing) capturing 0 (run cls s) s
  | OneOrMore cls :: p' =>
      greedy (re_run p' capturing) capturing 1 (run cls s) s
  | GroupOpen :: p' => re_run p' true s
  | GroupClose :: p' => re_run p' false s
  | EndOfString :: p' => if at_end s then re_run p' capturing s else None
  end.

(** [re.search] tries the start positions from left to right. *)
Fixpoint re_search_from (p : list regex_item) (s : list ascii)
  : option (list ascii) :=
  match re_run p false s with
  | Some g => Some g
  | None => match s with
            | [] => None
            | _ :: s' => re_search_from p s'
            end
  end.

(** [pattern.match(name).group(1)] and [re.search(pattern, name).group(1)];
    [None] when there is no match. *)
Definition re_match (p : list regex_item) (name : string) : option string :=
  String.string_of_list_ascii
    <$> re_run p false (String.list_ascii_of_string name).

Definition re_search (p : list regex_item) (name : string) : option string :=
  String.string_of_list_ascii
    <$> re_search_from p (String.list_ascii_of_string name).

Definition literally (text : string) : list regex_item :=
  (λ c, One (Literal c)) <$> String.list_ascii_of_string text.

(** [r'.*Miqus_(\d+)_.*\.png$'] *)
Definition IMAGE_PATTERN : list regex_item :=
  [ZeroOrMore AnyChar] ++ literally "Miqus_"
  ++ [GroupOpen; OneOrMore Digit; GroupClose] ++ literally "_"
  ++ [ZeroOrMore AnyChar] ++ literally ".png" ++ [EndOfString].

(** [r'Miqus_(\d+)_'] *)
Definition NUMBER_PATTERN : list regex_item :=
  literally "Miqus_" ++ [GroupOpen; OneOrMore Digit; GroupClose]
  ++ literally "_".

(** [int(digits)] on a string of decimal digits. *)
Definition int (digits : string) : Z :=
  foldl (λ acc c, acc * 10 + (Z.of_N (N_of_ascii c) - 48))%Z 0%Z
    (String.list_ascii_of_string digits).

(** The names the embedding covers: ASCII characters only, and not so long
    that [int] could refuse the digits (4300 is the default limit of the
    interpreters that have one). *)
Definition plain_name (name : string) : bool :=
  forallb (λ c, (N_of_ascii c <? 128)%N) (String.list_ascii_of_string name)
  && (String.length name <=? 4300)%nat.

(** The order of the tuples [(camera_number, file)]: by number, then by
    name. *)
Definition tuple_le (a b : Z * string) : Prop :=
  (a.1 < b.1)%Z ∨ (a.1 = b.1 ∧ (a.2 ≤ b.2)%string).

#[global] Instance tuple_le_dec : RelDecision tuple_le.
Proof. intros a b. unfold tuple_le. apply _. Defined.

(** [sorted_image_files]. [listdir] stands for [os.listdir]: the names in
    the directory, in any order, or the exception it raises. The loop
    appends one tuple for each name the pattern matches, in the order of
    the listing; [images.sort()] puts the tuples in increasing order, of
    which there is one only; the names of the tuples are returned.
    [Unmodelled] marks a listing with a name the embedding does not
    cover. *)
Definition sorted_image_files (listdir : string → result (list string))
    (directory : string) : result (list string) :=
  files ← listdir directory;
  if forallb plain_name files then
    let images :=
      omap (λ file, digits ← re_match IMAGE_PATTERN file;
                    Some (int digits, file)) files in
    Ok ((merge_sort tuple_le images).*2)
  else Unmodelled.

(** The loop of the script part that fills [sorted_images] from the file
    names. [None] stands for the [AttributeError] raised by [.group] when
    [re.search] finds nothing. The dictionary is a finite map: the order
    of insertion, which Python keeps, is not modelled. *)
Fixpoint sorted_images_loop (extrinsics : gmap Z Image)
    (sorted_files : list string) (sorted_images : gmap Z Image)
  : option (gmap Z Image) :=
  match sorted_files with
  | [] => Some sorted_images
  | file :: files =>
      digits ← re_search NUMBER_PATTERN file;
      let camera_number := int digits in
      match extrinsics !! camera_number with
      | Some image =>
          sorted_images_loop extrinsics files
            (<[camera_number := image]> sorted_images)
      | None => sorted_images_loop extrinsics files sorted_images
      end
  end.

(** A directory as the recordings come: one picture per camera, and other
    files. *)
Definition sample_listdir : string → result (list string) := λ directory,
  if decide (directory = "qualisys_json_loader_test_data")
  then Ok [ "Rec_Miqus_10_22255.png"; "Rec_Miqus_9_22254.png";
            "Rec_Miqus_2_22247.png"; "Rec.json"; "Rec_Miqus_3_22248.avi";
            "Rec_Miqus_02_copy.png" ]
  else Raise (FileNotFoundError directory).

(** The characters of a string. *)
Definition chars (s : string) : list ascii := String.list_ascii_of_string s.

(** A name of the shape the image pattern describes:
    [<before>Miqus_<digits>_<after>.png], possibly followed by a newline. *)
Definition image_name (before digits after ending : string) : string :=
  before +:+ "Miqus_" +:+ digits +:+ "_" +:+ after +:+ ".png" +:+ ending.

(** A string of one decimal digit at least. *)
Definition decimal (digits : string) : Prop :=
  digits ≠ "" ∧ Forall (λ c, is_digit c = true) (chars digits).

Definition one_line (s : string) : Prop := newline ∉ chars s.

(** The number [sorted_image_files] sorts a file by, and the number the
    script looks its pose up by. *)
Definition sort_number (file : string) : option Z :=
  int <$> re_match IMAGE_PATTERN file.

Definition lookup_number (file : string) : option Z :=
  int <$> re_search NUMBER_PATTERN file.

(* ===================================================================== *)
(** * Proof tools *)
(* ===================================================================== *)

(** Equality of tuples, one component at a time. *)
Ltac componentwise :=
  repeat match goal with
         | |- (_, _) = (_, _) => apply pair_equal_spec; split
         end.

(** The pattern at hand has no opening parenthesis. *)
Ltac no_group :=
  let H := fresh in
  unfold literally; cbn; intros H;
  repeat (apply elem_of_cons in H as [H|H]; [discriminate H|]);
  by apply elem_of_nil in H.

(* ===================================================================== *)
(** * The registry *)
(* ===================================================================== *)

(** One model per name and per id: both dictionaries find every model of
    [CAMERA_MODELS] again, in whatever order the set is traversed. *)
Lemma CAMERA_MODEL_NAMES_lookup (camera_model : CameraModel) :
  camera_model ∈ CAMERA_MODELS →
  CAMERA_MODEL_NAMES !! model_name camera_model = Some camera_model.
Proof.
  unfold CAMERA_MODELS. intros H.
  repeat (apply elem_of_cons in H as [->|H]; [reflexivity|]).
  by apply elem_of_nil in H.
Qed.

Lemma CAMERA_MODEL_IDS_lookup (camera_model : CameraModel) :
  camera_model ∈ CAMERA_MODELS →
  CAMERA_MODEL_IDS !! model_id camera_model = Some camera_model.
Proof.
  unfold CAMERA_MODELS. intros H.
  repeat (apply elem_of_cons in H as [->|H]; [reflexivity|]).
  by apply elem_of_nil in H.
Qed.

Lemma CAMERA_MODEL_NAMES_registered (name : string) (camera_model : CameraModel) :
  CAMERA_MODEL_NAMES !! name = Some camera_model →
  camera_model ∈ CAMERA_MODELS ∧ model_name camera_model = name.
Proof.
  unfold CAMERA_MODEL_NAMES. intros H%elem_of_list_to_map_2.
  apply list_elem_of_fmap in H as (cm & [= -> ->] & Hcm). done.
Qed.

(* ===================================================================== *)
(** * The monads and the loop *)
(* ===================================================================== *)

Section Monads.
Context {A B : Type}.
Implicit Types (f : A → result B) (l : list A) (k : list B).

Lemma bind_Ok f (a : A) : Ok a ≫= f = f a.
Proof. reflexivity. Qed.

Lemma bind_Raise f (e : exn) : Raise e ≫= f = Raise e.
Proof. reflexivity. Qed.

Lemma mapM_result_cons f x l :
  mapM f (x :: l) = y ← f x; k ← mapM f l; Ok (y :: k).
Proof. reflexivity. Qed.

Lemma mapM_result_Ok f l k :
  Forall2 (λ x y, f x = Ok y) l k → mapM f l = Ok k.
Proof.
  induction 1 as [|x y l k Hx _ IH]; [done|].
  rewrite mapM_result_cons, Hx. cbn. rewrite IH. done.
Qed.

(** The first entry on which [f] raises decides the outcome. *)
Lemma mapM_result_Raise f l1 x l2 e :
  Forall (λ x, ∃ y, f x = Ok y) l1 → f x = Raise e →
  mapM f (l1 ++ x :: l2) = Raise e.
Proof.
  intros Hl1 Hx. induction Hl1 as [|x' l1 [y Hy] _ IH]; cbn [app].
  - rewrite mapM_result_cons, Hx. done.
  - rewrite mapM_result_cons, Hy. cbn. rewrite IH. done.
Qed.

End Monads.

Lemma mapM_result_Ok_inv {A B} (f : A → result B) (l : list A) (k : list B) :
  mapM f l = Ok k → Forall (λ x, ∃ y, f x = Ok y) l.
Proof.
  revert k. induction l as [|x l IH]; intros k Hk; [constructor|].
  rewrite mapM_result_cons in Hk.
  destruct (f x) as [y| |] eqn:Hx; try discriminate Hk.
  rewrite bind_Ok in Hk.
  destruct (mapM f l) as [k'| |] eqn:Hl; try discriminate Hk.
  constructor; [eauto|]. apply (IH k'). done.
Qed.

Lemma bind_Ok_inv {A B} (m : result A) (f : A → result B) (b : B) :
  m ≫= f = Ok b → ∃ a, m = Ok a ∧ f a = Ok b.
Proof. destruct m; try discriminate. cbn. eauto. Qed.

Lemma np_array_numbers (rs : list R) : np_array (JNum <$> rs) = Ok rs.
Proof.
  apply mapM_result_Ok. induction rs; constructor; done.
Qed.

(** A loop that ends normally has run its body to a normal end on every
    item. *)
Lemma for_enumerate_Ok_inv {S A} (body : Z → A → stateful S unit)
    (xs : list A) :
  ∀ idx s s',
  for_enumerate body idx xs s = (s', Ok tt) →
  Forall (λ x, ∃ idx' s1, (body idx' x s1).2 = Ok tt) xs.
Proof.
  induction xs as [|x xs IH]; intros idx s s' H; [constructor|].
  cbn in H. unfold st_bind in H.
  destruct (body idx x s) as [s1 [[]| |]] eqn:Hx; try discriminate H.
  constructor.
  - exists idx, s. rewrite Hx. done.
  - apply (IH _ _ _ H).
Qed.

Section Loop.
Context {A V : Type}.
Implicit Types (body : Z → A → stateful (gmap Z V) unit) (mk : Z → A → V).

(** A loop whose body stores [mk idx x] at [idx] for every item builds
    [fill mk]. *)
Lemma for_enumerate_fill body mk (xs : list A) :
  ∀ idx s,
  Forall (λ x, ∀ idx' s', body idx' x s' = (<[idx' := mk idx' x]> s', Ok tt)) xs →
  for_enumerate body idx xs s = (fill mk idx xs s, Ok tt).
Proof.
  induction xs as [|x xs IH]; intros idx s Hxs; [done|].
  inversion Hxs as [|? ? Hx Hrest]; subst.
  cbn. unfold st_bind. rewrite Hx. apply IH, Hrest.
Qed.

(** The loop stops at the first item on which the body raises; the
    dictionary then holds the records of the items before it. *)
Lemma for_enumerate_raise body mk (xs : list A) (x : A) (rest : list A) e :
  ∀ idx s,
  Forall (λ x, ∀ idx' s', body idx' x s' = (<[idx' := mk idx' x]> s', Ok tt)) xs →
  (∀ idx' s', body idx' x s' = (s', Raise e)) →
  for_enumerate body idx (xs ++ x :: rest) s = (fill mk idx xs s, Raise e).
Proof.
  induction xs as [|x' xs IH]; intros idx s Hxs Hx.
  - cbn. unfold st_bind. rewrite Hx. done.
  - inversion Hxs as [|? ? Hx' Hrest]; subst.
    cbn. unfold st_bind. rewrite Hx'. apply IH; done.
Qed.

Lemma lookup_fill mk (xs : list A) :
  ∀ idx s (k : Z),
  fill mk idx xs s !! k
  = if decide (idx ≤ k < idx + Z.of_nat (length xs))%Z
    then mk k <$> xs !! Z.to_nat (k - idx)
    else s !! k.
Proof.
  induction xs as [|x xs IH]; intros idx s k; cbn [fill length].
  - case_decide; [lia|done].
  - rewrite IH. destruct (decide (k = idx)) as [->|Hne].
    + rewrite !decide_False by lia. rewrite decide_True by lia.
      rewrite lookup_insert_eq, Z.sub_diag. done.
    + rewrite lookup_insert_ne by done.
      case_decide; case_decide; try lia; [|done].
      replace (Z.to_nat (k - idx)) with (S (Z.to_nat (k - (idx + 1)))) by lia.
      done.
Qed.

Lemma fill_keyed (ident : V → Z) mk (xs : list A) :
  (∀ idx x, ident (mk idx x) = idx) →
  keyed_1_to ident (length xs) (fill mk 1 xs ∅).
Proof.
  intros Hid.
  assert (Hlook : ∀ k : Z, is_Some (fill mk 1 xs ∅ !! k)
                            ↔ (1 ≤ k ≤ Z.of_nat (length xs))%Z).
  { intros k. rewrite lookup_fill. case_decide as Hk.
    - split; [lia|intros _]. rewrite fmap_is_Some.
      apply lookup_lt_is_Some. lia.
    - rewrite lookup_empty. split; [by intros [? ?]|lia]. }
  split; [|split; [exact Hlook|]].
  - transitivity (size (dom (fill mk 1 xs (∅ : gmap Z V)))).
    { symmetry. apply size_dom. }
    replace (dom (fill mk 1 xs (∅ : gmap Z V)))
      with (list_to_set (seqZ 1 (Z.of_nat (length xs))) : gset Z).
    { rewrite size_list_to_set by apply NoDup_seqZ. rewrite length_seqZ. lia. }
    apply set_eq. intros k.
    rewrite elem_of_list_to_set, elem_of_seqZ, elem_of_dom, Hlook. lia.
  - intros k v. rewrite lookup_fill. case_decide; [|by rewrite lookup_empty].
    destruct (xs !! _) as [x|]; [|done]. cbn. intros [= <-]. apply Hid.
Qed.

End Loop.

(* ===================================================================== *)
(** * Reading the fields of a camera element *)
(* ===================================================================== *)

Lemma number_at_Some (cam : json) (block k : string) (r : R) :
  number_at cam block k = Some r ↔
  ∃ c b, cam = JObj c ∧ c !! block = Some (JObj b) ∧ b !! k = Some (JNum r).
Proof.
  unfold number_at, field. split.
  - destruct cam as [| | | | |c]; try done. cbn.
    destruct (c !! block) as [[| | | | |b]|] eqn:Hb; try done. cbn.
    destruct (b !! k) as [[]|] eqn:Hk; try done. intros [= ->]. eauto.
  - intros (c & b & -> & Hb & Hk). cbn. rewrite Hb. cbn. rewrite Hk. done.
Qed.

Lemma getitem2_number (cam : json) (block k : string) (r : R) :
  number_at cam block k = Some r → getitem2 cam block k = Ok (JNum r).
Proof.
  intros (c & b & -> & Hb & Hk)%number_at_Some.
  unfold getitem2. cbn. rewrite Hb. cbn. rewrite Hk. done.
Qed.

(** Looking up keys that all hold numbers, then [np.array]. *)
Lemma getitem2_numbers (cam : json) (block : string) (keys : list string) :
  has_numbers cam block keys →
  ∃ rs, mapM (number_at cam block) keys = Some rs
        ∧ (vs ← mapM (getitem2 cam block) keys; np_array vs) = Ok rs.
Proof.
  intros Hkeys.
  destruct (mapM_is_Some_2 (number_at cam block) keys Hkeys) as [rs Hrs].
  exists rs. split; [done|].
  rewrite (mapM_result_Ok _ _ (JNum <$> rs)).
  - cbn. apply np_array_numbers.
  - apply mapM_Some_1 in Hrs.
    induction Hrs as [|k r keys' rs' Hk _ IH]; cbn; constructor.
    + apply getitem2_number, Hk.
    + apply IH. by inversion Hkeys.
Qed.

Lemma has_numbers_app (cam : json) (block : string) (ks1 ks2 : list string) :
  has_numbers cam block (ks1 ++ ks2) ↔
  has_numbers cam block ks1 ∧ has_numbers cam block ks2.
Proof. apply Forall_app. Qed.

(* ===================================================================== *)
(** * [read_intrinsics_json] *)
(* ===================================================================== *)

Lemma intrinsics_params_OPENCV (cam : json) :
  has_numbers cam "Intrinsic" OPENCV_KEYS →
  ∃ rs, mapM (number_at cam "Intrinsic") OPENCV_KEYS = Some rs
        ∧ intrinsics_params "OPENCV" cam = Ok rs.
Proof.
  intros H. unfold intrinsics_params. rewrite decide_True by done.
  apply getitem2_numbers, H.
Qed.

Lemma intrinsics_params_PINHOLE (cam : json) :
  has_numbers cam "Intrinsic" PINHOLE_KEYS →
  ∃ rs, mapM (number_at cam "Intrinsic") PINHOLE_KEYS = Some rs
        ∧ intrinsics_params "PINHOLE" cam = Ok rs.
Proof.
  intros H. unfold intrinsics_params.
  rewrite decide_False, decide_True by done.
  apply getitem2_numbers, H.
Qed.

Lemma intrinsics_params_other (camera_model_type : string) (cam : json) :
  camera_model_type ≠ "OPENCV" → camera_model_type ≠ "PINHOLE" →
  intrinsics_params camera_model_type cam = Ok [].
Proof.
  intros H1 H2. unfold intrinsics_params.
  rewrite !decide_False by done. done.
Qed.

Lemma intrinsics_params_well_formed (camera_model_type : string) (cam : json) :
  well_formed_camera cam →
  ∃ rs, intrinsics_params camera_model_type cam = Ok rs.
Proof.
  intros (_ & Hi & _).
  destruct (decide (camera_model_type = "OPENCV")) as [->|H1].
  { destruct (intrinsics_params_OPENCV cam Hi) as (rs & _ & ->). eauto. }
  destruct (decide (camera_model_type = "PINHOLE")) as [->|H2].
  { destruct (intrinsics_params_PINHOLE cam) as (rs & _ & ->); [|eauto].
    unfold has_numbers, PINHOLE_KEYS in *. rewrite !Forall_cons in Hi.
    rewrite !Forall_cons. tauto. }
  rewrite intrinsics_params_other by done. eauto.
Qed.

Lemma intrinsics_body_well_formed (camera_model_type : string) (model_id : Z)
    (cam : json) :
  well_formed_camera cam →
  ∀ idx s, intrinsics_body camera_model_type model_id idx cam s
           = (<[idx := camera_of camera_model_type model_id idx cam]> s, Ok tt).
Proof.
  intros Hwf idx s.
  destruct (intrinsics_params_well_formed camera_model_type cam Hwf) as [ps Hps].
  destruct Hwf as (Hfov & _ & _).
  unfold has_numbers in Hfov. rewrite !Forall_cons in Hfov.
  destruct Hfov as ([w Hw] & [h Hh] & _).
  apply getitem2_number in Hw, Hh.
  unfold intrinsics_body, camera_of, st_bind, st_lift, st_modify.
  rewrite Hw, Hh, Hps. done.
Qed.

Lemma getitem_field (o : json) (k : string) (v : json) :
  field o k = Some v → getitem o k = Ok v.
Proof. destruct o; try done. cbn. intros ->. done. Qed.

(** On a well-formed document and a registered model the parser returns
    the record of every element, in order. *)
Lemma read_intrinsics_json_well_formed (fs : filesystem) (path : string)
    (data : json) (camera_model_type : string) (camera_model : CameraModel) :
  fs path = Holds data → well_formed_document data →
  CAMERA_MODEL_NAMES !! camera_model_type = Some camera_model →
  read_intrinsics_json fs path camera_model_type
  = Ok (fill (camera_of camera_model_type (model_id camera_model)) 1
          (Cameras_of data) ∅).
Proof.
  intros Hfs [Hcams Hwf] Hreg.
  unfold read_intrinsics_json, load. rewrite Hfs, bind_Ok, Hreg.
  rewrite (getitem_field _ _ _ Hcams), bind_Ok. unfold iter. rewrite bind_Ok.
  rewrite (for_enumerate_fill _ (camera_of camera_model_type (model_id camera_model)));
    [done|].
  eapply Forall_impl; [exact Hwf|]. intros cam Hcam.
  apply intrinsics_body_well_formed, Hcam.
Qed.

Lemma lookup_fill_1 {A V} (mk : Z → A → V) (xs : list A) (i : nat) (x : A) :
  xs !! i = Some x →
  fill mk 1 xs ∅ !! (Z.of_nat i + 1)%Z = Some (mk (Z.of_nat i + 1)%Z x).
Proof.
  intros Hx. rewrite lookup_fill.
  pose proof (lookup_lt_Some _ _ _ Hx).
  rewrite decide_True by lia.
  replace (Z.to_nat (Z.of_nat i + 1 - 1)) with i by lia.
  rewrite Hx. done.
Qed.

Lemma lookup_fill_1_inv {A V} (mk : Z → A → V) (xs : list A) (k : Z) (v : V) :
  fill mk 1 xs ∅ !! k = Some v →
  ∃ x, xs !! Z.to_nat (k - 1) = Some x ∧ v = mk k x.
Proof.
  rewrite lookup_fill. case_decide; [|by rewrite lookup_empty].
  destruct (xs !! _) as [x|]; [|done]. cbn. intros [= <-]. eauto.
Qed.

(* ===================================================================== *)
(** * [read_extrinsics_json] *)
(* ===================================================================== *)

Lemma extrinsics_tvec_numbers (cam : json) :
  has_numbers cam "Transform" TRANSLATION_KEYS →
  ∃ rs, mapM (number_at cam "Transform") TRANSLATION_KEYS = Some rs
        ∧ extrinsics_tvec cam = Ok rs.
Proof. apply getitem2_numbers. Qed.

Lemma extrinsics_R_numbers (cam : json) :
  has_numbers cam "Transform" ROTATION_KEYS →
  ∃ r11 r12 r13 r21 r22 r23 r31 r32 r33,
    mapM (number_at cam "Transform") ROTATION_KEYS
    = Some [r11; r12; r13; r21; r22; r23; r31; r32; r33]
    ∧ extrinsics_R cam = Ok ((r11, r12, r13), (r21, r22, r23), (r31, r32, r33)).
Proof.
  intros H.
  destruct (mapM_is_Some_2 (number_at cam "Transform") ROTATION_KEYS H)
    as [rs Hrs].
  pose proof (length_mapM _ _ _ Hrs) as Hlen.
  destruct rs as [|r11 [|r12 [|r13 [|r21 [|r22 [|r23 [|r31 [|r32 [|r33 [|]]]]]]]]]];
    try discriminate Hlen.
  exists r11, r12, r13, r21, r22, r23, r31, r32, r33. split; [done|].
  unfold extrinsics_R.
  rewrite (mapM_result_Ok _ _
             (JNum <$> [r11; r12; r13; r21; r22; r23; r31; r32; r33])).
  - rewrite bind_Ok. unfold np_array_3x3. rewrite np_array_numbers. done.
  - apply mapM_Some_1 in Hrs. clear -Hrs.
    induction Hrs; cbn; constructor; [by apply getitem2_number|done].
Qed.

Lemma moderate_true (r : R) : (Rabs r < ENTRY_LIMIT)%R ↔ moderate r = true.
Proof. unfold moderate. by destruct (Rlt_dec _ _). Qed.

Lemma forallb_moderate (rs : list R) :
  Forall (λ r, (Rabs r < ENTRY_LIMIT)%R) rs ↔ forallb moderate rs = true.
Proof.
  induction rs as [|r rs IH]; cbn [forallb]; [done|].
  rewrite Forall_cons, andb_true_iff, IH, moderate_true. done.
Qed.

(** The entries read for [R] are those the document holds at the rotation
    keys. *)
Lemma moderate_rotation_entries (cam : json) (keys : list string)
    (rs : list R) :
  (∀ k r, k ∈ keys → number_at cam "Transform" k = Some r →
          (Rabs r < ENTRY_LIMIT)%R) →
  mapM (number_at cam "Transform") keys = Some rs →
  Forall (λ r, (Rabs r < ENTRY_LIMIT)%R) rs.
Proof.
  intros Hmod Hrs%mapM_Some_1.
  induction Hrs as [|k r keys' rs' Hk _ IH]; constructor.
  - apply (Hmod k); [apply list_elem_of_here|done].
  - apply IH. intros k' r' Hin. apply Hmod, list_elem_of_further, Hin.
Qed.

(** The entries of a rotation matrix are moderate: none exceeds 1 in
    absolute value. *)
Lemma rotation_moderate (cam : json) (a b c d e f g h i : R) :
  mapM (number_at cam "Transform") ROTATION_KEYS
  = Some [a; b; c; d; e; f; g; h; i] →
  rotation ((a, b, c), (d, e, f), (g, h, i)) →
  moderate_rotation cam.
Proof.
  intros Hrs%mapM_Some_1 [Horth _]. unfold ROTATION_KEYS in Hrs.
  repeat (apply Forall2_cons_1 in Hrs as [? Hrs]).
  unfold m3_mul, m3_transpose, m3_id in Horth.
  injection Horth as E1 _ _ _ E2 _ _ _ E3.
  intros k r Hk Hr. unfold ROTATION_KEYS in Hk. unfold ENTRY_LIMIT.
  repeat (apply elem_of_cons in Hk as [->|Hk]);
    [..|by apply elem_of_nil in Hk];
    match goal with
    | H : number_at cam "Transform" ?key = Some ?x,
      Hr : number_at cam "Transform" ?key = Some r |- _ =>
        rewrite H in Hr; injection Hr as <-
    end;
    apply Rabs_def1; nra.
Qed.

Section ExtrinsicsFacts.
Variable eigh : M4 → V4 * M4.

Lemma extrinsics_qvec_moderate (Rm : M3) :
  Forall (λ r, (Rabs r < ENTRY_LIMIT)%R) (m3_entries Rm) →
  extrinsics_qvec eigh Rm = Ok (rotmat2qvec eigh Rm).
Proof.
  intros H%forallb_moderate. unfold extrinsics_qvec. by rewrite H.
Qed.

Lemma extrinsics_qvec_Ok_inv (Rm : M3) (qvec : V4) :
  extrinsics_qvec eigh Rm = Ok qvec →
  qvec = rotmat2qvec eigh Rm
  ∧ Forall (λ r, (Rabs r < ENTRY_LIMIT)%R) (m3_entries Rm).
Proof.
  unfold extrinsics_qvec.
  destruct (forallb moderate (m3_entries Rm)) eqn:H; [|done].
  intros [= <-]. split; [done|]. by apply forallb_moderate.
Qed.

Lemma extrinsics_body_numbers (cam : json) :
  has_numbers cam "Transform" TRANSFORM_KEYS → moderate_rotation cam →
  ∀ idx s, extrinsics_body eigh idx cam s
           = (<[idx := image_of eigh idx cam]> s, Ok tt).
Proof.
  intros H Hmod idx s.
  change TRANSFORM_KEYS with (TRANSLATION_KEYS ++ ROTATION_KEYS) in H.
  apply has_numbers_app in H as [Ht Hr].
  destruct (extrinsics_tvec_numbers cam Ht) as (tvec & _ & Htvec).
  destruct (extrinsics_R_numbers cam Hr)
    as (r11 & r12 & r13 & r21 & r22 & r23 & r31 & r32 & r33 & Hrs & HR).
  unfold extrinsics_body, image_of, st_bind, st_lift, st_modify.
  rewrite Htvec, HR. cbn [from_ok].
  rewrite extrinsics_qvec_moderate; [done|].
  apply (moderate_rotation_entries cam ROTATION_KEYS); done.
Qed.

(** A missing key ends the iteration with [KeyError], the dictionary
    untouched. *)
Lemma extrinsics_body_missing (cam : json) (k : string) :
  first_missing_key cam k →
  ∀ idx s, extrinsics_body eigh idx cam s = (s, Raise (KeyError k)).
Proof.
  intros Hmiss idx s.
  unfold extrinsics_body, st_bind, st_lift.
  destruct Hmiss as [(c & -> & Hnone & ->)
                    |(c & t & before & after & -> & Ht & Hkeys & Hnum & Hk)].
  - unfold extrinsics_tvec.
    rewrite (mapM_result_Raise _ [] "x" ["y"; "z"] (KeyError "Transform"));
      [done|constructor|].
    unfold getitem2. cbn. rewrite Hnone. done.
  - assert (Hraise : getitem2 (JObj c) "Transform" k = Raise (KeyError k)).
    { unfold getitem2. cbn. rewrite Ht. cbn. rewrite Hk. done. }
    assert (Hbefore : Forall (λ x, ∃ y, getitem2 (JObj c) "Transform" x = Ok y)
                        before).
    { eapply Forall_impl; [exact Hnum|]. intros x [r Hr].
      apply getitem2_number in Hr. eauto. }
    change TRANSFORM_KEYS with (TRANSLATION_KEYS ++ ROTATION_KEYS) in Hkeys.
    apply app_eq_app in Hkeys as [l [[Hl1 Hl2]|[Hl1 Hl2]]].
    + (* the key is read for [R] *)
      destruct l as [|k' l].
      * rewrite app_nil_r in Hl1. subst before. cbn in Hl2.
        destruct (extrinsics_tvec_numbers (JObj c) Hnum) as (tvec & _ & ->).
        unfold extrinsics_R. rewrite <- Hl2.
        rewrite (mapM_result_Raise _ [] k after (KeyError k));
          [done|constructor|done].
      * injection Hl2 as <- Hl2. unfold extrinsics_tvec. rewrite Hl1.
        rewrite (mapM_result_Raise _ before k l (KeyError k)); done.
    + subst before. apply has_numbers_app in Hnum as [Hnt Hnl].
      apply Forall_app in Hbefore as [_ Hbl].
      destruct (extrinsics_tvec_numbers (JObj c) Hnt) as (tvec & _ & ->).
      unfold extrinsics_R. rewrite Hl2.
      rewrite (mapM_result_Raise _ l k after (KeyError k)); done.
Qed.

Lemma read_extrinsics_json_numbers (fs : filesystem) (path : string)
    (data : json) (cams : list json) :
  fs path = Holds data → field data "Cameras" = Some (JArr cams) →
  Forall (λ cam, has_numbers cam "Transform" TRANSFORM_KEYS
                 ∧ moderate_rotation cam) cams →
  read_extrinsics_json eigh fs path = Ok (fill (image_of eigh) 1 cams ∅).
Proof.
  intros Hfs Hcams Hnum.
  unfold read_extrinsics_json, extrinsics_loop, load.
  rewrite Hfs, bind_Ok, (getitem_field _ _ _ Hcams), bind_Ok.
  unfold iter. rewrite !bind_Ok.
  rewrite (for_enumerate_fill _ (image_of eigh)); [done|].
  eapply Forall_impl; [exact Hnum|]. intros cam [Hcam Hmod].
  by apply extrinsics_body_numbers.
Qed.

(** The loop stops at the first element that lacks a key, holding what the
    elements before it gave. *)
Lemma extrinsics_loop_missing (data : json) (good : list json) (bad : json)
    (rest : list json) (k : string) :
  field data "Cameras" = Some (JArr (good ++ bad :: rest)) →
  Forall (λ cam, has_numbers cam "Transform" TRANSFORM_KEYS
                 ∧ moderate_rotation cam) good →
  first_missing_key bad k →
  extrinsics_loop eigh data
  = Ok (fill (image_of eigh) 1 good ∅, Raise (KeyError k)).
Proof.
  intros Hcams Hgood Hbad. unfold extrinsics_loop.
  rewrite (getitem_field _ _ _ Hcams), bind_Ok. unfold iter.
  rewrite bind_Ok. f_equal.
  apply for_enumerate_raise.
  - eapply Forall_impl; [exact Hgood|]. intros cam [Hcam Hmod].
    by apply extrinsics_body_numbers.
  - apply extrinsics_body_missing, Hbad.
Qed.


End ExtrinsicsFacts.

(* ===================================================================== *)
(** * Rotation converters: properties *)
(* ===================================================================== *)

Section RotationFacts.
Local Open Scope R_scope.

(** ** Small facts about vectors and [argmax] *)

Lemma v4_times_minus_one (v : V4) : v4_map (λ x, x * -1) v = v4_opp v.
Proof.
  destruct v as [[[a b] c] d]. unfold v4_opp. cbn.
  componentwise; ring.
Qed.

Lemma v4_norm2_opp (v : V4) : v4_norm2 (v4_opp v) = v4_norm2 v.
Proof. destruct v as [[[a b] c] d]. cbn. ring. Qed.

Lemma v4_norm2_nonneg (v : V4) : 0 <= v4_norm2 v.
Proof. destruct v as [[[a b] c] d]. cbn. nra. Qed.

Lemma unit_nonzero (v : V4) : v4_norm2 v = 1 → v ≠ (0, 0, 0, 0).
Proof. intros Hn ->. cbn in Hn. lra. Qed.

Lemma unit_quaternion_norm2 (q : V4) : unit_quaternion q ↔ v4_norm2 q = 1.
Proof.
  unfold unit_quaternion, v4_norm. split; intros H.
  - rewrite <- (sqrt_sqrt (v4_norm2 q)) by apply v4_norm2_nonneg.
    rewrite H. ring.
  - rewrite H. apply sqrt_1.
Qed.

Lemma v4_close_refl (eps : R) (v : V4) : 0 <= eps → v4_close eps v v.
Proof.
  intros Heps. destruct v as [[[a b] c] d]. cbn.
  rewrite !Rminus_diag, Rabs_R0. repeat split; exact Heps.
Qed.

Lemma m3_close_refl (eps : R) (A : M3) : 0 <= eps → m3_close eps A A.
Proof.
  intros Heps. destruct A as [[[[a b] c] [[d e] f]] [[g h] i]]. cbn.
  rewrite !Rminus_diag, Rabs_R0. repeat split; exact Heps.
Qed.

Lemma tolerance_nonneg : 0 <= tolerance.
Proof. unfold tolerance. lra. Qed.

Lemma argmax_lt (v : V4) : (argmax v < 4)%nat.
Proof. unfold argmax. repeat destruct (Rlt_dec _ _); lia. Qed.

Lemma argmax_max (v : V4) (j : nat) :
  (j < 4)%nat → v4_get v j <= v4_get v (argmax v).
Proof.
  destruct v as [[[a b] c] d]. intros Hj. unfold argmax.
  destruct j as [|[|[|[|j]]]]; [| | | |lia]; cbn;
    repeat (destruct (Rlt_dec _ _); cbn in * ); lra.
Qed.

Lemma select_eigvec_norm2 (m : M4) (j : nat) :
  v4_norm2 (select_eigvec m j) = v4_norm2 (m4_col m j).
Proof. unfold select_eigvec, m4_col, v4_norm2. ring. Qed.

(** ** [qvec2rotmat] *)

Lemma qvec2rotmat_opp (q : V4) : qvec2rotmat (v4_opp q) = qvec2rotmat q.
Proof.
  destruct q as [[[w x] y] z]. unfold qvec2rotmat. cbn.
  componentwise; ring.
Qed.

Lemma qvec2rotmat_rotation (q : V4) :
  v4_norm2 q = 1 → rotation (qvec2rotmat q).
Proof.
  destruct q as [[[w x] y] z]. cbn. intros Hn.
  split; [unfold m3_id|]; cbn; componentwise; nsatz.
Qed.

End RotationFacts.
(** ** A symmetric 4x4 matrix [m] with [m * m = 4 m] and trace 4

    Such a matrix is four times the projection on a line: its eigenvalues
    are 0 and 4, the eigenvalue 4 is attained, and [m = 4 v v^T] for a unit
    eigenvector [v] of the eigenvalue 4. *)

Section ScaledProjection.
Local Open Scope R_scope.
Variables mxx myy mzz mww mxy mxz myz mxw myw mzw : R.
Hypothesis I1 : mxx*mxx + mxy*mxy + mxz*mxz + mxw*mxw = 4*mxx.
Hypothesis I2 : mxx*mxy + mxy*myy + mxz*myz + mxw*myw = 4*mxy.
Hypothesis I3 : mxx*mxz + mxy*myz + mxz*mzz + mxw*mzw = 4*mxz.
Hypothesis I4 : mxx*mxw + mxy*myw + mxz*mzw + mxw*mww = 4*mxw.
Hypothesis I5 : mxy*mxy + myy*myy + myz*myz + myw*myw = 4*myy.
Hypothesis I6 : mxy*mxz + myy*myz + myz*mzz + myw*mzw = 4*myz.
Hypothesis I7 : mxy*mxw + myy*myw + myz*mzw + myw*mww = 4*myw.
Hypothesis I8 : mxz*mxz + myz*myz + mzz*mzz + mzw*mzw = 4*mzz.
Hypothesis I9 : mxz*mxw + myz*myw + mzz*mzw + mzw*mww = 4*mzw.
Hypothesis I10 : mxw*mxw + myw*myw + mzw*mzw + mww*mww = 4*mww.
Hypothesis Htr : mxx + myy + mzz + mww = 4.

Local Abbreviation m :=
  ((mxx, mxy, mxz, mxw), (mxy, myy, myz, myw),
   (mxz, myz, mzz, mzw), (mxw, myw, mzw, mww)).

Lemma projection_fixed_vector :
  ∃ u : V4, u ≠ (0, 0, 0, 0) ∧ m4_mulv m u = v4_scale 4 u.
Proof using All.
  destruct (Req_dec mxx 0) as [Hx|Hx].
  2: { exists (mxx, mxy, mxz, mxw). split; [congruence|].
       cbn. componentwise; lra. }
  destruct (Req_dec myy 0) as [Hy|Hy].
  2: { exists (mxy, myy, myz, myw). split; [congruence|].
       cbn. componentwise; lra. }
  destruct (Req_dec mzz 0) as [Hz|Hz].
  2: { exists (mxz, myz, mzz, mzw). split; [congruence|].
       cbn. componentwise; lra. }
  exists (mxw, myw, mzw, mww). split.
  - intros Heq. injection Heq as _ _ _ Hw. lra.
  - cbn. componentwise; lra.
Qed.

(** The eigenvalues of [m] are 0 and 4. *)
Lemma projection_eigenvalue (x y z w mu : R) :
  m4_mulv m (x, y, z, w) = v4_scale mu (x, y, z, w) →
  (x, y, z, w) ≠ (0, 0, 0, 0) →
  mu = 0 ∨ mu = 4.
Proof using All.
  intros E Hu. injection E as E1 E2 E3 E4.
  set (n := x * x + y * y + z * z + w * w).
  assert (Hn : n ≠ 0).
  { intros Hn. apply Hu. unfold n in Hn.
    assert (x = 0) by nra. assert (y = 0) by nra.
    assert (z = 0) by nra. assert (w = 0) by nra. congruence. }
  assert (Hsq : mu * mu * n = 4 * mu * n).
  { transitivity ((mu*x)*(mu*x) + (mu*y)*(mu*y) + (mu*z)*(mu*z) + (mu*w)*(mu*w));
      [unfold n; ring|].
    rewrite <- E1, <- E2, <- E3, <- E4.
    transitivity
      (x*x*(mxx*mxx + mxy*mxy + mxz*mxz + mxw*mxw)
       + 2*x*y*(mxx*mxy + mxy*myy + mxz*myz + mxw*myw)
       + 2*x*z*(mxx*mxz + mxy*myz + mxz*mzz + mxw*mzw)
       + 2*x*w*(mxx*mxw + mxy*myw + mxz*mzw + mxw*mww)
       + y*y*(mxy*mxy + myy*myy + myz*myz + myw*myw)
       + 2*y*z*(mxy*mxz + myy*myz + myz*mzz + myw*mzw)
       + 2*y*w*(mxy*mxw + myy*myw + myz*mzw + myw*mww)
       + z*z*(mxz*mxz + myz*myz + mzz*mzz + mzw*mzw)
       + 2*z*w*(mxz*mxw + myz*myw + mzz*mzw + mzw*mww)
       + w*w*(mxw*mxw + myw*myw + mzw*mzw + mww*mww)); [ring|].
    rewrite I1, I2, I3, I4, I5, I6, I7, I8, I9, I10.
    transitivity
      (4 * (x * (mxx * x + mxy * y + mxz * z + mxw * w)
            + y * (mxy * x + myy * y + myz * z + myw * w)
            + z * (mxz * x + myz * y + mzz * z + mzw * w)
            + w * (mxw * x + myw * y + mzw * z + mww * w))); [ring|].
    rewrite E1, E2, E3, E4. unfold n. ring. }
  destruct (Rmult_integral mu (mu - 4)) as [H|H]; [|auto|right; lra].
  apply (Rmult_eq_reg_r n); [|exact Hn].
  rewrite Rmult_0_l, Rmult_minus_distr_l, Rmult_minus_distr_r, Hsq. ring.
Qed.

Section Eigenvector.
Variables x y z w mu : R.
Hypothesis E : m4_mulv m (x, y, z, w) = v4_scale mu (x, y, z, w).
Hypothesis Hn : x * x + y * y + z * z + w * w = 1.
Hypothesis Hmu : mu = 4.

Lemma projection_distance :
  (mxx - 4*x*x)^2 + (myy - 4*y*y)^2 + (mzz - 4*z*z)^2 + (mww - 4*w*w)^2
  + 2*(mxy - 4*x*y)^2 + 2*(mxz - 4*x*z)^2 + 2*(myz - 4*y*z)^2
  + 2*(mxw - 4*x*w)^2 + 2*(myw - 4*y*w)^2 + 2*(mzw - 4*z*w)^2 = 0.
Proof using All.
  injection E as E1 E2 E3 E4. subst mu.
  transitivity
    ((mxx*mxx + mxy*mxy + mxz*mxz + mxw*mxw)
     + (mxy*mxy + myy*myy + myz*myz + myw*myw)
     + (mxz*mxz + myz*myz + mzz*mzz + mzw*mzw)
     + (mxw*mxw + myw*myw + mzw*mzw + mww*mww)
     - 8 * (x * (mxx * x + mxy * y + mxz * z + mxw * w)
            + y * (mxy * x + myy * y + myz * z + myw * w)
            + z * (mxz * x + myz * y + mzz * z + mzw * w)
            + w * (mxw * x + myw * y + mzw * z + mww * w))
     + 16 * (x * x + y * y + z * z + w * w) * (x * x + y * y + z * z + w * w));
    [ring|].
  rewrite I1, I5, I8, I10, E1, E2, E3, E4.
  transitivity
    (4 * (mxx + myy + mzz + mww) - 32 * (x * x + y * y + z * z + w * w)
     + 16 * (x * x + y * y + z * z + w * w) * (x * x + y * y + z * z + w * w));
    [ring|].
  rewrite Htr, Hn. ring.
Qed.

Lemma projection_rank_one :
  mxx = 4*x*x ∧ myy = 4*y*y ∧ mzz = 4*z*z ∧ mww = 4*w*w
  ∧ mxy = 4*x*y ∧ mxz = 4*x*z ∧ myz = 4*y*z
  ∧ mxw = 4*x*w ∧ myw = 4*y*w ∧ mzw = 4*z*w.
Proof using All.
  pose proof projection_distance as S.
  assert (sq0 : ∀ t, t ^ 2 <= 0 → t = 0) by (intros; nra).
  pose proof (pow2_ge_0 (mxx - 4*x*x)). pose proof (pow2_ge_0 (myy - 4*y*y)).
  pose proof (pow2_ge_0 (mzz - 4*z*z)). pose proof (pow2_ge_0 (mww - 4*w*w)).
  pose proof (pow2_ge_0 (mxy - 4*x*y)). pose proof (pow2_ge_0 (mxz - 4*x*z)).
  pose proof (pow2_ge_0 (myz - 4*y*z)). pose proof (pow2_ge_0 (mxw - 4*x*w)).
  pose proof (pow2_ge_0 (myw - 4*y*w)). pose proof (pow2_ge_0 (mzw - 4*z*w)).
  repeat split; apply Rminus_diag_uniq, sq0; lra.
Qed.

End Eigenvector.
End ScaledProjection.

(** ** The matrix [K] of a rotation matrix *)

Section RotationMatrix.
Local Open Scope R_scope.
Variables a b c d e f g h i : R.
Hypothesis Hrot : rotation ((a, b, c), (d, e, f), (g, h, i)).

Local Abbreviation Rm := ((a, b, c), (d, e, f), (g, h, i)).

Lemma rotation_equations :
  a*a + d*d + g*g = 1 ∧ a*b + d*e + g*h = 0 ∧ a*c + d*f + g*i = 0
  ∧ b*b + e*e + h*h = 1 ∧ b*c + e*f + h*i = 0 ∧ c*c + f*f + i*i = 1
  ∧ a = e * i - f * h ∧ b = f * g - d * i ∧ c = d * h - e * g
  ∧ d = c * h - b * i ∧ e = a * i - c * g ∧ f = b * g - a * h
  ∧ g = b * f - c * e ∧ h = c * d - a * f ∧ i = a * e - b * d.
Proof using Hrot.
  destruct Hrot as [Ho Hd]. cbn in Ho, Hd.
  injection Ho as H1 H2 H3 H4 H5 H6 H7 H8 H9.
  repeat split; nsatz.
Qed.

(** [3 K + 1], symmetrized from the lower triangle, as [eigh] reads it. *)
Local Abbreviation m :=
  ((1 + a - e - i, b + d, c + g, h - f),
   (b + d, 1 + e - a - i, f + h, c - g),
   (c + g, f + h, 1 + i - a - e, d - b),
   (h - f, c - g, d - b, 1 + a + e + i)).

Lemma K_eigen_shift (u : V4) (ev : R) :
  m4_mulv (sym_lower (rotmat2qvec_K Rm)) u = v4_scale ev u
  ↔ m4_mulv m u = v4_scale (3 * ev + 1) u.
Proof.
  destruct u as [[[x y] z] w]. cbn.
  split; intros E; injection E as E1 E2 E3 E4; componentwise; lra.
Qed.

Lemma rotation_projection :
  let mxx := 1 + a - e - i in let myy := 1 + e - a - i in
  let mzz := 1 + i - a - e in let mww := 1 + a + e + i in
  let mxy := b + d in let mxz := c + g in let myz := f + h in
  let mxw := h - f in let myw := c - g in let mzw := d - b in
  (mxx*mxx + mxy*mxy + mxz*mxz + mxw*mxw = 4*mxx
   ∧ mxx*mxy + mxy*myy + mxz*myz + mxw*myw = 4*mxy
   ∧ mxx*mxz + mxy*myz + mxz*mzz + mxw*mzw = 4*mxz
   ∧ mxx*mxw + mxy*myw + mxz*mzw + mxw*mww = 4*mxw
   ∧ mxy*mxy + myy*myy + myz*myz + myw*myw = 4*myy)
  ∧ (mxy*mxz + myy*myz + myz*mzz + myw*mzw = 4*myz
     ∧ mxy*mxw + myy*myw + myz*mzw + myw*mww = 4*myw
     ∧ mxz*mxz + myz*myz + mzz*mzz + mzw*mzw = 4*mzz
     ∧ mxz*mxw + myz*myw + mzz*mzw + mzw*mww = 4*mzw
     ∧ mxw*mxw + myw*myw + mzw*mzw + mww*mww = 4*mww)
  ∧ mxx + myy + mzz + mww = 4.
Proof using Hrot.
  destruct rotation_equations
    as (H1&H2&H3&H4&H5&H6&C1&C2&C3&C4&C5&C6&C7&C8&C9).
  cbv zeta. repeat split; nsatz.
Qed.

Lemma K_has_eigenvalue_one :
  ∃ u : V4, u ≠ (0, 0, 0, 0)
    ∧ m4_mulv (sym_lower (rotmat2qvec_K Rm)) u = v4_scale 1 u.
Proof using Hrot.
  destruct rotation_projection
    as ((I1&I2&I3&I4&I5) & (I6&I7&I8&I9&I10) & Htr).
  destruct (projection_fixed_vector _ _ _ _ _ _ _ _ _ _
              I1 I2 I3 I4 I5 I6 I7 I8 I9 I10 Htr) as (u & Hu & E).
  exists u. split; [done|]. apply K_eigen_shift.
  replace (3 * 1 + 1) with 4 by ring. done.
Qed.

(** The eigenvalues of [K] are -1/3 and 1. *)
Lemma K_spectrum (u : V4) (ev : R) :
  u ≠ (0, 0, 0, 0) →
  m4_mulv (sym_lower (rotmat2qvec_K Rm)) u = v4_scale ev u →
  ev = - (1 / 3) ∨ ev = 1.
Proof using Hrot.
  intros Hu E. destruct u as [[[x y] z] w].
  destruct rotation_projection
    as ((I1&I2&I3&I4&I5) & (I6&I7&I8&I9&I10) & Htr).
  destruct (projection_eigenvalue _ _ _ _ _ _ _ _ _ _
              I1 I2 I3 I4 I5 I6 I7 I8 I9 I10 Htr x y z w (3 * ev + 1)
              (proj1 (K_eigen_shift _ _) E) Hu); [left|right]; lra.
Qed.

Section TopEigenvector.
Variables x y z w ev : R.
Hypothesis E :
  m4_mulv (sym_lower (rotmat2qvec_K Rm)) (x, y, z, w)
  = v4_scale ev (x, y, z, w).
Hypothesis Hn : v4_norm2 (x, y, z, w) = 1.
Hypothesis Hev : ev = 1.

Lemma K_top_eigenvector_matrix : qvec2rotmat (w, x, y, z) = Rm.
Proof using All.
  destruct rotation_projection
    as ((I1&I2&I3&I4&I5) & (I6&I7&I8&I9&I10) & Htr).
  assert (Hn' : x * x + y * y + z * z + w * w = 1) by (cbn in Hn; lra).
  assert (Hmu : 3 * ev + 1 = 4) by lra.
  destruct (projection_rank_one _ _ _ _ _ _ _ _ _ _
              I1 I2 I3 I4 I5 I6 I7 I8 I9 I10 Htr x y z w (3 * ev + 1)
              (proj1 (K_eigen_shift _ _) E) Hn' Hmu)
    as (Pxx&Pyy&Pzz&Pww&Pxy&Pxz&Pyz&Pxw&Pyw&Pzw).
  unfold qvec2rotmat. cbn. componentwise; lra.
Qed.

End TopEigenvector.
End RotationMatrix.

(** ** [rotmat2qvec] *)

Section Rotmat2qvec.
Local Open Scope R_scope.
Variable eigh : M4 → V4 * M4.

(** The eigenvector picked by [rotmat2qvec], before the sign is fixed. *)
Local Abbreviation selected A :=
  (select_eigvec (eigh (rotmat2qvec_K A)).2
     (argmax (eigh (rotmat2qvec_K A)).1)).

Lemma rotmat2qvec_unfold (A : M3) :
  rotmat2qvec eigh A
  = if Rlt_dec (v4_get (selected A) 0) 0
    then v4_opp (selected A) else selected A.
Proof.
  unfold rotmat2qvec. destruct (eigh (rotmat2qvec_K A)) as [vals vecs].
  cbn [fst snd]. destruct (Rlt_dec _ _); [apply v4_times_minus_one|done].
Qed.

Lemma rotmat2qvec_first_nonneg (A : M3) : 0 <= v4_get (rotmat2qvec eigh A) 0.
Proof.
  rewrite rotmat2qvec_unfold.
  destruct (Rlt_dec _ _) as [Hneg|Hpos]; [|lra].
  destruct (selected A) as [[[w x] y] z]. cbn in *. lra.
Qed.

Lemma rotmat2qvec_norm2 (A : M3) :
  v4_norm2 (rotmat2qvec eigh A) = v4_norm2 (selected A).
Proof.
  rewrite rotmat2qvec_unfold.
  destruct (Rlt_dec _ _); [apply v4_norm2_opp|done].
Qed.

Lemma rotmat2qvec_unit (A : M3) :
  eigh_spec (rotmat2qvec_K A) (eigh (rotmat2qvec_K A)) →
  v4_norm2 (rotmat2qvec eigh A) = 1.
Proof.
  intros Hspec. rewrite rotmat2qvec_norm2, select_eigvec_norm2.
  apply (eigh_normalized _ _ Hspec), argmax_lt.
Qed.

(** The matrix of the quaternion computed from a rotation matrix is that
    matrix, in exact arithmetic. *)
Lemma qvec2rotmat_rotmat2qvec (A : M3) :
  rotation A →
  eigh_spec (rotmat2qvec_K A) (eigh (rotmat2qvec_K A)) →
  qvec2rotmat (rotmat2qvec eigh A) = A.
Proof.
  intros Hrot Hspec.
  assert (Hsel : qvec2rotmat (selected A) = A).
  { destruct A as [[[[a b] c] [[d e] f]] [[g h] i]].
    set (out := eigh _) in *. set (j := argmax out.1).
    pose proof (argmax_lt out.1) as Hj. fold j in Hj.
    pose proof (eigh_pair _ _ Hspec j Hj) as E.
    pose proof (eigh_normalized _ _ Hspec j Hj) as Hn.
    destruct (K_has_eigenvalue_one a b c d e f g h i Hrot) as (u & Hu & Eu).
    destruct (eigh_all _ _ Hspec 1 u Hu Eu) as (j' & Hj' & Hone).
    pose proof (argmax_max out.1 j' Hj') as Hmax. fold j in Hmax.
    unfold m4_col in E, Hn.
    destruct (K_spectrum a b c d e f g h i Hrot _ _ (unit_nonzero _ Hn) E)
      as [Hev|Hev]; [lra|].
    exact (K_top_eigenvector_matrix a b c d e f g h i Hrot _ _ _ _ _ E Hn Hev). }
  rewrite rotmat2qvec_unfold.
  destruct (Rlt_dec _ _); [rewrite qvec2rotmat_opp|]; exact Hsel.
Qed.

End Rotmat2qvec.

(** ** Quaternions with the same matrix *)

Section SameMatrix.
Local Open Scope R_scope.

Lemma qvec2rotmat_inj (q r : V4) :
  v4_norm2 q = 1 → v4_norm2 r = 1 →
  qvec2rotmat r = qvec2rotmat q → r = q ∨ r = v4_opp q.
Proof.
  destruct q as [[[w x] y] z], r as [[[w' x'] y'] z'].
  unfold qvec2rotmat, v4_opp. cbn. intros Hq Hr Heq.
  injection Heq as E1 E2 E3 E4 E5 E6 E7 E8 E9.
  assert (Pww : w' * w' = w * w) by lra.
  assert (Pxx : x' * x' = x * x) by lra.
  assert (Pyy : y' * y' = y * y) by lra.
  assert (Pzz : z' * z' = z * z) by lra.
  assert (Pwx : w' * x' = w * x) by lra.
  assert (Pwy : w' * y' = w * y) by lra.
  assert (Pwz : w' * z' = w * z) by lra.
  assert (Pxy : x' * y' = x * y) by lra.
  assert (Pxz : x' * z' = x * z) by lra.
  assert (Pyz : y' * z' = y * z) by lra.
  set (s := w' * w + x' * x + y' * y + z' * z).
  assert (Hw : w' = s * w) by (unfold s; nsatz).
  assert (Hx : x' = s * x) by (unfold s; nsatz).
  assert (Hy : y' = s * y) by (unfold s; nsatz).
  assert (Hz : z' = s * z) by (unfold s; nsatz).
  assert (Hs : (s - 1) * (s + 1) = 0) by (unfold s; nsatz).
  destruct (Rmult_integral _ _ Hs) as [H1|H1]; [left|right];
    componentwise; nra.
Qed.

End SameMatrix.

(** ** Round trip *)

Section RoundTrip.
Local Open Scope R_scope.
Variable eigh : M4 → V4 * M4.

(** From a unit quaternion to its matrix and back, in exact arithmetic:
    the quaternion itself or its opposite, according to the sign of its
    first component. *)
Lemma rotmat2qvec_qvec2rotmat (q : V4) :
  v4_norm2 q = 1 →
  eigh_spec (rotmat2qvec_K (qvec2rotmat q))
    (eigh (rotmat2qvec_K (qvec2rotmat q))) →
  (0 < v4_get q 0 → rotmat2qvec eigh (qvec2rotmat q) = q)
  ∧ (v4_get q 0 < 0 → rotmat2qvec eigh (qvec2rotmat q) = v4_opp q)
  ∧ (rotmat2qvec eigh (qvec2rotmat q) = q
     ∨ rotmat2qvec eigh (qvec2rotmat q) = v4_opp q).
Proof.
  intros Hq Hspec.
  pose proof (rotmat2qvec_first_nonneg eigh (qvec2rotmat q)) as Hsign.
  pose proof (rotmat2qvec_unit eigh _ Hspec) as Hunit.
  pose proof (qvec2rotmat_rotmat2qvec eigh _ (qvec2rotmat_rotation q Hq) Hspec)
    as Hmat.
  destruct (qvec2rotmat_inj q _ Hq Hunit Hmat) as [Heq|Heq];
    rewrite Heq in *; clear Heq Hmat Hunit;
    destruct q as [[[w x] y] z]; cbn in *.
  - split; [done|]. split; [|by left]. intros Hneg. lra.
  - split; [|split; [done|by right]]. intros Hpos. lra.
Qed.

End RoundTrip.

(** ** The contract of [eigh] can be met on every rotation matrix *)

Section Satisfiable.
Local Open Scope R_scope.

Lemma quaternion_eigh_spec (q : V4) :
  v4_norm2 q = 1 →
  eigh_spec (rotmat2qvec_K (qvec2rotmat q)) (quaternion_eigh q).
Proof.
  intros Hq. pose proof (qvec2rotmat_rotation q Hq) as Hrot.
  destruct q as [[[a b] c] d]. cbn in Hq.
  split.
  - cbn. lra.
  - intros j Hj. unfold qvec2rotmat. cbn [v4_get].
    apply K_eigen_shift.
    assert (Hz : 3 * - (1 / 3) + 1 = 0) by lra.
    assert (Hf : 3 * 1 + 1 = 4) by lra.
    destruct j as [|[|[|[|j]]]]; [| | | |lia];
      cbn; rewrite ?Hz, ?Hf; componentwise; nsatz.
  - intros j Hj. destruct j as [|[|[|[|j]]]]; [| | | |lia]; cbn; lra.
  - intros ev u Hu E.
    unfold qvec2rotmat in Hrot, E. cbn [v4_get] in Hrot, E.
    destruct (K_spectrum _ _ _ _ _ _ _ _ _ Hrot u ev Hu E) as [->| ->].
    + exists 0%nat. split; [lia|done].
    + exists 3%nat. split; [lia|done].
Qed.

(** Every rotation matrix is the matrix of a unit quaternion. *)
Lemma rotation_has_quaternion (A : M3) :
  rotation A → ∃ q, v4_norm2 q = 1 ∧ qvec2rotmat q = A.
Proof.
  destruct A as [[[[a b] c] [[d e] f]] [[g h] i]]. intros Hrot.
  destruct (K_has_eigenvalue_one a b c d e f g h i Hrot)
    as ([[[x y] z] w] & Hu & E).
  set (n2 := x * x + y * y + z * z + w * w).
  assert (Hn2 : 0 < n2).
  { destruct (Rle_lt_or_eq_dec 0 n2) as [H|H]; [unfold n2; nra|done|].
    exfalso. apply Hu. unfold n2 in H.
    assert (x = 0) by nra. assert (y = 0) by nra.
    assert (z = 0) by nra. assert (w = 0) by nra. congruence. }
  set (n := sqrt n2).
  assert (Hn : 0 < n) by (apply sqrt_lt_R0, Hn2).
  assert (Hnn : n * n = n2) by (apply sqrt_sqrt; lra).
  exists (w / n, x / n, y / n, z / n).
  assert (Hunit : v4_norm2 (x / n, y / n, z / n, w / n) = 1).
  { cbn. unfold n2 in Hnn. field_simplify; [|lra].
    apply Rmult_eq_reg_r with (r := n ^ 2); [|nra]. field_simplify; [|lra].
    nra. }
  split.
  - cbn in *. lra.
  - apply (K_top_eigenvector_matrix a b c d e f g h i Hrot _ _ _ _ 1);
      [|exact Hunit|done].
    cbn in E |- *. injection E as E1 E2 E3 E4.
    componentwise; field_simplify; try lra;
      apply Rmult_eq_reg_r with (r := n); try lra; field_simplify; lra.
Qed.

(** What [rotmat2qvec] makes of that eigendecomposition. *)
Lemma rotmat2qvec_quaternion_eigh (q : V4) (A : M3) :
  rotmat2qvec (λ _, quaternion_eigh q) A
  = if Rlt_dec (v4_get q 0) 0 then v4_opp q else q.
Proof.
  rewrite rotmat2qvec_unfold. destruct q as [[[a b] c] d].
  assert (Hmax : argmax (- (1 / 3), - (1 / 3), - (1 / 3), 1) = 3%nat).
  { unfold argmax. cbn.
    repeat (destruct (Rlt_dec _ _); cbn); try lra; reflexivity. }
  cbn [quaternion_eigh fst snd]. rewrite Hmax. reflexivity.
Qed.

Lemma eigh_spec_satisfiable (A : M3) :
  rotation A → ∃ out, eigh_spec (rotmat2qvec_K A) out.
Proof.
  intros (q & Hq & <-)%rotation_has_quaternion.
  exists (quaternion_eigh q). apply quaternion_eigh_spec, Hq.
Qed.

(** When the first component is 0 the sign of the result is the
    eigensolver's: two eigendecompositions of the same matrix, both within
    the contract, lead to opposite quaternions. *)
Lemma round_trip_either_sign :
  let q : V4 := (0, 1, 0, 0) in
  let K := rotmat2qvec_K (qvec2rotmat q) in
  eigh_spec K (quaternion_eigh q)
  ∧ rotmat2qvec (λ _, quaternion_eigh q) (qvec2rotmat q) = q
  ∧ eigh_spec K (quaternion_eigh (v4_opp q))
  ∧ rotmat2qvec (λ _, quaternion_eigh (v4_opp q)) (qvec2rotmat q) = v4_opp q.
Proof.
  intros q K.
  assert (Hq : v4_norm2 q = 1) by (cbn; lra).
  assert (Hq' : v4_norm2 (v4_opp q) = 1) by (cbn; lra).
  split; [apply quaternion_eigh_spec, Hq|].
  split.
  { rewrite rotmat2qvec_quaternion_eigh. cbn.
    destruct (Rlt_dec 0 0); [lra|done]. }
  split.
  { unfold K. rewrite <- (qvec2rotmat_opp q).
    apply quaternion_eigh_spec, Hq'. }
  rewrite rotmat2qvec_quaternion_eigh. cbn.
  destruct (Rlt_dec (- 0) 0); [lra|done].
Qed.

End Satisfiable.

(** ** The sample eigendecomposition *)

Section SampleEigh.
Local Open Scope R_scope.

Lemma qvec2rotmat_identity : qvec2rotmat (1, 0, 0, 0) = m3_id.
Proof. unfold qvec2rotmat, m3_id. cbn. componentwise; ring. Qed.

(** [identity_eigh] meets the contract of [eigh] on the matrix [K] of the
    identity rotation, which is diagonal. *)
Lemma identity_eigh_spec :
  eigh_spec (rotmat2qvec_K m3_id) (identity_eigh (rotmat2qvec_K m3_id)).
Proof.
  split; cbn.
  - lra.
  - intros j Hj. destruct j as [|[|[|[|j]]]]; [| | | |lia];
      cbn; componentwise; lra.
  - intros j Hj. destruct j as [|[|[|[|j]]]]; [| | | |lia]; cbn; lra.
  - intros ev [[[x y] z] w] Hu E. cbn in E.
    injection E as E1 E2 E3 E4.
    destruct (Req_dec ev 1) as [->|Hev].
    + exists 3%nat. split; [lia|done].
    + exists 0%nat. split; [lia|]. cbn.
      assert (w = 0) by nra.
      destruct (Req_dec x 0) as [Hx|Hx]; [|nra].
      destruct (Req_dec y 0) as [Hy|Hy]; [|nra].
      destruct (Req_dec z 0) as [Hz|Hz]; [|nra].
      exfalso. apply Hu. congruence.
Qed.

Lemma sample_quaternion_norm2 : v4_norm2 sample_quaternion = 1.
Proof. cbn. lra. Qed.

Lemma sample_eigh_spec :
  eigh_spec (rotmat2qvec_K (qvec2rotmat sample_quaternion))
    (sample_eigh (rotmat2qvec_K (qvec2rotmat sample_quaternion))).
Proof. apply quaternion_eigh_spec, sample_quaternion_norm2. Qed.

Lemma rotmat2qvec_identity_eigh :
  rotmat2qvec identity_eigh m3_id = (1, 0, 0, 0).
Proof.
  unfold rotmat2qvec, identity_eigh, argmax. cbn.
  repeat (destruct (Rlt_dec _ _); cbn); try lra; reflexivity.
Qed.

End SampleEigh.

(** ** An eigensolver with an error *)

Section Perturbation.
Local Open Scope R_scope.

Lemma Rabs_bounds (a b : R) : Rabs a <= b → - b <= a <= b.
Proof. unfold Rabs. destruct (Rcase_abs a); lra. Qed.

Lemma product_close (a b a' b' eps : R) :
  Rabs a <= 1 → Rabs b <= 1 →
  Rabs (a' - a) <= eps → Rabs (b' - b) <= eps →
  Rabs (a' * b' - a * b) <= 2 * eps + eps * eps.
Proof.
  intros Ha Hb Hda Hdb.
  replace (a' * b' - a * b)
    with ((a' - a) * (b' - b) + a * (b' - b) + b * (a' - a)) by ring.
  eapply Rle_trans; [apply Rabs_triang|].
  eapply Rle_trans;
    [apply Rplus_le_compat; [apply Rabs_triang|apply Rle_refl]|].
  rewrite !Rabs_mult.
  pose proof (Rabs_pos a). pose proof (Rabs_pos b).
  pose proof (Rabs_pos (a' - a)). pose proof (Rabs_pos (b' - b)).
  nra.
Qed.

Lemma sqrt_near_one (x : R) : 0 <= x → Rabs (sqrt x - 1) <= Rabs (x - 1).
Proof.
  intros Hx. pose proof (sqrt_pos x) as Hs.
  rewrite <- (sqrt_sqrt x Hx) at 2.
  replace (sqrt x * sqrt x - 1) with ((sqrt x - 1) * (sqrt x + 1)) by ring.
  rewrite Rabs_mult, (Rabs_right (sqrt x + 1)) by lra.
  pose proof (Rabs_pos (sqrt x - 1)). nra.
Qed.

Lemma unit_components (p : V4) :
  v4_norm2 p = 1 →
  Rabs (v4_get p 0) <= 1 ∧ Rabs (v4_get p 1) <= 1
  ∧ Rabs (v4_get p 2) <= 1 ∧ Rabs (v4_get p 3) <= 1.
Proof.
  destruct p as [[[w x] y] z]. cbn. intros Hp.
  repeat split; apply Rabs_le; split; nra.
Qed.

Lemma v4_close_get (eps : R) (u v : V4) (i : nat) :
  v4_close eps u v → Rabs (v4_get u i - v4_get v i) <= eps.
Proof.
  destruct u as [[[a b] c] d], v as [[[a' b'] c'] d'].
  intros (H0 & H1 & H2 & H3).
  destruct i as [|[|[|i]]]; cbn; done.
Qed.

Lemma v4_close_opp (eps : R) (u v : V4) :
  v4_close eps u v → v4_close eps (v4_opp u) (v4_opp v).
Proof.
  destruct u as [[[a b] c] d], v as [[[a' b'] c'] d']. cbn.
  intros (H0 & H1 & H2 & H3).
  repeat split;
    match goal with
    | |- Rabs (- ?x - - ?y) <= _ =>
        replace (- x - - y) with (- (x - y)) by ring; by rewrite Rabs_Ropp
    end.
Qed.

Lemma v4_close_weaken (eps eps' : R) (u v : V4) :
  eps <= eps' → v4_close eps u v → v4_close eps' u v.
Proof.
  destruct u as [[[a b] c] d], v as [[[a' b'] c'] d']. cbn.
  intros Hle (H0 & H1 & H2 & H3). repeat split; lra.
Qed.

Lemma m4_close_refl (eps : R) (A : M4) : 0 <= eps → m4_close eps A A.
Proof.
  destruct A as [[[r0 r1] r2] r3]. intros Heps. cbn.
  repeat split; by apply v4_close_refl.
Qed.

Lemma m4_close_select (eps : R) (V U : M4) (j : nat) :
  m4_close eps V U →
  v4_close eps (select_eigvec V j) (select_eigvec U j).
Proof.
  destruct V as [[[v0 v1] v2] v3], U as [[[u0 u1] u2] u3].
  intros (H0 & H1 & H2 & H3). unfold select_eigvec. cbn [m4_get v4_close].
  repeat split; by apply v4_close_get.
Qed.

(** An exact eigendecomposition is one within any error. *)
Lemma eigh_spec_within (eps : R) (a : M4) (out : V4 * M4) :
  0 <= eps → eigh_spec a out → eigh_within eps a out.
Proof.
  intros Heps Hspec. exists out. split; [done|].
  split; [by apply v4_close_refl|by apply m4_close_refl].
Qed.

Lemma eigh_within_0 (a : M4) (out : V4 * M4) :
  eigh_within 0 a out ↔ eigh_spec a out.
Proof.
  split; [|apply eigh_spec_within; lra].
  intros ([vals vecs] & Hspec & Hvals & Hvecs).
  destruct out as [[[[a0 a1] a2] a3] [[[r0 r1] r2] r3]].
  destruct vals as [[[b0 b1] b2] b3], vecs as [[[s0 s1] s2] s3].
  assert (Hz : ∀ x y, Rabs (x - y) <= 0 → x = y).
  { intros x y H. pose proof (Rabs_pos (x - y)).
    destruct (Req_dec (x - y) 0) as [E|E]; [lra|].
    apply Rabs_pos_lt in E. lra. }
  assert (Hv : ∀ u v, v4_close 0 u v → u = v).
  { intros [[[u0 u1] u2] u3] [[[w0 w1] w2] w3] (H0 & H1 & H2 & H3).
    apply Hz in H0, H1, H2, H3. congruence. }
  cbn in Hvals, Hvecs. destruct Hvecs as (H0 & H1 & H2 & H3).
  apply Hv in H0, H1, H2, H3.
  apply (Hv (a0, a1, a2, a3) (b0, b1, b2, b3)) in Hvals.
  congruence.
Qed.

(** The matrix of a vector near a unit quaternion is near the matrix of
    the quaternion: each entry moves by at most [8 eps + 4 eps^2]. *)
Lemma qvec2rotmat_close (eps : R) (r p : V4) :
  0 <= eps <= tolerance / 10 → v4_norm2 p = 1 → v4_close eps r p →
  m3_close tolerance (qvec2rotmat r) (qvec2rotmat p).
Proof.
  intros Heps Hp Hclose.
  destruct (unit_components p Hp) as (Bw & Bx & By & Bz).
  destruct r as [[[w' x'] y'] z'], p as [[[w x] y] z].
  cbn in Bw, Bx, By, Bz, Hclose. destruct Hclose as (Dw & Dx & Dy & Dz).
  assert (He2 : eps * eps <= eps / 10000000)
    by (unfold tolerance in Heps; nra).
  pose proof (product_close x x x' x' eps Bx Bx Dx Dx) as Pxx%Rabs_bounds.
  pose proof (product_close y y y' y' eps By By Dy Dy) as Pyy%Rabs_bounds.
  pose proof (product_close z z z' z' eps Bz Bz Dz Dz) as Pzz%Rabs_bounds.
  pose proof (product_close x y x' y' eps Bx By Dx Dy) as Pxy%Rabs_bounds.
  pose proof (product_close x z x' z' eps Bx Bz Dx Dz) as Pxz%Rabs_bounds.
  pose proof (product_close y z y' z' eps By Bz Dy Dz) as Pyz%Rabs_bounds.
  pose proof (product_close w x w' x' eps Bw Bx Dw Dx) as Pwx%Rabs_bounds.
  pose proof (product_close w y w' y' eps Bw By Dw Dy) as Pwy%Rabs_bounds.
  pose proof (product_close w z w' z' eps Bw Bz Dw Dz) as Pwz%Rabs_bounds.
  unfold tolerance in *. unfold qvec2rotmat. cbn.
  repeat split; apply Rabs_le; split; lra.
Qed.

(** The norm of a vector near a unit quaternion is near 1. *)
Lemma norm_close (eps : R) (r p : V4) :
  0 <= eps <= tolerance / 10 → v4_norm2 p = 1 → v4_close eps r p →
  Rabs (v4_norm r - 1) <= tolerance.
Proof.
  intros Heps Hp Hclose.
  destruct (unit_components p Hp) as (Bw & Bx & By & Bz).
  unfold v4_norm.
  eapply Rle_trans; [apply sqrt_near_one, v4_norm2_nonneg|].
  destruct r as [[[w' x'] y'] z'], p as [[[w x] y] z].
  cbn in Bw, Bx, By, Bz, Hclose, Hp. destruct Hclose as (Dw & Dx & Dy & Dz).
  assert (He2 : eps * eps <= eps / 10000000)
    by (unfold tolerance in Heps; nra).
  pose proof (product_close w w w' w' eps Bw Bw Dw Dw) as Pww%Rabs_bounds.
  pose proof (product_close x x x' x' eps Bx Bx Dx Dx) as Pxx%Rabs_bounds.
  pose proof (product_close y y y' y' eps By By Dy Dy) as Pyy%Rabs_bounds.
  pose proof (product_close z z z' z' eps Bz Bz Dz Dz) as Pzz%Rabs_bounds.
  unfold tolerance in *. cbn.
  apply Rabs_le; split; lra.
Qed.

End Perturbation.

Section ApproximateEigh.
Local Open Scope R_scope.
Variable eigh : M4 → V4 * M4.
Variable eps : R.
Hypothesis Heps : 0 <= eps <= tolerance / 10.

(** On a rotation matrix an eigensolver of error [eps] selects a column
    for the eigenvalue 1 of [K]: what [rotmat2qvec] returns is within [eps]
    of a unit quaternion with that matrix. *)
Lemma rotmat2qvec_near_quaternion (A : M3) :
  rotation A →
  eigh_within eps (rotmat2qvec_K A) (eigh (rotmat2qvec_K A)) →
  ∃ p, v4_norm2 p = 1 ∧ qvec2rotmat p = A
       ∧ v4_close eps (rotmat2qvec eigh A) p.
Proof using Heps.
  intros Hrot (exact & Hspec & Hvals & Hvecs).
  rewrite rotmat2qvec_unfold.
  set (out := eigh (rotmat2qvec_K A)) in *. set (j := argmax out.1).
  pose proof (argmax_lt out.1) as Hj. fold j in Hj.
  set (p := select_eigvec exact.2 j).
  assert (Hp : v4_norm2 p = 1).
  { unfold p. rewrite select_eigvec_norm2.
    apply (eigh_normalized _ _ Hspec), Hj. }
  assert (HA : qvec2rotmat p = A).
  { destruct A as [[[[a b] c] [[d e] f]] [[g h] i]].
    pose proof (eigh_pair _ _ Hspec j Hj) as E.
    pose proof (eigh_normalized _ _ Hspec j Hj) as Hn.
    destruct (K_has_eigenvalue_one a b c d e f g h i Hrot) as (u & Hu & Eu).
    destruct (eigh_all _ _ Hspec 1 u Hu Eu) as (j' & Hj' & Hone).
    pose proof (argmax_max out.1 j' Hj') as Hmax. fold j in Hmax.
    pose proof (v4_close_get _ _ _ j Hvals) as Dj%Rabs_bounds.
    pose proof (v4_close_get _ _ _ j' Hvals) as Dj'%Rabs_bounds.
    unfold m4_col in E, Hn. unfold tolerance in Heps.
    destruct (K_spectrum a b c d e f g h i Hrot _ _ (unit_nonzero _ Hn) E)
      as [Hev|Hev]; [lra|].
    exact (K_top_eigenvector_matrix a b c d e f g h i Hrot _ _ _ _ _ E Hn Hev). }
  pose proof (m4_close_select eps out.2 exact.2 j Hvecs) as Hsel.
  fold p in Hsel.
  destruct (Rlt_dec _ _).
  - exists (v4_opp p). split; [by rewrite v4_norm2_opp|].
    split; [by rewrite qvec2rotmat_opp|]. by apply v4_close_opp.
  - exists p. done.
Qed.

(** Back from the matrix of a unit quaternion: the quaternion within
    [eps] when its first component is above [eps], its opposite when it is
    below [-eps], one of the two in between. *)
Lemma rotmat2qvec_qvec2rotmat_within (q : V4) :
  v4_norm2 q = 1 →
  eigh_within eps (rotmat2qvec_K (qvec2rotmat q))
    (eigh (rotmat2qvec_K (qvec2rotmat q))) →
  (eps < v4_get q 0 → v4_close eps (rotmat2qvec eigh (qvec2rotmat q)) q)
  ∧ (v4_get q 0 < - eps →
     v4_close eps (rotmat2qvec eigh (qvec2rotmat q)) (v4_opp q))
  ∧ (v4_close eps (rotmat2qvec eigh (qvec2rotmat q)) q
     ∨ v4_close eps (rotmat2qvec eigh (qvec2rotmat q)) (v4_opp q)).
Proof using Heps.
  intros Hq Hwithin.
  pose proof (rotmat2qvec_first_nonneg eigh (qvec2rotmat q)) as Hsign.
  destruct (rotmat2qvec_near_quaternion _ (qvec2rotmat_rotation q Hq) Hwithin)
    as (p & Hp & Hmat & Hclose).
  pose proof (v4_close_get _ _ _ 0 Hclose) as D0%Rabs_bounds.
  destruct (qvec2rotmat_inj q p Hq Hp Hmat) as [-> | ->].
  - split; [done|]. split; [|by left]. intros Hneg. lra.
  - split; [|split; [done|by right]]. intros Hpos.
    destruct q as [[[w x] y] z]. cbn in *. lra.
Qed.

End ApproximateEigh.

Section Margin.
Local Open Scope R_scope.

(** The margin cannot be dropped. For every error [0 < eps <= 1e-7] there
    are a unit quaternion [q] with [q[0] = eps] and an eigensolver within
    [eps] on its matrix (it returns 0 where the scalar part of the exact
    eigenvector [-q] is [-eps]) from which [rotmat2qvec] computes a vector
    far from [q]. *)
Lemma round_trip_needs_margin (eps : R) :
  0 < eps <= tolerance / 10 →
  ∃ (q : V4) (eigh : M4 → V4 * M4),
    unit_quaternion q ∧ v4_get q 0 = eps
    ∧ eigh_within eps (rotmat2qvec_K (qvec2rotmat q))
        (eigh (rotmat2qvec_K (qvec2rotmat q)))
    ∧ ¬ v4_close tolerance (rotmat2qvec eigh (qvec2rotmat q)) q.
Proof.
  intros Heps. unfold tolerance in Heps.
  set (s := sqrt (1 - eps * eps)).
  assert (Hs2 : s * s = 1 - eps * eps) by (apply sqrt_sqrt; nra).
  assert (Hs : 0 <= s) by apply sqrt_pos.
  assert (Hhalf : 1 / 2 < s) by nra.
  set (q := (eps, s, 0, 0) : V4).
  assert (Hq : v4_norm2 q = 1) by (cbn; lra).
  set (out := ((- (1 / 3), - (1 / 3), - (1 / 3), 1),
               ((- eps, 0, 0, - s), (0, - eps, s, 0),
                (0, - s, - eps, 0), (s, 0, 0, 0))) : V4 * M4).
  exists q, (λ _, out).
  split; [by apply unit_quaternion_norm2|]. split; [done|]. split.
  - exists (quaternion_eigh (v4_opp q)). split.
    + rewrite <- (qvec2rotmat_opp q). apply quaternion_eigh_spec.
      by rewrite v4_norm2_opp.
    + cbn. rewrite ?Ropp_0, ?Ropp_involutive, ?Rminus_diag, ?Rabs_R0.
      replace (0 - - eps) with eps by ring.
      rewrite (Rabs_right eps) by lra.
      repeat split; lra.
  - rewrite rotmat2qvec_unfold.
    assert (Hmax : argmax (- (1 / 3), - (1 / 3), - (1 / 3), 1) = 3%nat).
    { unfold argmax. cbn.
      repeat (destruct (Rlt_dec _ _); cbn); try lra; reflexivity. }
    cbn [out fst snd]. rewrite Hmax. cbn.
    destruct (Rlt_dec 0 0) as [H|_]; [lra|].
    unfold select_eigvec, q. cbn.
    intros (_ & H & _). apply Rabs_bounds in H. unfold tolerance in H. lra.
Qed.

End Margin.

(* ===================================================================== *)
(** * The sample rig is well formed *)
(* ===================================================================== *)

Lemma sample_camera_well_formed : well_formed_camera sample_camera.
Proof.
  unfold well_formed_camera, has_numbers, TRANSFORM_KEYS.
  split; [|split];
    repeat (apply Forall_cons_2; [vm_compute; eauto|]);
    apply Forall_nil_2.
Qed.

Lemma sample_document_well_formed : well_formed_document sample_document.
Proof.
  split; [reflexivity|].
  repeat (apply Forall_cons_2; [apply sample_camera_well_formed|]).
  apply Forall_nil_2.
Qed.

(** The entries of the identity rotation are moderate. *)
Lemma identity_transform_moderate (c : gmap string json) :
  c !! "Transform" = Some (JObj identity_transform) →
  moderate_rotation (JObj c).
Proof.
  intros Hc k r Hk (c' & b & [= <-] & Hb & Hr)%number_at_Some.
  rewrite Hc in Hb. injection Hb as <-.
  unfold ROTATION_KEYS in Hk.
  repeat (apply elem_of_cons in Hk as [->|Hk]);
    [..|by apply elem_of_nil in Hk];
    first [ change (Some (JNum 0%R) = Some (JNum r)) in Hr
          | change (Some (JNum 1%R) = Some (JNum r)) in Hr ];
    injection Hr as <-; unfold ENTRY_LIMIT;
    rewrite ?Rabs_R0, ?Rabs_R1; lra.
Qed.

Lemma sample_camera_moderate : moderate_rotation sample_camera.
Proof. by apply identity_transform_moderate. Qed.

Lemma identity_camera_moderate :
  moderate_rotation (JObj {[ "Transform" := JObj identity_transform ]}).
Proof. by apply identity_transform_moderate. Qed.

Lemma sample_cameras_complete (cams : list json) :
  Forall (λ cam, cam = sample_camera) cams →
  Forall (λ cam, has_numbers cam "Transform" TRANSFORM_KEYS
                 ∧ moderate_rotation cam) cams.
Proof.
  intros H. eapply Forall_impl; [exact H|]. intros cam ->.
  split; [apply sample_camera_well_formed|apply sample_camera_moderate].
Qed.

(** The element of the defective document that has lost [Transform.r11]. *)
Lemma defective_camera_first_missing :
  first_missing_key
    (JObj {[ "Transform" := JObj (delete "r11" identity_transform) ]}) "r11".
Proof.
  right. eexists _, _, [ "x"; "y"; "z" ], _.
  split; [reflexivity|]. split; [reflexivity|]. split; [reflexivity|].
  split; [|reflexivity].
  repeat (apply Forall_cons_2; [vm_compute; eauto|]). apply Forall_nil_2.
Qed.

(** What [read_extrinsics_json] makes of the sample documents. *)
Lemma read_extrinsics_sample_rig (eigh : M4 → V4 * M4) :
  read_extrinsics_json eigh sample_fs "rig.json"
  = Ok (fill (image_of eigh) 1 [sample_camera; sample_camera] ∅).
Proof.
  apply (read_extrinsics_json_numbers eigh sample_fs "rig.json"
           sample_document); [done..|].
  apply sample_cameras_complete. by repeat constructor.
Qed.

Lemma read_extrinsics_identity_pose (eigh : M4 → V4 * M4) :
  read_extrinsics_json eigh sample_fs "pose.json"
  = Ok (fill (image_of eigh) 1
          [JObj {[ "Transform" := JObj identity_transform ]}] ∅).
Proof.
  apply (read_extrinsics_json_numbers eigh sample_fs "pose.json"
           identity_pose_document); [done..|].
  apply Forall_cons_2; [|apply Forall_nil_2].
  split; [|apply identity_camera_moderate].
  repeat (apply Forall_cons_2; [vm_compute; eauto|]). apply Forall_nil_2.
Qed.

(* ===================================================================== *)
(** * Running the parsers on the sample rig *)
(* ===================================================================== *)

Example read_intrinsics_missing_file :
  read_intrinsics_json sample_fs "nowhere.json" "OPENCV"
  = Raise (FileNotFoundError "nowhere.json").
Proof. reflexivity. Qed.

Example read_intrinsics_no_cameras :
  read_intrinsics_json sample_fs "empty.json" "OPENCV" = Raise TypeError.
Proof. reflexivity. Qed.

Example read_intrinsics_defective :
  read_intrinsics_json sample_fs "defective.json" "PINHOLE"
  = Raise (KeyError "FovVideo").
Proof. reflexivity. Qed.

Example read_intrinsics_pinhole :
  read_intrinsics_json sample_fs "pose.json" "PINHOLE"
  = Raise (KeyError "FovVideo").
Proof. reflexivity. Qed.

Example read_extrinsics_defective :
  read_extrinsics_json identity_eigh sample_fs "defective.json"
  = Raise (KeyError "r11").
Proof.
  unfold read_extrinsics_json.
  change (load sample_fs "defective.json") with (Ok defective_document).
  rewrite bind_Ok.
  rewrite (extrinsics_loop_missing identity_eigh defective_document
             [sample_camera] _ [sample_camera] "r11" eq_refl).
  - done.
  - apply sample_cameras_complete. by repeat constructor.
  - apply defective_camera_first_missing.
Qed.

Example intrinsics_params_sample_pinhole :
  intrinsics_params "PINHOLE" sample_camera = Ok [1100; 1101; 960; 544]%R.
Proof. reflexivity. Qed.

Example intrinsics_params_sample_fov :
  intrinsics_params "FOV" sample_camera = Ok [].
Proof. reflexivity. Qed.

(* ===================================================================== *)
(** * What a normal return tells *)
(* ===================================================================== *)

Lemma mapM_result_length {A B} (f : A → result B) (l : list A) (k : list B) :
  mapM f l = Ok k → length k = length l.
Proof.
  revert k. induction l as [|x l IH]; intros k Hk.
  - injection Hk as <-. done.
  - rewrite mapM_result_cons in Hk.
    destruct (f x) as [y| |]; try discriminate Hk. rewrite bind_Ok in Hk.
    destruct (mapM f l) as [k'| |]; try discriminate Hk.
    injection Hk as <-. cbn. f_equal. by apply IH.
Qed.

(** A loop whose body, when it ends normally, has stored [mk idx x] at
    [idx], has built [fill mk] when it ends normally. *)
Lemma for_enumerate_Ok_fill {A V} (body : Z → A → stateful (gmap Z V) unit)
    (mk : Z → A → V) (xs : list A) :
  (∀ idx x s s', body idx x s = (s', Ok tt) → s' = <[idx := mk idx x]> s) →
  ∀ idx s s',
  for_enumerate body idx xs s = (s', Ok tt) → s' = fill mk idx xs s.
Proof.
  intros Hbody. induction xs as [|x xs IH]; intros idx s s' H.
  - injection H as <-. done.
  - cbn in H. unfold st_bind in H.
    destruct (body idx x s) as [s1 [[]| |]] eqn:Hx; try discriminate H.
    apply Hbody in Hx as ->. cbn [fill]. by apply IH.
Qed.

Lemma returning_Ok_inv {S} (out : S * result unit) (s : S) :
  returning out = Ok s → out = (s, Ok tt).
Proof. destruct out as [s' [[]| |]]; cbn; congruence. Qed.

Lemma intrinsics_body_Ok_inv (camera_model_type : string) (model_id : Z)
    (idx : Z) (cam : json) (s s' : gmap Z Camera) :
  intrinsics_body camera_model_type model_id idx cam s = (s', Ok tt) →
  s' = <[idx := camera_of camera_model_type model_id idx cam]> s
  ∧ intrinsics_read camera_model_type cam.
Proof.
  unfold intrinsics_body, camera_of, intrinsics_read, st_bind, st_lift,
    st_modify.
  destruct (getitem2 cam "FovVideo" "Right") as [w| |]; try discriminate.
  destruct (getitem2 cam "FovVideo" "Bottom") as [h| |]; try discriminate.
  destruct (intrinsics_params camera_model_type cam) as [ps| |];
    try discriminate.
  cbn. intros [= <-]. eauto 10.
Qed.

Lemma read_intrinsics_json_Ok_inv (fs : filesystem) (path : string)
    (camera_model_type : string) (cameras : gmap Z Camera) :
  read_intrinsics_json fs path camera_model_type = Ok cameras →
  ∃ data camera_model items,
    fs path = Holds data
    ∧ CAMERA_MODEL_NAMES !! camera_model_type = Some camera_model
    ∧ camera_items data = Ok items
    ∧ cameras = fill (camera_of camera_model_type (model_id camera_model)) 1
                  items ∅
    ∧ Forall (intrinsics_read camera_model_type) items.
Proof.
  unfold read_intrinsics_json, load, camera_items.
  destruct (fs path) as [| |data]; try discriminate. rewrite bind_Ok.
  destruct (CAMERA_MODEL_NAMES !! camera_model_type) as [cm|];
    try discriminate.
  destruct (getitem data "Cameras") as [v| |] eqn:Hv; try discriminate.
  rewrite !bind_Ok.
  destruct (iter v) as [items| |] eqn:Hitems; try discriminate.
  rewrite bind_Ok.
  intros H%returning_Ok_inv. exists data, cm, items.
  split; [done|]. split; [done|].
  split; [by rewrite Hv, bind_Ok|]. split.
  - eapply for_enumerate_Ok_fill; [|exact H].
    intros idx x s s' Hx. by apply intrinsics_body_Ok_inv in Hx as [-> _].
  - apply for_enumerate_Ok_inv in H.
    eapply Forall_impl; [exact H|]. intros cam (idx & s1 & Hok).
    destruct (intrinsics_body camera_model_type (model_id cm) idx cam s1)
      as [s2 r] eqn:Hb.
    cbn in Hok. subst r. by apply intrinsics_body_Ok_inv in Hb as [_ ?].
Qed.

Lemma getitem2_Ok_number (cam : json) (block k : string) (v : json) (r : R) :
  getitem2 cam block k = Ok v → as_number v = Ok r →
  number_at cam block k = Some r.
Proof.
  unfold getitem2, number_at, field.
  destruct cam as [| | | | |c]; try discriminate. cbn.
  destruct (c !! block) as [b|]; try discriminate. cbn.
  destruct b as [| | | | |t]; try discriminate. cbn.
  destruct (t !! k) as [v'|]; try discriminate. intros [= ->].
  destruct v; try discriminate. cbn. congruence.
Qed.

(** What [np.array] returns after the lookups are the numbers stored at the
    keys. *)
Lemma getitem2_numbers_inv (cam : json) (block : string)
    (keys : list string) (rs : list R) :
  (vs ← mapM (getitem2 cam block) keys; np_array vs) = Ok rs →
  mapM (number_at cam block) keys = Some rs.
Proof.
  intros (vs & Hvs & Hrs)%bind_Ok_inv. unfold np_array in Hrs.
  apply mapM_Some_2.
  revert vs rs Hvs Hrs. induction keys as [|k keys IH]; intros vs rs Hvs Hrs.
  - injection Hvs as <-. injection Hrs as <-. constructor.
  - rewrite mapM_result_cons in Hvs.
    destruct (getitem2 cam block k) as [v| |] eqn:Hv; try discriminate Hvs.
    rewrite bind_Ok in Hvs.
    destruct (mapM (getitem2 cam block) keys) as [vs'| |] eqn:Hvs';
      try discriminate Hvs.
    injection Hvs as <-. rewrite mapM_result_cons in Hrs.
    destruct (as_number v) as [r| |] eqn:Hr; try discriminate Hrs.
    rewrite bind_Ok in Hrs.
    destruct (mapM as_number vs') as [rs'| |] eqn:Hrs'; try discriminate Hrs.
    injection Hrs as <-. constructor.
    + apply (getitem2_Ok_number _ _ _ _ _ Hv Hr).
    + apply (IH vs' rs'); done.
Qed.

Lemma extrinsics_R_Ok_inv (cam : json) (Rm : M3) :
  extrinsics_R cam = Ok Rm →
  ∃ r11 r12 r13 r21 r22 r23 r31 r32 r33,
    mapM (number_at cam "Transform") ROTATION_KEYS
    = Some [r11; r12; r13; r21; r22; r23; r31; r32; r33]
    ∧ Rm = ((r11, r12, r13), (r21, r22, r23), (r31, r32, r33)).
Proof.
  unfold extrinsics_R, np_array_3x3. intros (vs & Hvs & H)%bind_Ok_inv.
  apply bind_Ok_inv in H as (ns & Hns & H).
  assert (Hnum : mapM (number_at cam "Transform") ROTATION_KEYS = Some ns).
  { apply getitem2_numbers_inv. rewrite Hvs, bind_Ok. exact Hns. }
  destruct ns as [|r11 [|r12 [|r13 [|r21 [|r22 [|r23 [|r31 [|r32 [|r33 [|]]]]]]]]]];
    try discriminate H.
  injection H as <-. eauto 12.
Qed.

Section ExtrinsicsInversion.
Variable eigh : M4 → V4 * M4.

Lemma extrinsics_body_Ok_inv (idx : Z) (cam : json) (s s' : gmap Z Image) :
  extrinsics_body eigh idx cam s = (s', Ok tt) →
  s' = <[idx := image_of eigh idx cam]> s
  ∧ (∃ tvec, extrinsics_tvec cam = Ok tvec)
  ∧ (∃ Rm, extrinsics_R cam = Ok Rm).
Proof.
  unfold extrinsics_body, image_of, st_bind, st_lift, st_modify.
  destruct (extrinsics_tvec cam) as [tvec| |]; try discriminate.
  destruct (extrinsics_R cam) as [Rm| |]; try discriminate.
  destruct (extrinsics_qvec eigh Rm) as [qvec| |] eqn:Hq; try discriminate.
  apply extrinsics_qvec_Ok_inv in Hq as [-> _].
  cbn. intros [= <-]. eauto.
Qed.

Lemma read_extrinsics_json_Ok_inv (fs : filesystem) (path : string)
    (images : gmap Z Image) :
  read_extrinsics_json eigh fs path = Ok images →
  ∃ data items,
    fs path = Holds data
    ∧ camera_items data = Ok items
    ∧ images = fill (image_of eigh) 1 items ∅
    ∧ Forall (λ cam, (∃ tvec, extrinsics_tvec cam = Ok tvec)
                     ∧ (∃ Rm, extrinsics_R cam = Ok Rm)) items.
Proof.
  unfold read_extrinsics_json, extrinsics_loop, load, camera_items.
  destruct (fs path) as [| |data]; try discriminate. rewrite bind_Ok.
  destruct (getitem data "Cameras") as [v| |] eqn:Hv; try discriminate.
  rewrite !bind_Ok.
  destruct (iter v) as [items| |] eqn:Hitems; try discriminate.
  rewrite !bind_Ok.
  intros H%returning_Ok_inv. exists data, items.
  split; [done|]. split; [by rewrite Hv, bind_Ok|]. split.
  - eapply for_enumerate_Ok_fill; [|exact H].
    intros idx x s s' Hx. by apply extrinsics_body_Ok_inv in Hx as [-> _].
  - apply for_enumerate_Ok_inv in H.
    eapply Forall_impl; [exact H|]. intros cam (idx & s1 & Hok).
    destruct (extrinsics_body eigh idx cam s1) as [s2 r] eqn:Hb.
    cbn in Hok. subst r. by apply extrinsics_body_Ok_inv in Hb as (_ & ? & ?).
Qed.

End ExtrinsicsInversion.

Lemma getitem2_value_at (cam : json) (block k : string) (v : json) :
  getitem2 cam block k = Ok v ↔ value_at cam block k = Some v.
Proof.
  unfold getitem2, value_at, field.
  destruct cam as [| | | | |c]; try (split; discriminate). cbn.
  destruct (c !! block) as [b|]; [|split; discriminate]. cbn.
  destruct b as [| | | | |t]; try (split; discriminate). cbn.
  destruct (t !! k); split; congruence.
Qed.

(** A string is not a camera element: both loops raise [TypeError] on it. *)
Lemma intrinsics_body_string (camera_model_type : string) (model_id : Z)
    (idx : Z) (name : string) (s : gmap Z Camera) :
  intrinsics_body camera_model_type model_id idx (JStr name) s
  = (s, Raise TypeError).
Proof. reflexivity. Qed.

Lemma extrinsics_body_string (eigh : M4 → V4 * M4) (idx : Z) (name : string)
    (s : gmap Z Image) :
  extrinsics_body eigh idx (JStr name) s = (s, Raise TypeError).
Proof. reflexivity. Qed.

(** What a loop draws from a value that is not a list: nothing when it is
    an empty dict or string, strings when it is a dict or string that is
    not empty; other values are not iterable. *)
Lemma iter_not_list (v : json) :
  (∀ l, v ≠ JArr l) →
  if empty_container v then iter v = Ok []
  else iter v = Raise TypeError
       ∨ ∃ name rest, iter v = Ok (JStr name :: rest).
Proof.
  intros Hv. destruct v as [| | |s|l|m]; cbn; auto.
  - case_bool_decide as Hs; [by subst|].
    right. destruct s as [|c s]; [done|]. cbn. eauto.
  - by destruct (Hv l).
  - case_bool_decide as Hm; [subst; by rewrite map_to_list_empty|].
    right. destruct (map_to_list m) as [|[name x] rest] eqn:Hl.
    + by apply map_to_list_empty_iff in Hl.
    + cbn. eauto.
Qed.

(* ===================================================================== *)
(** * Properties of the parsers *)
(* ===================================================================== *)

(** C2 (as the code has it). For a model name that is not in the registry,
    [read_intrinsics_json] raises the unsupported-model [ValueError] as soon
    as the file has been opened and decoded, whatever the decoded document
    is (it may lack [Cameras] or any field); when the file cannot be opened
    or decoded, the error of [open] or of [json.load] comes first. *)
Theorem unsupported_model_after_decoding (fs : filesystem) (path : string)
    (camera_model_type : string) :
  CAMERA_MODEL_NAMES !! camera_model_type = None →
  read_intrinsics_json fs path camera_model_type
  = match fs path with
    | Holds data =>
        Raise (ValueError
                 ("Unsupported camera model type: " +:+ camera_model_type))
    | NotJSON => Raise JSONDecodeError
    | NoSuchFile => Raise (FileNotFoundError path)
    end.
Proof.
  intros Hreg. unfold read_intrinsics_json, load.
  destruct (fs path); [done|done|]. rewrite bind_Ok, Hreg. done.
Qed.

Lemma unsupported_model_after_decoding_witness :
  CAMERA_MODEL_NAMES !! "UNKNOWN_MODEL" = None
  ∧ read_intrinsics_json sample_fs "empty.json" "UNKNOWN_MODEL"
    = Raise (ValueError "Unsupported camera model type: UNKNOWN_MODEL").
Proof.
  split; [reflexivity|].
  apply (unsupported_model_after_decoding sample_fs "empty.json"
           "UNKNOWN_MODEL").
  reflexivity.
Defined.

(** C2 (as stated) fails: on a file that is not valid JSON the decoder's
    error is raised, not the unsupported-model error, although the model
    name is unknown. *)
Lemma unsupported_model_not_before_decoding :
  CAMERA_MODEL_NAMES !! "UNKNOWN_MODEL" = None
  ∧ read_intrinsics_json sample_fs "garbled.json" "UNKNOWN_MODEL"
    = Raise JSONDecodeError
  ∧ read_intrinsics_json sample_fs "garbled.json" "UNKNOWN_MODEL"
    ≠ Raise (ValueError "Unsupported camera model type: UNKNOWN_MODEL").
Proof. split; [reflexivity|]. split; [reflexivity|discriminate]. Qed.

(** C4. On a well-formed document, [read_intrinsics_json] with model type
    ["OPENCV"] stores for every camera element, at its 1-based position, a
    camera whose [params] are the eight intrinsic values in the fixed order
    focal length U, V, centre point U, V, radial distortion 1, 2, tangential
    distortion 1, 2. *)
Theorem opencv_params_in_order (fs : filesystem) (path : string)
    (data : json) :
  fs path = Holds data → well_formed_document data →
  ∃ cameras,
    read_intrinsics_json fs path "OPENCV" = Ok cameras
    ∧ ∀ (i : nat) (cam : json), Cameras_of data !! i = Some cam →
        ∃ c, cameras !! (Z.of_nat i + 1)%Z = Some c
             ∧ mapM (number_at cam "Intrinsic")
                 [ "FocalLengthU"; "FocalLengthV";
                   "CenterPointU"; "CenterPointV";
                   "RadialDistortion1"; "RadialDistortion2";
                   "TangentalDistortion1"; "TangentalDistortion2" ]
               = Some (cam_params c)
             ∧ length (cam_params c) = 8%nat.
Proof.
  intros Hfs Hwf. eexists. split.
  { apply (read_intrinsics_json_well_formed fs path data "OPENCV"
             (mkCameraModel 4 "OPENCV" 8)); [done|done|reflexivity]. }
  intros i cam Hcam. eexists. split; [apply lookup_fill_1, Hcam|].
  destruct Hwf as [_ Hall].
  rewrite Forall_lookup in Hall. destruct (Hall i cam Hcam) as (_ & Hi & _).
  destruct (intrinsics_params_OPENCV cam Hi) as (rs & Hrs & Hps).
  unfold camera_of. cbn [cam_params]. rewrite Hps. cbn [from_ok].
  split; [exact Hrs|]. apply length_mapM in Hrs. rewrite <- Hrs. done.
Qed.

Lemma opencv_params_in_order_witness :
  sample_fs "rig.json" = Holds sample_document
  ∧ well_formed_document sample_document
  ∧ ∃ cameras,
      read_intrinsics_json sample_fs "rig.json" "OPENCV" = Ok cameras
      ∧ ∃ c, cameras !! 1%Z = Some c
             ∧ cam_params c = [1100; 1101; 960; 544; 11; 12; 21; 22]%R.
Proof.
  split; [reflexivity|]. split; [apply sample_document_well_formed|].
  destruct (opencv_params_in_order sample_fs "rig.json" sample_document
              eq_refl sample_document_well_formed) as (cameras & Hread & Hall).
  exists cameras. split; [exact Hread|].
  destruct (Hall 0%nat sample_camera eq_refl) as (c & Hc & Hparams & _).
  exists c. split; [exact Hc|].
  injection Hparams as <-. reflexivity.
Defined.



(** C8. For a registered model name other than ["OPENCV"] and ["PINHOLE"],
    [read_intrinsics_json] succeeds on a well-formed document; every camera
    returned has empty [params] and carries the registry id of the
    requested model. *)
Theorem unhandled_model_placeholder (fs : filesystem) (path : string)
    (data : json) (camera_model_type : string) (camera_model : CameraModel) :
  fs path = Holds data → well_formed_document data →
  CAMERA_MODEL_NAMES !! camera_model_type = Some camera_model →
  camera_model_type ≠ "OPENCV" → camera_model_type ≠ "PINHOLE" →
  ∃ cameras,
    read_intrinsics_json fs path camera_model_type = Ok cameras
    ∧ keyed_1_to cam_id (length (Cameras_of data)) cameras
    ∧ ∀ (k : Z) (c : Camera), cameras !! k = Some c →
        cam_params c = [] ∧ cam_model c = model_id camera_model.
Proof.
  intros Hfs Hwf Hreg Hno Hnp. eexists. split; [|split].
  - apply (read_intrinsics_json_well_formed _ _ _ _ _ Hfs Hwf Hreg).
  - apply fill_keyed. done.
  - intros k c (cam & _ & ->)%lookup_fill_1_inv.
    unfold camera_of. cbn [cam_params cam_model].
    rewrite intrinsics_params_other by done. done.
Qed.

Lemma unhandled_model_placeholder_witness :
  sample_fs "rig.json" = Holds sample_document
  ∧ well_formed_document sample_document
  ∧ CAMERA_MODEL_NAMES !! "RADIAL" = Some (mkCameraModel 3 "RADIAL" 5)
  ∧ ∃ cameras,
      read_intrinsics_json sample_fs "rig.json" "RADIAL" = Ok cameras
      ∧ keyed_1_to cam_id 2 cameras
      ∧ ∀ (k : Z) (c : Camera), cameras !! k = Some c →
          cam_params c = [] ∧ cam_model c = 3%Z.
Proof.
  split; [reflexivity|]. split; [apply sample_document_well_formed|].
  split; [reflexivity|].
  apply (unhandled_model_placeholder sample_fs "rig.json" sample_document
           "RADIAL" (mkCameraModel 3 "RADIAL" 5));
    [reflexivity|apply sample_document_well_formed|reflexivity
    |discriminate|discriminate].
Defined.

(** C9. Called without a model type, [read_intrinsics_json] behaves as with
    ["OPENCV"]: the two calls return the same result on every input, and on
    a well-formed document every camera has model id 4 and eight
    parameters. *)
Theorem default_model_type_is_OPENCV (fs : filesystem) (path : string) :
  read_intrinsics_json_call fs path None
  = read_intrinsics_json_call fs path (Some "OPENCV")
  ∧ ∀ data : json, fs path = Holds data → well_formed_document data →
      ∃ cameras,
        read_intrinsics_json_call fs path None = Ok cameras
        ∧ keyed_1_to cam_id (length (Cameras_of data)) cameras
        ∧ ∀ (k : Z) (c : Camera), cameras !! k = Some c →
            cam_model c = 4%Z ∧ length (cam_params c) = 8%nat.
Proof.
  split; [reflexivity|]. intros data Hfs Hwf.
  unfold read_intrinsics_json_call. cbn [default].
  eexists. split; [|split].
  - apply (read_intrinsics_json_well_formed fs path data "OPENCV"
             (mkCameraModel 4 "OPENCV" 8)); [done|done|reflexivity].
  - apply fill_keyed. done.
  - intros k c (cam & Hcam & ->)%lookup_fill_1_inv.
    split; [reflexivity|].
    destruct Hwf as [_ Hall]. rewrite Forall_lookup in Hall.
    destruct (Hall _ _ Hcam) as (_ & Hi & _).
    destruct (intrinsics_params_OPENCV cam Hi) as (rs & Hrs & Hps).
    unfold camera_of. cbn [cam_params]. rewrite Hps. cbn [from_ok].
    apply length_mapM in Hrs. rewrite <- Hrs. done.
Qed.

Lemma default_model_type_is_OPENCV_witness :
  sample_fs "rig.json" = Holds sample_document
  ∧ well_formed_document sample_document
  ∧ ∃ cameras,
      read_intrinsics_json_call sample_fs "rig.json" None = Ok cameras
      ∧ keyed_1_to cam_id 2 cameras
      ∧ ∀ (k : Z) (c : Camera), cameras !! k = Some c →
          cam_model c = 4%Z ∧ length (cam_params c) = 8%nat.
Proof.
  split; [reflexivity|]. split; [apply sample_document_well_formed|].
  apply (proj2 (default_model_type_is_OPENCV sample_fs "rig.json")
           sample_document eq_refl sample_document_well_formed).
Defined.

(* ===================================================================== *)
(** * Properties of the rotation converters *)
(* ===================================================================== *)

Section RotationProperties.
Local Open Scope R_scope.

(** C10. [qvec2rotmat] does not see the sign of the quaternion: for every
    4-vector [q], unit or not, [qvec2rotmat (-q)] is [qvec2rotmat q]. *)
Theorem qvec2rotmat_negation_invariant (q : V4) :
  qvec2rotmat (v4_opp q) = qvec2rotmat q.
Proof.
  destruct q as [[[w x] y] z]. unfold qvec2rotmat, v4_opp.
  cbn [v4_map v4_get]. componentwise; ring.
Qed.

(** C7. On a rotation matrix [A], for an [eigh] that returns eigenvalues
    and eigenvectors within [eps <= 1e-7] of an eigendecomposition of [K]
    (exact when [eps = 0]). The column [j] that [rotmat2qvec] selects holds
    the largest eigenvalue computed; the vector returned is that column
    read in the order 3, 0, 1, 2 (scalar part first), negated exactly when
    the scalar part is negative. Its first component is therefore not
    negative, its Euclidean norm is 1 within the tolerance, its matrix is
    [A] within the tolerance, and it is within [eps] of a unit quaternion
    whose matrix is [A]: of the two unit quaternions of [A], it is the one
    with the scalar part not negative, up to [eps]. *)
Theorem rotmat2qvec_canonical_sign (eigh : M4 → V4 * M4) (eps : R) (A : M3) :
  0 <= eps <= tolerance / 10 →
  rotation A →
  eigh_within eps (rotmat2qvec_K A) (eigh (rotmat2qvec_K A)) →
  let eigvals := (eigh (rotmat2qvec_K A)).1 in
  let eigvecs := (eigh (rotmat2qvec_K A)).2 in
  let j := argmax eigvals in
  let v : V4 := (m4_get eigvecs 3 j, m4_get eigvecs 0 j,
                 m4_get eigvecs 1 j, m4_get eigvecs 2 j) in
  (∀ i, (i < 4)%nat → v4_get eigvals i <= v4_get eigvals j)
  ∧ rotmat2qvec eigh A
    = (if Rlt_dec (m4_get eigvecs 3 j) 0 then v4_opp v else v)
  ∧ 0 <= v4_get (rotmat2qvec eigh A) 0
  ∧ Rabs (v4_norm (rotmat2qvec eigh A) - 1) <= tolerance
  ∧ m3_close tolerance (qvec2rotmat (rotmat2qvec eigh A)) A
  ∧ ∃ q, unit_quaternion q ∧ qvec2rotmat q = A
         ∧ v4_close eps (rotmat2qvec eigh A) q
         ∧ - eps <= v4_get q 0.
Proof.
  intros Heps Hrot Hwithin eigvals eigvecs j v.
  split; [intros i Hi; apply argmax_max, Hi|].
  split; [apply rotmat2qvec_unfold|].
  pose proof (rotmat2qvec_first_nonneg eigh A) as Hsign.
  split; [exact Hsign|].
  destruct (rotmat2qvec_near_quaternion eigh eps Heps A Hrot Hwithin)
    as (p & Hp & Hmat & Hclose).
  split; [apply (norm_close eps _ p); done|].
  split; [rewrite <- Hmat at 2; apply (qvec2rotmat_close eps); done|].
  exists p. split; [by apply unit_quaternion_norm2|].
  split; [done|]. split; [done|].
  pose proof (v4_close_get _ _ _ 0 Hclose) as D0%Rabs_bounds. lra.
Qed.

Lemma rotmat2qvec_canonical_sign_witness :
  0 <= tolerance / 10 <= tolerance / 10
  ∧ rotation (qvec2rotmat sample_quaternion)
  ∧ eigh_within (tolerance / 10)
      (rotmat2qvec_K (qvec2rotmat sample_quaternion))
      (sample_eigh (rotmat2qvec_K (qvec2rotmat sample_quaternion)))
  ∧ 0 <= v4_get (rotmat2qvec sample_eigh (qvec2rotmat sample_quaternion)) 0
  ∧ Rabs (v4_norm (rotmat2qvec sample_eigh (qvec2rotmat sample_quaternion))
          - 1) <= tolerance
  ∧ m3_close tolerance
      (qvec2rotmat (rotmat2qvec sample_eigh (qvec2rotmat sample_quaternion)))
      (qvec2rotmat sample_quaternion).
Proof.
  assert (Heps : 0 <= tolerance / 10 <= tolerance / 10)
    by (unfold tolerance; lra).
  pose proof (qvec2rotmat_rotation _ sample_quaternion_norm2) as Hrot.
  pose proof (eigh_spec_within (tolerance / 10) _ _ (proj1 Heps)
                sample_eigh_spec) as Hwithin.
  split; [exact Heps|]. split; [exact Hrot|]. split; [exact Hwithin|].
  destruct (rotmat2qvec_canonical_sign sample_eigh (tolerance / 10)
              (qvec2rotmat sample_quaternion) Heps Hrot Hwithin)
    as (_ & _ & Hsign & Hnorm & Hmat & _).
  split; [exact Hsign|]. split; [exact Hnorm|exact Hmat].
Defined.

(** C1 (as the code has it), for an [eigh] that returns eigenvalues and
    eigenvectors within [eps <= 1e-7] of an eigendecomposition of the
    matrix [K] at hand (exact when [eps = 0]), the other operations being
    exact. For an orthonormal matrix [A] of determinant +1,
    [qvec2rotmat (rotmat2qvec A)] is [A] within the tolerance. For a unit
    quaternion [q], [rotmat2qvec (qvec2rotmat q)] is [q] within the
    tolerance when [q[0] > eps], [-q] when [q[0] < -eps], and one of the
    two when [q[0]] is in between: the sign test of [rotmat2qvec] is made
    on the computed scalar part. *)
Theorem rotation_round_trip (eigh : M4 → V4 * M4) (eps : R) :
  0 <= eps <= tolerance / 10 →
  (∀ A : M3,
     rotation A →
     eigh_within eps (rotmat2qvec_K A) (eigh (rotmat2qvec_K A)) →
     m3_close tolerance (qvec2rotmat (rotmat2qvec eigh A)) A)
  ∧ (∀ q : V4,
       unit_quaternion q →
       eigh_within eps (rotmat2qvec_K (qvec2rotmat q))
         (eigh (rotmat2qvec_K (qvec2rotmat q))) →
       (eps < v4_get q 0 →
        v4_close tolerance (rotmat2qvec eigh (qvec2rotmat q)) q)
       ∧ (v4_get q 0 < - eps →
          v4_close tolerance (rotmat2qvec eigh (qvec2rotmat q)) (v4_opp q))
       ∧ (v4_close tolerance (rotmat2qvec eigh (qvec2rotmat q)) q
          ∨ v4_close tolerance (rotmat2qvec eigh (qvec2rotmat q)) (v4_opp q))).
Proof.
  intros Heps.
  assert (Hle : eps <= tolerance) by (unfold tolerance in *; lra).
  split.
  - intros A Hrot Hwithin.
    destruct (rotmat2qvec_near_quaternion eigh eps Heps A Hrot Hwithin)
      as (p & Hp & Hmat & Hclose).
    rewrite <- Hmat at 2. apply (qvec2rotmat_close eps); done.
  - intros q Hq%unit_quaternion_norm2 Hwithin.
    destruct (rotmat2qvec_qvec2rotmat_within eigh eps Heps q Hq Hwithin)
      as (Hpos & Hneg & Hany).
    split; [|split].
    + intros H. apply (v4_close_weaken eps); [done|]. apply Hpos, H.
    + intros H. apply (v4_close_weaken eps); [done|]. apply Hneg, H.
    + destruct Hany as [H|H]; [left|right];
        by apply (v4_close_weaken eps).
Qed.

Lemma rotation_round_trip_witness :
  0 <= tolerance / 10 <= tolerance / 10
  ∧ rotation (qvec2rotmat sample_quaternion)
  ∧ unit_quaternion sample_quaternion
  ∧ tolerance / 10 < v4_get sample_quaternion 0
  ∧ eigh_within (tolerance / 10)
      (rotmat2qvec_K (qvec2rotmat sample_quaternion))
      (sample_eigh (rotmat2qvec_K (qvec2rotmat sample_quaternion)))
  ∧ m3_close tolerance
      (qvec2rotmat (rotmat2qvec sample_eigh (qvec2rotmat sample_quaternion)))
      (qvec2rotmat sample_quaternion)
  ∧ v4_close tolerance
      (rotmat2qvec sample_eigh (qvec2rotmat sample_quaternion))
      sample_quaternion.
Proof.
  assert (Heps : 0 <= tolerance / 10 <= tolerance / 10)
    by (unfold tolerance; lra).
  pose proof sample_quaternion_norm2 as Hn.
  pose proof (qvec2rotmat_rotation _ Hn) as Hrot.
  pose proof (proj2 (unit_quaternion_norm2 _) Hn) as Hunit.
  pose proof (eigh_spec_within (tolerance / 10) _ _ (proj1 Heps)
                sample_eigh_spec) as Hwithin.
  assert (Hpos : tolerance / 10 < v4_get sample_quaternion 0)
    by (unfold tolerance; cbn; lra).
  split; [exact Heps|]. split; [exact Hrot|]. split; [exact Hunit|].
  split; [exact Hpos|]. split; [exact Hwithin|].
  destruct (rotation_round_trip sample_eigh (tolerance / 10) Heps)
    as [Hmat Hquat].
  split; [apply (Hmat _ Hrot Hwithin)|].
  apply (Hquat sample_quaternion Hunit Hwithin), Hpos.
Defined.

(** C1 (as stated) fails for quaternions whose first component is 0: the
    unit quaternions (0, 1, 0, 0) and (0, -1, 0, 0) both have [q[0] >= 0]
    and the same matrix, so whatever [eigh] returns, [rotmat2qvec] cannot
    give back both. *)
Lemma round_trip_sign_ambiguity :
  unit_quaternion (0, 1, 0, 0) ∧ 0 <= v4_get (0, 1, 0, 0) 0
  ∧ unit_quaternion (0, -1, 0, 0) ∧ 0 <= v4_get (0, -1, 0, 0) 0
  ∧ ¬ ∃ eigh : M4 → V4 * M4,
        v4_close tolerance
          (rotmat2qvec eigh (qvec2rotmat (0, 1, 0, 0))) (0, 1, 0, 0)
        ∧ v4_close tolerance
            (rotmat2qvec eigh (qvec2rotmat (0, -1, 0, 0))) (0, -1, 0, 0).
Proof.
  split; [apply unit_quaternion_norm2; cbn; lra|]. split; [cbn; lra|].
  split; [apply unit_quaternion_norm2; cbn; lra|]. split; [cbn; lra|].
  intros (eigh & H1 & H2).
  replace (qvec2rotmat (0, -1, 0, 0)) with (qvec2rotmat (0, 1, 0, 0)) in H2.
  2: { unfold qvec2rotmat. cbn. componentwise; ring. }
  destruct (rotmat2qvec eigh _) as [[[w x] y] z].
  cbn in H1, H2. destruct H1 as (_ & H1 & _), H2 as (_ & H2 & _).
  unfold tolerance in *. revert H1 H2.
  unfold Rabs. repeat destruct (Rcase_abs _); lra.
Qed.

End RotationProperties.

(* ===================================================================== *)
(** * Properties of the extrinsics parser *)
(* ===================================================================== *)



(** C6. On a document with one camera whose transform block is
    [{x:1, y:2, z:3}] with the identity rotation, [read_extrinsics_json]
    returns the mapping with the single entry 1, an image with id 1, tvec
    [1, 2, 3], qvec (1, 0, 0, 0) within the tolerance, camera id 1, name
    ["Camera_1"], and no 2D points nor 3D point ids. *)
Theorem identity_pose_image (eigh : M4 → V4 * M4) (fs : filesystem)
    (path : string) :
  fs path = Holds identity_pose_document →
  eigh_spec (rotmat2qvec_K m3_id) (eigh (rotmat2qvec_K m3_id)) →
  ∃ image,
    read_extrinsics_json eigh fs path = Ok {[ 1%Z := image ]}
    ∧ img_id image = 1%Z
    ∧ img_tvec image = [1; 2; 3]%R
    ∧ v4_close tolerance (img_qvec image) (1, 0, 0, 0)%R
    ∧ img_camera_id image = 1%Z
    ∧ img_name image = "Camera_1"
    ∧ img_xys image = []
    ∧ img_point3D_ids image = [].
Proof.
  intros Hfs Hspec.
  set (cam := JObj {[ "Transform" := JObj identity_transform ]}).
  assert (Hnum : has_numbers cam "Transform" TRANSFORM_KEYS).
  { repeat (apply Forall_cons_2; [vm_compute; eauto|]). apply Forall_nil_2. }
  exists (image_of eigh 1 cam). split.
  { rewrite (read_extrinsics_json_numbers eigh fs path identity_pose_document
               [cam] Hfs eq_refl).
    - cbn [fill]. rewrite insert_empty. done.
    - apply Forall_cons_2; [|apply Forall_nil_2].
      split; [exact Hnum|apply identity_camera_moderate]. }
  assert (HR : extrinsics_R cam = Ok m3_id) by reflexivity.
  assert (Ht : extrinsics_tvec cam = Ok [1; 2; 3]%R) by reflexivity.
  unfold image_of. cbn [img_id img_tvec img_qvec img_camera_id img_name
                        img_xys img_point3D_ids].
  rewrite HR, Ht. cbn [from_ok].
  repeat split; try reflexivity.
  rewrite <- qvec2rotmat_identity in Hspec |- *.
  assert (Hq : v4_norm2 (1, 0, 0, 0)%R = 1%R) by (cbn; lra).
  destruct (rotmat2qvec_qvec2rotmat eigh _ Hq Hspec) as (Hpos & _).
  rewrite Hpos by (cbn; lra).
  apply v4_close_refl, tolerance_nonneg.
Qed.

Lemma identity_pose_image_witness :
  sample_fs "pose.json" = Holds identity_pose_document
  ∧ eigh_spec (rotmat2qvec_K m3_id) (identity_eigh (rotmat2qvec_K m3_id))
  ∧ ∃ image,
      read_extrinsics_json identity_eigh sample_fs "pose.json"
      = Ok {[ 1%Z := image ]}
      ∧ img_tvec image = [1; 2; 3]%R
      ∧ v4_close tolerance (img_qvec image) (1, 0, 0, 0)%R
      ∧ img_name image = "Camera_1".
Proof.
  split; [reflexivity|]. split; [apply identity_eigh_spec|].
  destruct (identity_pose_image identity_eigh sample_fs "pose.json"
              eq_refl identity_eigh_spec)
    as (image & Hread & _ & Ht & Hq & _ & Hn & _).
  exists image. repeat split; assumption.
Defined.

(* ===================================================================== *)
(** * What a returned mapping always satisfies *)
(* ===================================================================== *)

(** X1. Whenever [read_intrinsics_json] returns a mapping, whatever the
    document, the mapping is complete: the model type is registered, the
    keys are exactly 1..N for the N items of the camera array, each record
    carries its key as [id] and the registry id of the requested model, and
    its [width] and [height] are the values stored at [FovVideo.Right] and
    [FovVideo.Bottom] of the element at that position. *)
Theorem returned_cameras_complete (fs : filesystem) (path : string)
    (camera_model_type : string) (cameras : gmap Z Camera) :
  read_intrinsics_json fs path camera_model_type = Ok cameras →
  ∃ data camera_model items,
    fs path = Holds data
    ∧ CAMERA_MODEL_NAMES !! camera_model_type = Some camera_model
    ∧ camera_items data = Ok items
    ∧ keyed_1_to cam_id (length items) cameras
    ∧ ∀ (i : nat) (cam : json), items !! i = Some cam →
        ∃ c, cameras !! (Z.of_nat i + 1)%Z = Some c
             ∧ cam_model c = model_id camera_model
             ∧ getitem2 cam "FovVideo" "Right" = Ok (cam_width c)
             ∧ getitem2 cam "FovVideo" "Bottom" = Ok (cam_height c).
Proof.
  intros (data & cm & items & Hfs & Hreg & Hitems & -> & Hread)
    %read_intrinsics_json_Ok_inv.
  exists data, cm, items. repeat (split; [done|]).
  split; [by apply fill_keyed|].
  intros i cam Hcam. eexists. split; [apply lookup_fill_1, Hcam|].
  rewrite Forall_lookup in Hread.
  destruct (Hread i cam Hcam) as ([w Hw] & [h Hh] & _).
  unfold camera_of. cbn [cam_model cam_width cam_height].
  rewrite Hw, Hh. done.
Qed.

Lemma returned_cameras_complete_witness :
  ∃ cameras,
    read_intrinsics_json sample_fs "rig.json" "FOV" = Ok cameras
    ∧ keyed_1_to cam_id 2 cameras
    ∧ ∃ c, cameras !! 2%Z = Some c
           ∧ cam_width c = JNum 1919 ∧ cam_height c = JNum 1087.
Proof.
  eexists. split; [reflexivity|].
  destruct (returned_cameras_complete sample_fs "rig.json" "FOV" _ eq_refl)
    as (data & cm & items & Hfs & Hreg & Hitems & Hkeyed & Hall).
  injection Hfs as <-. injection Hitems as <-.
  split; [exact Hkeyed|].
  destruct (Hall 1%nat sample_camera eq_refl) as (c & Hc & _ & Hw & Hh).
  exists c. split; [exact Hc|].
  split; [by injection Hw|by injection Hh].
Defined.



(** X3. The two mappings read from one file fit together: when both
    parsers return, they have the same keys, and the [camera_id] of every
    image is the key of a camera whose [id] it is. *)
Theorem images_refer_to_cameras (eigh : M4 → V4 * M4) (fs : filesystem)
    (path : string) (camera_model_type : string)
    (cameras : gmap Z Camera) (images : gmap Z Image) :
  read_intrinsics_json fs path camera_model_type = Ok cameras →
  read_extrinsics_json eigh fs path = Ok images →
  dom cameras = dom images
  ∧ ∀ (k : Z) (image : Image), images !! k = Some image →
      ∃ c, cameras !! img_camera_id image = Some c
           ∧ cam_id c = img_camera_id image.
Proof.
  intros (data & cm & items & Hfs & _ & Hitems & -> & _)
    %read_intrinsics_json_Ok_inv.
  intros (data' & items' & Hfs' & Hitems' & -> & _)
    %read_extrinsics_json_Ok_inv.
  rewrite Hfs in Hfs'. injection Hfs' as <-.
  rewrite Hitems in Hitems'. injection Hitems' as <-.
  pose proof (fill_keyed cam_id (camera_of camera_model_type (model_id cm))
                items (λ _ _, eq_refl)) as (_ & Hck & Hcid).
  pose proof (fill_keyed img_id (image_of eigh) items (λ _ _, eq_refl))
    as (_ & Hik & Hiid).
  split.
  - apply set_eq. intros k. rewrite !elem_of_dom, Hck, Hik. done.
  - intros k image Himage.
    assert (Hk : img_camera_id image = k).
    { apply lookup_fill_1_inv in Himage as (x & _ & ->). done. }
    rewrite Hk. destruct (proj2 (Hck k)) as [c Hc].
    { apply Hik. eauto. }
    exists c. split; [exact Hc|]. apply (Hcid _ _ Hc).
Qed.

Lemma images_refer_to_cameras_witness :
  ∃ cameras images,
    read_intrinsics_json sample_fs "rig.json" "OPENCV" = Ok cameras
    ∧ read_extrinsics_json identity_eigh sample_fs "rig.json" = Ok images
    ∧ dom cameras = dom images.
Proof.
  eexists _, _. split; [reflexivity|].
  split; [apply (read_extrinsics_sample_rig identity_eigh)|].
  apply (images_refer_to_cameras identity_eigh sample_fs "rig.json" "OPENCV"
           _ _ eq_refl (read_extrinsics_sample_rig identity_eigh)).
Defined.

(** X4. The names of the images of a returned mapping are pairwise
    distinct: two entries with the same name have the same key. *)
Theorem image_names_distinct (eigh : M4 → V4 * M4) (fs : filesystem)
    (path : string) (images : gmap Z Image)
    (k1 k2 : Z) (image1 image2 : Image) :
  read_extrinsics_json eigh fs path = Ok images →
  images !! k1 = Some image1 → images !! k2 = Some image2 →
  img_name image1 = img_name image2 → k1 = k2.
Proof.
  intros (data & items & _ & _ & -> & _)%read_extrinsics_json_Ok_inv.
  intros (x1 & _ & ->)%lookup_fill_1_inv (x2 & _ & ->)%lookup_fill_1_inv.
  unfold image_of. cbn [img_name]. intros H.
  apply (inj (String.append "Camera_")) in H. by apply (inj pretty) in H.
Qed.

Lemma image_names_distinct_witness :
  ∃ images image1 image2,
    read_extrinsics_json identity_eigh sample_fs "rig.json" = Ok images
    ∧ images !! 1%Z = Some image1 ∧ images !! 2%Z = Some image2
    ∧ img_name image1 ≠ img_name image2.
Proof.
  eexists _, _, _.
  split; [apply (read_extrinsics_sample_rig identity_eigh)|].
  split; [reflexivity|]. split; [reflexivity|].
  intros Hname.
  discriminate (image_names_distinct identity_eigh sample_fs "rig.json" _
                  1%Z 2%Z _ _ (read_extrinsics_sample_rig identity_eigh)
                  eq_refl eq_refl Hname).
Defined.

(* ===================================================================== *)
(** * Documents without a camera list *)
(* ===================================================================== *)

(** X5. When [Cameras] holds something else than a list, both parsers
    return the empty mapping if it is an empty dict or an empty string, and
    raise [TypeError] otherwise (a dict or string that is not empty, a
    number, a boolean, null). An empty list gives the empty mapping too. *)
Theorem cameras_not_a_list (eigh : M4 → V4 * M4) (fs : filesystem)
    (path : string) (data v : json) (camera_model_type : string) :
  fs path = Holds data → field data "Cameras" = Some v →
  is_Some (CAMERA_MODEL_NAMES !! camera_model_type) →
  (empty_container v = true →
   read_intrinsics_json fs path camera_model_type = Ok ∅
   ∧ read_extrinsics_json eigh fs path = Ok ∅)
  ∧ (empty_container v = false → (∀ l, v ≠ JArr l) →
     read_intrinsics_json fs path camera_model_type = Raise TypeError
     ∧ read_extrinsics_json eigh fs path = Raise TypeError).
Proof.
  intros Hfs Hv [cm Hreg].
  unfold read_intrinsics_json, read_extrinsics_json, extrinsics_loop, load.
  rewrite Hfs, !bind_Ok, Hreg, (getitem_field _ _ _ Hv), !bind_Ok.
  split.
  - intros Hempty.
    assert (Hiter : iter v = Ok []).
    { destruct v as [| | |s|[|x l]|m]; try discriminate Hempty; [|done|].
      - pose proof (iter_not_list (JStr s)) as H.
        rewrite Hempty in H. apply H. congruence.
      - pose proof (iter_not_list (JObj m)) as H.
        rewrite Hempty in H. apply H. congruence. }
    rewrite Hiter, !bind_Ok. done.
  - intros Hempty Hnl. pose proof (iter_not_list v Hnl) as H.
    rewrite Hempty in H. destruct H as [-> | (name & rest & ->)]; [done|].
    rewrite !bind_Ok. cbn [for_enumerate]. unfold st_bind.
    rewrite intrinsics_body_string, extrinsics_body_string. done.
Qed.

Lemma cameras_not_a_list_witness :
  (read_intrinsics_json extra_fs "nothing.json" "OPENCV" = Ok ∅
   ∧ read_extrinsics_json identity_eigh extra_fs "nothing.json" = Ok ∅)
  ∧ (read_intrinsics_json extra_fs "text.json" "OPENCV" = Raise TypeError
     ∧ read_extrinsics_json identity_eigh extra_fs "text.json"
       = Raise TypeError).
Proof.
  split.
  - apply (cameras_not_a_list identity_eigh extra_fs "nothing.json" _
             (JObj ∅) "OPENCV" eq_refl eq_refl); [vm_compute; eauto|].
    reflexivity.
  - apply (cameras_not_a_list identity_eigh extra_fs "text.json" _
             (JStr "Miqus") "OPENCV" eq_refl eq_refl);
      [vm_compute; eauto|reflexivity|discriminate].
Defined.

(** X6. A decoded document without the key [Cameras] makes both parsers
    raise [KeyError "Cameras"] when it is an object, and [TypeError] when it
    is anything else (a list, a string, a number, null); for the
    intrinsics this holds for every registered model type. *)
Theorem missing_camera_array (eigh : M4 → V4 * M4) (fs : filesystem)
    (path : string) (data : json) (camera_model_type : string) :
  fs path = Holds data → field data "Cameras" = None →
  is_Some (CAMERA_MODEL_NAMES !! camera_model_type) →
  let e := match data with
           | JObj _ => KeyError "Cameras"
           | _ => TypeError
           end in
  read_intrinsics_json fs path camera_model_type = Raise e
  ∧ read_extrinsics_json eigh fs path = Raise e.
Proof.
  intros Hfs Hnone [cm Hreg] e.
  unfold read_intrinsics_json, read_extrinsics_json, extrinsics_loop, load.
  rewrite Hfs, !bind_Ok, Hreg.
  destruct data as [| | | | |d]; try done.
  cbn in Hnone. subst e. cbn. rewrite Hnone. done.
Qed.

Lemma missing_camera_array_witness :
  read_intrinsics_json extra_fs "nocameras.json" "PINHOLE"
  = Raise (KeyError "Cameras")
  ∧ read_extrinsics_json identity_eigh extra_fs "nocameras.json"
    = Raise (KeyError "Cameras").
Proof.
  apply (missing_camera_array identity_eigh extra_fs "nocameras.json"
           (JObj ∅) "PINHOLE" eq_refl eq_refl).
  vm_compute. eauto.
Defined.

(* ===================================================================== *)
(** * Which fields each model type reads *)
(* ===================================================================== *)

(** X7. With model type ["PINHOLE"] the parser reads, of every element,
    the two bounds of the field of view and the four intrinsics focal
    length U, V and centre point U, V, and nothing else: when these are
    present (the four intrinsics as numbers) it returns, at each position, a
    camera with model id 1 whose [params] are those four numbers in this
    order. Distortion coefficients and transform need not exist. *)
Theorem pinhole_params_in_order (fs : filesystem) (path : string)
    (data : json) (cams : list json) :
  fs path = Holds data → field data "Cameras" = Some (JArr cams) →
  Forall (λ cam, is_Some (value_at cam "FovVideo" "Right")
                 ∧ is_Some (value_at cam "FovVideo" "Bottom")
                 ∧ has_numbers cam "Intrinsic"
                     [ "FocalLengthU"; "FocalLengthV";
                       "CenterPointU"; "CenterPointV" ]) cams →
  ∃ cameras,
    read_intrinsics_json fs path "PINHOLE" = Ok cameras
    ∧ keyed_1_to cam_id (length cams) cameras
    ∧ ∀ (i : nat) (cam : json), cams !! i = Some cam →
        ∃ c, cameras !! (Z.of_nat i + 1)%Z = Some c
             ∧ cam_model c = 1%Z
             ∧ mapM (number_at cam "Intrinsic")
                 [ "FocalLengthU"; "FocalLengthV";
                   "CenterPointU"; "CenterPointV" ]
               = Some (cam_params c)
             ∧ length (cam_params c) = 4%nat.
Proof.
  intros Hfs Hcams Hall.
  assert (Hread : read_intrinsics_json fs path "PINHOLE"
                  = Ok (fill (camera_of "PINHOLE" 1) 1 cams ∅)).
  { unfold read_intrinsics_json, load.
    rewrite Hfs, bind_Ok.
    change (CAMERA_MODEL_NAMES !! "PINHOLE")
      with (Some (mkCameraModel 1 "PINHOLE" 4)).
    cbn [model_id]. rewrite (getitem_field _ _ _ Hcams), bind_Ok.
    unfold iter. rewrite bind_Ok.
    rewrite (for_enumerate_fill _ (camera_of "PINHOLE" 1)); [done|].
    eapply Forall_impl; [exact Hall|].
    intros cam ([w Hw] & [h Hh] & Hi) idx s.
    apply getitem2_value_at in Hw, Hh.
    destruct (intrinsics_params_PINHOLE cam Hi) as (ps & _ & Hps).
    unfold intrinsics_body, camera_of, st_bind, st_lift, st_modify.
    rewrite Hw, Hh, Hps. done. }
  eexists. split; [exact Hread|]. split; [by apply fill_keyed|].
  intros i cam Hcam. eexists. split; [apply lookup_fill_1, Hcam|].
  rewrite Forall_lookup in Hall. destruct (Hall i cam Hcam) as (_ & _ & Hi).
  destruct (intrinsics_params_PINHOLE cam Hi) as (ps & Hps & Hparams).
  unfold camera_of. cbn [cam_model cam_params]. rewrite Hparams.
  cbn [from_ok]. split; [done|]. split; [exact Hps|].
  apply length_mapM in Hps. rewrite <- Hps. done.
Qed.

Lemma pinhole_params_in_order_witness :
  ∃ cameras,
    read_intrinsics_json extra_fs "pinhole.json" "PINHOLE" = Ok cameras
    ∧ ∃ c, cameras !! 1%Z = Some c
           ∧ cam_params c = [1100; 1101; 960; 544]%R.
Proof.
  destruct (pinhole_params_in_order extra_fs "pinhole.json" _
              [pinhole_camera] eq_refl eq_refl)
    as (cameras & Hread & _ & Hall).
  { apply Forall_cons_2; [|apply Forall_nil_2].
    split; [vm_compute; eauto|]. split; [vm_compute; eauto|].
    repeat (apply Forall_cons_2; [vm_compute; eauto|]). apply Forall_nil_2. }
  exists cameras. split; [exact Hread|].
  destruct (Hall 0%nat pinhole_camera eq_refl) as (c & Hc & _ & Hps & _).
  exists c. split; [exact Hc|]. by injection Hps.
Defined.

(** X8. With a registered model type other than ["OPENCV"] and
    ["PINHOLE"] the parser reads nothing but the field of view: when every
    element has [FovVideo.Right] and [FovVideo.Bottom] it returns, at each
    position k, the camera with id k, the registry id of the model, these
    two values as [width] and [height] and no parameters, whether or not
    the element has intrinsics. *)
Theorem unhandled_model_reads_field_of_view (fs : filesystem) (path : string)
    (data : json) (cams : list json)
    (camera_model_type : string) (camera_model : CameraModel) :
  fs path = Holds data → field data "Cameras" = Some (JArr cams) →
  CAMERA_MODEL_NAMES !! camera_model_type = Some camera_model →
  camera_model_type ≠ "OPENCV" → camera_model_type ≠ "PINHOLE" →
  Forall (λ cam, is_Some (value_at cam "FovVideo" "Right")
                 ∧ is_Some (value_at cam "FovVideo" "Bottom")) cams →
  ∃ cameras,
    read_intrinsics_json fs path camera_model_type = Ok cameras
    ∧ keyed_1_to cam_id (length cams) cameras
    ∧ ∀ (i : nat) (cam : json), cams !! i = Some cam →
        ∃ w h, value_at cam "FovVideo" "Right" = Some w
               ∧ value_at cam "FovVideo" "Bottom" = Some h
               ∧ cameras !! (Z.of_nat i + 1)%Z
                 = Some (mkCamera (Z.of_nat i + 1) (model_id camera_model)
                           w h []).
Proof.
  intros Hfs Hcams Hreg Hno Hnp Hall.
  assert (Hread : read_intrinsics_json fs path camera_model_type
                  = Ok (fill (camera_of camera_model_type
                                (model_id camera_model)) 1 cams ∅)).
  { unfold read_intrinsics_json, load.
    rewrite Hfs, bind_Ok, Hreg, (getitem_field _ _ _ Hcams), bind_Ok.
    unfold iter. rewrite bind_Ok.
    rewrite (for_enumerate_fill _ (camera_of camera_model_type
                                     (model_id camera_model))); [done|].
    eapply Forall_impl; [exact Hall|].
    intros cam ([w Hw] & [h Hh]) idx s.
    apply getitem2_value_at in Hw, Hh.
    unfold intrinsics_body, camera_of, st_bind, st_lift, st_modify.
    rewrite Hw, Hh, intrinsics_params_other by done. done. }
  eexists. split; [exact Hread|]. split; [by apply fill_keyed|].
  intros i cam Hcam.
  rewrite Forall_lookup in Hall.
  destruct (Hall i cam Hcam) as ([w Hw] & [h Hh]).
  exists w, h. split; [done|]. split; [done|].
  rewrite (lookup_fill_1 _ _ _ _ Hcam). unfold camera_of.
  apply getitem2_value_at in Hw, Hh.
  rewrite Hw, Hh, intrinsics_params_other by done. done.
Qed.

Lemma unhandled_model_reads_field_of_view_witness :
  ∃ cameras,
    read_intrinsics_json extra_fs "fov.json" "FULL_OPENCV" = Ok cameras
    ∧ cameras !! 2%Z = Some (mkCamera 2 6 (JNum 1919) (JNum 1087) [])
    ∧ read_intrinsics_json extra_fs "fov.json" "OPENCV"
      = Raise (KeyError "Intrinsic").
Proof.
  destruct (unhandled_model_reads_field_of_view extra_fs "fov.json" _
              [fov_only_camera; fov_only_camera] "FULL_OPENCV"
              (mkCameraModel 6 "FULL_OPENCV" 12) eq_refl eq_refl eq_refl)
    as (cameras & Hread & _ & Hall); [discriminate|discriminate| |].
  { repeat (apply Forall_cons_2; [split; vm_compute; eauto|]).
    apply Forall_nil_2. }
  exists cameras. split; [exact Hread|]. split; [|reflexivity].
  destruct (Hall 1%nat fov_only_camera eq_refl) as (w & h & Hw & Hh & Hc).
  injection Hw as <-. injection Hh as <-. exact Hc.
Defined.

(** X9. [read_intrinsics_json] is all or nothing too: when some item of the
    camera array lacks a bound of its field of view, or lacks one of the
    intrinsics the model type reads (eight for ["OPENCV"], the first four
    for ["PINHOLE"]), no mapping is returned. *)
Theorem missing_field_aborts_intrinsics (fs : filesystem) (path : string)
    (data : json) (items : list json) (camera_model_type : string)
    (bad : json) :
  fs path = Holds data → camera_items data = Ok items → bad ∈ items →
  value_at bad "FovVideo" "Right" = None
  ∨ value_at bad "FovVideo" "Bottom" = None
  ∨ (camera_model_type = "OPENCV"
     ∧ ∃ k, k ∈ [ "FocalLengthU"; "FocalLengthV";
                  "CenterPointU"; "CenterPointV";
                  "RadialDistortion1"; "RadialDistortion2";
                  "TangentalDistortion1"; "TangentalDistortion2" ]
            ∧ value_at bad "Intrinsic" k = None)
  ∨ (camera_model_type = "PINHOLE"
     ∧ ∃ k, k ∈ [ "FocalLengthU"; "FocalLengthV";
                  "CenterPointU"; "CenterPointV" ]
            ∧ value_at bad "Intrinsic" k = None) →
  ∀ cameras, read_intrinsics_json fs path camera_model_type ≠ Ok cameras.
Proof.
  intros Hfs Hitems Hbad Hlack cameras
    (data' & cm & items' & Hfs' & _ & Hitems' & _ & Hread)
    %read_intrinsics_json_Ok_inv.
  rewrite Hfs in Hfs'. injection Hfs' as <-.
  rewrite Hitems in Hitems'. injection Hitems' as <-.
  rewrite Forall_forall in Hread.
  destruct (Hread bad Hbad) as ([w Hw] & [h Hh] & [ps Hps]).
  apply getitem2_value_at in Hw, Hh.
  destruct Hlack as [H|[H|[(-> & k & Hk & H)|(-> & k & Hk & H)]]];
    try congruence.
  - unfold intrinsics_params in Hps. rewrite decide_True in Hps by done.
    apply bind_Ok_inv in Hps as (vs & Hvs%mapM_result_Ok_inv & _).
    rewrite Forall_forall in Hvs. destruct (Hvs k Hk) as [v Hv].
    apply getitem2_value_at in Hv. congruence.
  - unfold intrinsics_params in Hps.
    rewrite decide_False, decide_True in Hps by done.
    apply bind_Ok_inv in Hps as (vs & Hvs%mapM_result_Ok_inv & _).
    rewrite Forall_forall in Hvs. destruct (Hvs k Hk) as [v Hv].
    apply getitem2_value_at in Hv. congruence.
Qed.

Lemma missing_field_aborts_intrinsics_witness :
  value_at fov_only_camera "Intrinsic" "CenterPointV" = None
  ∧ ∀ cameras,
      read_intrinsics_json extra_fs "fov.json" "PINHOLE" ≠ Ok cameras.
Proof.
  split; [reflexivity|].
  apply (missing_field_aborts_intrinsics extra_fs "fov.json" _
           [fov_only_camera; fov_only_camera] "PINHOLE" fov_only_camera
           eq_refl eq_refl).
  - apply list_elem_of_here.
  - right. right. right. split; [reflexivity|].
    exists "CenterPointV". split; [|reflexivity].
    do 3 apply list_elem_of_further. apply list_elem_of_here.
Defined.

(* ===================================================================== *)
(** * The registry and the records *)
(* ===================================================================== *)

(** X10. The two dictionaries of the registry are inverse to each other:
    the model found under a name has that name and is the model found
    under its id, and the model found under an id has that id and is the
    model found under its name. *)
Theorem registry_names_and_ids (camera_model : CameraModel) :
  (∀ name : string,
     CAMERA_MODEL_NAMES !! name = Some camera_model →
     model_name camera_model = name
     ∧ CAMERA_MODEL_IDS !! model_id camera_model = Some camera_model)
  ∧ (∀ id : Z,
       CAMERA_MODEL_IDS !! id = Some camera_model →
       model_id camera_model = id
       ∧ CAMERA_MODEL_NAMES !! model_name camera_model = Some camera_model).
Proof.
  split.
  - intros name [Hin Hname]%CAMERA_MODEL_NAMES_registered.
    split; [done|]. by apply CAMERA_MODEL_IDS_lookup.
  - intros id H. unfold CAMERA_MODEL_IDS in H.
    apply elem_of_list_to_map_2, list_elem_of_fmap in H
      as (cm & [= -> ->] & Hcm).
    split; [done|]. by apply CAMERA_MODEL_NAMES_lookup.
Qed.

Lemma registry_names_and_ids_witness :
  CAMERA_MODEL_NAMES !! "OPENCV" = Some (mkCameraModel 4 "OPENCV" 8)
  ∧ CAMERA_MODEL_IDS !! 4%Z = Some (mkCameraModel 4 "OPENCV" 8).
Proof.
  split; [reflexivity|].
  apply (proj1 (registry_names_and_ids (mkCameraModel 4 "OPENCV" 8))
           "OPENCV" eq_refl).
Defined.

(** X11. The [model] of a returned camera resolves through
    [CAMERA_MODEL_IDS] to the requested model. The number of its [params]
    is the registry's [num_params] for ["OPENCV"] (8) and ["PINHOLE"] (4);
    for every other registered model the record has no parameters, fewer
    than the registry announces. *)
Theorem params_against_registry (fs : filesystem) (path : string)
    (camera_model_type : string) (cameras : gmap Z Camera)
    (k : Z) (c : Camera) :
  read_intrinsics_json fs path camera_model_type = Ok cameras →
  cameras !! k = Some c →
  ∃ camera_model,
    CAMERA_MODEL_IDS !! cam_model c = Some camera_model
    ∧ model_name camera_model = camera_model_type
    ∧ if decide (camera_model_type = "OPENCV"
                 ∨ camera_model_type = "PINHOLE")
      then Z.of_nat (length (cam_params c)) = num_params camera_model
      else cam_params c = []
           ∧ (Z.of_nat (length (cam_params c)) < num_params camera_model)%Z.
Proof.
  intros (data & cm & items & _ & Hreg & _ & -> & Hread)
    %read_intrinsics_json_Ok_inv.
  intros (cam & Hcam%list_elem_of_lookup_2 & ->)%lookup_fill_1_inv.
  rewrite Forall_forall in Hread.
  destruct (Hread cam Hcam) as (_ & _ & [ps Hps]).
  apply CAMERA_MODEL_NAMES_registered in Hreg as Hcm.
  destruct Hcm as [Hin Hname].
  exists cm. unfold camera_of. cbn [cam_model cam_params].
  split; [by apply CAMERA_MODEL_IDS_lookup|]. split; [done|].
  rewrite Hps. cbn [from_ok].
  unfold intrinsics_params in Hps.
  destruct (decide (camera_model_type = "OPENCV")) as [->|Hno].
  { rewrite decide_True by auto.
    apply bind_Ok_inv in Hps as (vs & Hvs%mapM_result_length & Hps).
    apply mapM_result_length in Hps. rewrite Hps, Hvs.
    injection Hreg as <-. done. }
  destruct (decide (camera_model_type = "PINHOLE")) as [->|Hnp].
  { rewrite decide_True by auto.
    apply bind_Ok_inv in Hps as (vs & Hvs%mapM_result_length & Hps).
    apply mapM_result_length in Hps. rewrite Hps, Hvs.
    injection Hreg as <-. done. }
  rewrite decide_False by tauto. injection Hps as <-.
  split; [done|]. cbn [length].
  clear -Hin. unfold CAMERA_MODELS in Hin.
  repeat (apply elem_of_cons in Hin as [->|Hin]; [done|]).
  by apply elem_of_nil in Hin.
Qed.

Lemma params_against_registry_witness :
  ∃ cameras c,
    read_intrinsics_json sample_fs "rig.json" "RADIAL" = Ok cameras
    ∧ cameras !! 1%Z = Some c
    ∧ ∃ camera_model,
        CAMERA_MODEL_IDS !! cam_model c = Some camera_model
        ∧ model_name camera_model = "RADIAL"
        ∧ cam_params c = []
        ∧ (0 < num_params camera_model)%Z.
Proof.
  eexists _, _. split; [reflexivity|]. split; [reflexivity|].
  destruct (params_against_registry sample_fs "rig.json" "RADIAL" _ 1%Z _
              eq_refl eq_refl) as (cm & Hid & Hname & Hps).
  exists cm. split; [exact Hid|]. split; [exact Hname|].
  rewrite decide_False in Hps by (intros [?|?]; discriminate).
  destruct Hps as [Hnil Hlt]. split; [exact Hnil|].
  rewrite Hnil in Hlt. exact Hlt.
Defined.

(* ===================================================================== *)
(** * Quaternions and rotation matrices *)
(* ===================================================================== *)

Section QuaternionProperties.
Local Open Scope R_scope.

(** X12. The matrix of a unit quaternion is orthonormal with
    determinant +1. *)
Theorem unit_quaternion_gives_rotation (q : V4) :
  unit_quaternion q → rotation (qvec2rotmat q).
Proof. intros Hq%unit_quaternion_norm2. apply qvec2rotmat_rotation, Hq. Qed.

Lemma unit_quaternion_gives_rotation_witness :
  unit_quaternion sample_quaternion ∧ rotation (qvec2rotmat sample_quaternion).
Proof.
  assert (H : unit_quaternion sample_quaternion).
  { apply unit_quaternion_norm2, sample_quaternion_norm2. }
  split; [exact H|]. apply (unit_quaternion_gives_rotation _ H).
Defined.

(** X13. Every orthonormal matrix of determinant +1 is the matrix of a
    unit quaternion, and of one whose first component is not negative. *)
Theorem rotation_comes_from_quaternion (A : M3) :
  rotation A →
  ∃ q, unit_quaternion q ∧ 0 <= v4_get q 0 ∧ qvec2rotmat q = A.
Proof.
  intros (q & Hq & <-)%rotation_has_quaternion.
  destruct (Rle_dec 0 (v4_get q 0)) as [Hpos|Hneg].
  - exists q. split; [by apply unit_quaternion_norm2|]. done.
  - exists (v4_opp q). split; [|split].
    + apply unit_quaternion_norm2. by rewrite v4_norm2_opp.
    + destruct q as [[[w x] y] z]. cbn in *. lra.
    + apply qvec2rotmat_opp.
Qed.

Lemma rotation_comes_from_quaternion_witness :
  rotation m3_id
  ∧ ∃ q, unit_quaternion q ∧ 0 <= v4_get q 0 ∧ qvec2rotmat q = m3_id.
Proof.
  assert (H : rotation m3_id).
  { rewrite <- qvec2rotmat_identity. apply qvec2rotmat_rotation. cbn. lra. }
  split; [exact H|]. apply (rotation_comes_from_quaternion _ H).
Defined.

(** X14. Two unit quaternions have the same matrix exactly when they are
    equal or opposite. *)
Theorem same_matrix_iff_equal_or_opposite (q r : V4) :
  unit_quaternion q → unit_quaternion r →
  qvec2rotmat r = qvec2rotmat q ↔ r = q ∨ r = v4_opp q.
Proof.
  intros Hq%unit_quaternion_norm2 Hr%unit_quaternion_norm2. split.
  - apply qvec2rotmat_inj; done.
  - intros [-> | ->]; [done|apply qvec2rotmat_opp].
Qed.

Lemma same_matrix_iff_equal_or_opposite_witness :
  unit_quaternion sample_quaternion
  ∧ unit_quaternion (v4_opp sample_quaternion)
  ∧ qvec2rotmat (v4_opp sample_quaternion) = qvec2rotmat sample_quaternion.
Proof.
  assert (H : unit_quaternion sample_quaternion).
  { apply unit_quaternion_norm2, sample_quaternion_norm2. }
  assert (H' : unit_quaternion (v4_opp sample_quaternion)).
  { apply unit_quaternion_norm2. rewrite v4_norm2_opp.
    apply sample_quaternion_norm2. }
  split; [exact H|]. split; [exact H'|].
  apply (same_matrix_iff_equal_or_opposite _ _ H H'). by right.
Defined.

(** X15. [qvec2rotmat] does not normalize its argument: for a unit
    quaternion [q] and a factor [k] other than 0, 1 and -1, the matrix of
    [k q] is orthonormal only when [q] is (1, 0, 0, 0) or (-1, 0, 0, 0),
    the quaternions of the identity. *)
Theorem scaled_quaternion_not_rotation (q : V4) (k : R) :
  unit_quaternion q → k ≠ 0 → k ≠ 1 → k ≠ -1 →
  m3_mul (m3_transpose (qvec2rotmat (v4_scale k q)))
    (qvec2rotmat (v4_scale k q)) = m3_id →
  q = (1, 0, 0, 0) ∨ q = (-1, 0, 0, 0).
Proof.
  intros Hq%unit_quaternion_norm2 Hk0 Hk1 Hk1' Horth.
  destruct q as [[[w x] y] z]. cbn in Hq, Horth.
  injection Horth as H1 _ _ _ H5 _ _ _ _.
  assert (Hk : k * k * (1 - k * k) ≠ 0).
  { intros H. apply Rmult_integral in H as [H|H]; [nra|].
    assert ((k - 1) * (k + 1) = 0) as [?|?]%Rmult_integral by lra; lra. }
  assert (Hyz : k * k * (1 - k * k) * (y * y + z * z) = 0) by nsatz.
  assert (Hxz : k * k * (1 - k * k) * (x * x + z * z) = 0) by nsatz.
  apply Rmult_integral in Hyz as [?|Hyz]; [done|].
  apply Rmult_integral in Hxz as [?|Hxz]; [done|].
  assert (x = 0) by nra. assert (y = 0) by nra. assert (z = 0) by nra.
  subst x y z.
  assert ((w - 1) * (w + 1) = 0) as [?|?]%Rmult_integral by lra;
    [left|right]; f_equal; f_equal; f_equal; lra.
Qed.

Lemma scaled_quaternion_not_rotation_witness :
  unit_quaternion sample_quaternion
  ∧ m3_mul (m3_transpose (qvec2rotmat (v4_scale 2 sample_quaternion)))
      (qvec2rotmat (v4_scale 2 sample_quaternion)) ≠ m3_id.
Proof.
  assert (H : unit_quaternion sample_quaternion).
  { apply unit_quaternion_norm2, sample_quaternion_norm2. }
  split; [exact H|]. intros Horth.
  destruct (scaled_quaternion_not_rotation sample_quaternion 2 H) as [Hq|Hq];
    try lra; try exact Horth;
    unfold sample_quaternion in Hq; injection Hq; lra.
Defined.

(** X16. For an orthonormal matrix [A] of determinant +1, the symmetric
    matrix [K] that [rotmat2qvec] hands to [eigh] has 1 as an eigenvalue
    and no eigenvalue other than 1 and -1/3: the largest eigenvalue, which
    [argmax] selects, is 1. *)
Theorem K_eigenvalues_of_rotation (A : M3) :
  rotation A →
  (∃ u : V4, u ≠ (0, 0, 0, 0)
     ∧ m4_mulv (sym_lower (rotmat2qvec_K A)) u = v4_scale 1 u)
  ∧ ∀ (u : V4) (ev : R),
      u ≠ (0, 0, 0, 0) →
      m4_mulv (sym_lower (rotmat2qvec_K A)) u = v4_scale ev u →
      ev = 1 ∨ ev = - (1 / 3).
Proof.
  destruct A as [[[[a b] c] [[d e] f]] [[g h] i]]. intros Hrot. split.
  - apply K_has_eigenvalue_one, Hrot.
  - intros u ev Hu E.
    destruct (K_spectrum a b c d e f g h i Hrot u ev Hu E); auto.
Qed.

Lemma K_eigenvalues_of_rotation_witness :
  rotation (qvec2rotmat sample_quaternion)
  ∧ m4_mulv (sym_lower (rotmat2qvec_K (qvec2rotmat sample_quaternion)))
      (4 / 5, 0, 0, 3 / 5)
    = v4_scale 1 (4 / 5, 0, 0, 3 / 5)
  ∧ ∀ (u : V4) (ev : R),
      u ≠ (0, 0, 0, 0) →
      m4_mulv (sym_lower (rotmat2qvec_K (qvec2rotmat sample_quaternion))) u
      = v4_scale ev u →
      ev = 1 ∨ ev = - (1 / 3).
Proof.
  pose proof (qvec2rotmat_rotation _ sample_quaternion_norm2) as Hrot.
  split; [exact Hrot|]. split.
  - cbn. componentwise; lra.
  - apply (K_eigenvalues_of_rotation _ Hrot).
Defined.

(** X17. The quaternion computed from an orthonormal matrix of
    determinant +1 does not depend on the eigensolver, up to sign: two
    functions [eigh] that meet the contract give equal or opposite results,
    and equal results as soon as the first component of one is not 0. *)
Theorem rotmat2qvec_any_eigensolver (eigh1 eigh2 : M4 → V4 * M4) (A : M3) :
  rotation A →
  eigh_spec (rotmat2qvec_K A) (eigh1 (rotmat2qvec_K A)) →
  eigh_spec (rotmat2qvec_K A) (eigh2 (rotmat2qvec_K A)) →
  (rotmat2qvec eigh2 A = rotmat2qvec eigh1 A
   ∨ rotmat2qvec eigh2 A = v4_opp (rotmat2qvec eigh1 A))
  ∧ (v4_get (rotmat2qvec eigh1 A) 0 ≠ 0 →
     rotmat2qvec eigh2 A = rotmat2qvec eigh1 A).
Proof.
  intros Hrot H1 H2.
  pose proof (rotmat2qvec_unit eigh1 A H1) as Hu1.
  pose proof (rotmat2qvec_unit eigh2 A H2) as Hu2.
  pose proof (rotmat2qvec_first_nonneg eigh1 A) as Hs1.
  pose proof (rotmat2qvec_first_nonneg eigh2 A) as Hs2.
  pose proof (qvec2rotmat_rotmat2qvec eigh1 A Hrot H1) as Hm1.
  pose proof (qvec2rotmat_rotmat2qvec eigh2 A Hrot H2) as Hm2.
  rewrite <- Hm1 in Hm2 at 2.
  destruct (qvec2rotmat_inj _ _ Hu1 Hu2 Hm2) as [Heq|Heq].
  - split; [by left|done].
  - split; [by right|]. intros Hne. exfalso.
    rewrite Heq in Hs2.
    destruct (rotmat2qvec eigh1 A) as [[[w x] y] z]. cbn in *. lra.
Qed.

Lemma rotmat2qvec_any_eigensolver_witness :
  rotmat2qvec (λ _, quaternion_eigh (v4_opp sample_quaternion))
    (qvec2rotmat sample_quaternion)
  = rotmat2qvec sample_eigh (qvec2rotmat sample_quaternion).
Proof.
  pose proof sample_quaternion_norm2 as Hn.
  assert (Hn' : v4_norm2 (v4_opp sample_quaternion) = 1).
  { by rewrite v4_norm2_opp. }
  apply (rotmat2qvec_any_eigensolver sample_eigh
           (λ _, quaternion_eigh (v4_opp sample_quaternion))
           (qvec2rotmat sample_quaternion)).
  - apply qvec2rotmat_rotation, Hn.
  - apply sample_eigh_spec.
  - rewrite <- (qvec2rotmat_opp sample_quaternion).
    apply quaternion_eigh_spec, Hn'.
  - unfold sample_eigh. rewrite rotmat2qvec_quaternion_eigh. cbn.
    destruct (Rlt_dec (3 / 5) 0); cbn; lra.
Defined.

End QuaternionProperties.

(* ===================================================================== *)
(** * The rotation of a parsed pose *)
(* ===================================================================== *)

Section ParsedPose.
Local Open Scope R_scope.

(** X18. Reading a pose and asking the image for its matrix gives back the
    matrix of the document: when the nine entries [r11..r33] of an element
    form an orthonormal matrix of determinant +1 and [eigh] meets its
    contract on the matrix [K] of it, [Image.qvec2rotmat] of the image
    returned for that element is that matrix, and its quaternion has norm
    1 (exact arithmetic). *)
Theorem parsed_pose_matrix (eigh : M4 → V4 * M4) (fs : filesystem)
    (path : string) (images : gmap Z Image) (k : Z) (image : Image) :
  read_extrinsics_json eigh fs path = Ok images →
  images !! k = Some image →
  ∃ data items cam r11 r12 r13 r21 r22 r23 r31 r32 r33,
    fs path = Holds data ∧ camera_items data = Ok items
    ∧ items !! Z.to_nat (k - 1) = Some cam
    ∧ mapM (number_at cam "Transform")
        [ "r11"; "r12"; "r13"; "r21"; "r22"; "r23"; "r31"; "r32"; "r33" ]
      = Some [r11; r12; r13; r21; r22; r23; r31; r32; r33]
    ∧ let A : M3 := ((r11, r12, r13), (r21, r22, r23), (r31, r32, r33)) in
      rotation A →
      eigh_spec (rotmat2qvec_K A) (eigh (rotmat2qvec_K A)) →
      Image_qvec2rotmat image = A ∧ unit_quaternion (img_qvec image).
Proof.
  intros (data & items & Hfs & Hitems & -> & Hread)
    %read_extrinsics_json_Ok_inv.
  intros (cam & Hcam & ->)%lookup_fill_1_inv.
  rewrite Forall_lookup in Hread.
  destruct (Hread _ _ Hcam) as (_ & [Rm HR]).
  destruct (extrinsics_R_Ok_inv cam Rm HR)
    as (r11 & r12 & r13 & r21 & r22 & r23 & r31 & r32 & r33 & Hnum & ->).
  exists data, items, cam, r11, r12, r13, r21, r22, r23, r31, r32, r33.
  repeat (split; [done|]). intros A Hrot Hspec.
  unfold Image_qvec2rotmat, image_of. cbn [img_qvec]. rewrite HR.
  cbn [from_ok]. split.
  - apply qvec2rotmat_rotmat2qvec; done.
  - apply unit_quaternion_norm2, rotmat2qvec_unit, Hspec.
Qed.

Lemma parsed_pose_matrix_witness :
  ∃ images image,
    read_extrinsics_json identity_eigh sample_fs "pose.json" = Ok images
    ∧ images !! 1%Z = Some image
    ∧ Image_qvec2rotmat image = m3_id
    ∧ unit_quaternion (img_qvec image).
Proof.
  eexists _, _.
  split; [apply (read_extrinsics_identity_pose identity_eigh)|].
  split; [reflexivity|].
  destruct (parsed_pose_matrix identity_eigh sample_fs "pose.json" _ 1%Z _
              (read_extrinsics_identity_pose identity_eigh) eq_refl)
    as (data & items & cam & r11 & r12 & r13 & r21 & r22 & r23
        & r31 & r32 & r33 & Hfs & Hitems & Hcam & Hnum & H).
  injection Hfs as <-. injection Hitems as <-. injection Hcam as <-.
  injection Hnum as <- <- <- <- <- <- <- <- <-.
  apply H; [|apply identity_eigh_spec].
  change (rotation m3_id).
  rewrite <- qvec2rotmat_identity. apply qvec2rotmat_rotation. cbn. lra.
Defined.

End ParsedPose.

(* ===================================================================== *)
(** * The arrows drawn for the cameras *)
(* ===================================================================== *)

Section Arrows.
Local Open Scope R_scope.

(** The direction drawn for a camera is the third row of its matrix,
    negated; for a unit quaternion it has length 1. *)
Lemma camera_orientation_unit (image : Image) :
  v4_norm2 (img_qvec image) = 1 →
  let '(ox, oy, oz) := camera_orientation image in
  ox * ox + oy * oy + oz * oz = 1
  ∧ oz = - (1 - 2 * v4_get (img_qvec image) 1 ^ 2
              - 2 * v4_get (img_qvec image) 2 ^ 2).
Proof.
  unfold camera_orientation, Image_qvec2rotmat.
  destruct (img_qvec image) as [[[w x] y] z]. cbn. intros Hn.
  split; [nsatz|ring].
Qed.

(** X19. For an image with a unit quaternion and a three-entry [tvec],
    [visualize_cameras_3d] draws a segment that starts at the camera
    position and has length [|arrow_length_mm|]. *)
Theorem arrow_3d_has_arrow_length (arrow_length_mm : R) (image : Image)
    (x y z : R) :
  unit_quaternion (img_qvec image) → img_tvec image = [x; y; z] →
  ∃ ex ey ez,
    camera_segment_3d arrow_length_mm image
    = Some ((x, y, z), (ex, ey, ez))
    ∧ sqrt ((ex - x) ^ 2 + (ey - y) ^ 2 + (ez - z) ^ 2)
      = Rabs arrow_length_mm.
Proof.
  intros Hq%unit_quaternion_norm2 Ht.
  pose proof (camera_orientation_unit image Hq) as Ho.
  unfold camera_segment_3d. rewrite Ht.
  destruct (camera_orientation image) as [[ox oy] oz].
  destruct Ho as [Ho _]. eexists _, _, _. split; [reflexivity|].
  rewrite <- sqrt_Rsqr_abs. f_equal. unfold Rsqr.
  transitivity (arrow_length_mm * arrow_length_mm
                * (ox * ox + oy * oy + oz * oz)); [ring|].
  rewrite Ho. ring.
Qed.

Lemma arrow_3d_has_arrow_length_witness :
  let image := mkImage 1 sample_quaternion [1; 2; 3] 1 "Camera_1" [] [] in
  unit_quaternion (img_qvec image)
  ∧ ∃ ex ey ez,
      camera_segment_3d 750 image = Some ((1, 2, 3), (ex, ey, ez))
      ∧ sqrt ((ex - 1) ^ 2 + (ey - 2) ^ 2 + (ez - 3) ^ 2) = Rabs 750.
Proof.
  intros image.
  assert (H : unit_quaternion (img_qvec image)).
  { apply unit_quaternion_norm2, sample_quaternion_norm2. }
  split; [exact H|].
  apply (arrow_3d_has_arrow_length 750 image 1 2 3 H eq_refl).
Defined.

(** X20. In the top view of [visualize_cameras] the segment of a camera is
    the projection of that arrow: with the component along z,
    [arrow_length_mm * (1 - 2 q1^2 - 2 q2^2)], it makes up the full length,
    so it is never longer than [|arrow_length_mm|] and shrinks to a point
    for a camera that looks along the z axis. *)
Theorem arrow_2d_is_projection (arrow_length_mm : R) (image : Image)
    (x y : R) (rest : list R) :
  unit_quaternion (img_qvec image) → img_tvec image = x :: y :: rest →
  ∃ ex ey,
    camera_segment_2d arrow_length_mm image = Some ((x, y), (ex, ey))
    ∧ (ex - x) ^ 2 + (ey - y) ^ 2
      + (arrow_length_mm
         * (1 - 2 * v4_get (img_qvec image) 1 ^ 2
              - 2 * v4_get (img_qvec image) 2 ^ 2)) ^ 2
      = arrow_length_mm ^ 2
    ∧ sqrt ((ex - x) ^ 2 + (ey - y) ^ 2) <= Rabs arrow_length_mm.
Proof.
  intros Hq%unit_quaternion_norm2 Ht.
  pose proof (camera_orientation_unit image Hq) as Ho.
  unfold camera_segment_2d. rewrite Ht.
  destruct (camera_orientation image) as [[ox oy] oz].
  destruct Ho as [Ho Hz]. eexists _, _. split; [reflexivity|].
  assert (Hz' : 1 - 2 * v4_get (img_qvec image) 1 ^ 2
                   - 2 * v4_get (img_qvec image) 2 ^ 2 = - oz) by lra.
  rewrite Hz'.
  assert (Hsum : (x + arrow_length_mm * ox - x) ^ 2
                 + (y + arrow_length_mm * oy - y) ^ 2
                 + (arrow_length_mm * - oz) ^ 2 = arrow_length_mm ^ 2).
  { transitivity (arrow_length_mm * arrow_length_mm
                  * (ox * ox + oy * oy + oz * oz)); [ring|].
    rewrite Ho. ring. }
  split; [exact Hsum|].
  rewrite <- sqrt_Rsqr_abs. apply sqrt_le_1_alt. unfold Rsqr.
  pose proof (pow2_ge_0 (arrow_length_mm * - oz)). lra.
Qed.

Lemma arrow_2d_is_projection_witness :
  let image := mkImage 1 (1, 0, 0, 0) [1; 2; 3] 1 "Camera_1" [] [] in
  unit_quaternion (img_qvec image)
  ∧ camera_segment_2d 500 image = Some ((1, 2), (1 + 500 * 0, 2 + 500 * 0))
  ∧ ∃ ex ey,
      camera_segment_2d 500 image = Some ((1, 2), (ex, ey))
      ∧ sqrt ((ex - 1) ^ 2 + (ey - 2) ^ 2) <= Rabs 500.
Proof.
  intros image.
  assert (H : unit_quaternion (img_qvec image)).
  { apply unit_quaternion_norm2. cbn. lra. }
  split; [exact H|]. split.
  { unfold camera_segment_2d. cbn. do 3 f_equal; ring. }
  destruct (arrow_2d_is_projection 500 image 1 2 [3] H eq_refl)
    as (ex & ey & Hseg & _ & Hle).
  eauto.
Defined.

End Arrows.

(* ===================================================================== *)
(** * [set_axes_equal] and [create_floor] *)
(* ===================================================================== *)

Section Axes.
Local Open Scope R_scope.

(** X21. [set_axes_equal] widens the x and the y limits by one and the
    same padding on both sides, a tenth of the largest of the three
    ranges: for limits given in increasing order the new intervals
    contain the old ones, and the difference between the x range and the
    y range is what it was. The two ranges come out equal only if they
    were equal before. *)
Theorem set_axes_equal_keeps_range_difference (ax : axes_limits) :
  (x_limits ax).1 <= (x_limits ax).2 →
  (y_limits ax).1 <= (y_limits ax).2 →
  let new := set_axes_equal ax in
  let range (l : R * R) := l.2 - l.1 in
  (x_limits new).1 <= (x_limits ax).1 ∧ (x_limits ax).2 <= (x_limits new).2
  ∧ (y_limits new).1 <= (y_limits ax).1 ∧ (y_limits ax).2 <= (y_limits new).2
  ∧ range (x_limits new) - range (y_limits new)
    = range (x_limits ax) - range (y_limits ax)
  ∧ (range (x_limits new) = range (y_limits new)
     ↔ range (x_limits ax) = range (y_limits ax)).
Proof.
  intros Hx Hy new range. unfold new, range, set_axes_equal. cbn.
  set (padding := Rmax _ _ * (1 / 10)).
  assert (Hp : 0 <= padding).
  { unfold padding.
    pose proof (Rmax_l (Rmax (Rabs ((x_limits ax).2 - (x_limits ax).1))
                          (Rabs ((y_limits ax).2 - (y_limits ax).1)))
                  (Rabs ((z_limits ax).2 - (z_limits ax).1))).
    pose proof (Rmax_l (Rabs ((x_limits ax).2 - (x_limits ax).1))
                  (Rabs ((y_limits ax).2 - (y_limits ax).1))).
    pose proof (Rabs_pos ((x_limits ax).2 - (x_limits ax).1)). lra. }
  repeat split; lra.
Qed.

Lemma set_axes_equal_keeps_range_difference_witness :
  let ax := mk_axes_limits (0, 10) (0, 4) (0, 2) in
  x_limits (set_axes_equal ax) = (0 - 10 * (1 / 10), 10 + 10 * (1 / 10))
  ∧ (x_limits (set_axes_equal ax)).2 - (x_limits (set_axes_equal ax)).1
    ≠ (y_limits (set_axes_equal ax)).2 - (y_limits (set_axes_equal ax)).1.
Proof.
  intros ax.
  destruct (set_axes_equal_keeps_range_difference ax)
    as (_ & _ & _ & _ & _ & Hiff); [cbn; lra|cbn; lra|].
  split.
  - unfold set_axes_equal, ax. cbn.
    replace (Rabs (10 - 0)) with 10 by (rewrite Rabs_right; lra).
    replace (Rabs (4 - 0)) with 4 by (rewrite Rabs_right; lra).
    replace (Rabs (2 - 0)) with 2 by (rewrite Rabs_right; lra).
    rewrite (Rmax_left 10 4) by lra. rewrite (Rmax_left 10 2) by lra.
    reflexivity.
  - intros Heq. apply Hiff in Heq. cbn in Heq. lra.
Defined.

(** X22. [set_axes_equal] replaces the z limits by 0 and the z range plus
    the padding. For limits given in increasing order the new z interval
    contains the old one exactly when the old lower limit lies between 0
    and the padding. *)
Theorem set_axes_equal_z_from_zero (ax : axes_limits) :
  (z_limits ax).1 <= (z_limits ax).2 →
  let new := set_axes_equal ax in
  let padding := (x_limits ax).1 - (x_limits new).1 in
  (z_limits new).1 = 0
  ∧ (z_limits new).2 = (z_limits ax).2 - (z_limits ax).1 + padding
  ∧ ((z_limits new).1 <= (z_limits ax).1
     ∧ (z_limits ax).2 <= (z_limits new).2
     ↔ 0 <= (z_limits ax).1 <= padding).
Proof.
  intros Hz new padding. unfold padding, new, set_axes_equal. cbn.
  rewrite (Rabs_right ((z_limits ax).2 - (z_limits ax).1)) by lra.
  split; [done|]. split; [ring|]. split; intros H; lra.
Qed.

Lemma set_axes_equal_z_from_zero_witness :
  let ax := mk_axes_limits (0, 10) (0, 10) (1000, 1010) in
  (z_limits (set_axes_equal ax)).1 = 0
  ∧ (z_limits (set_axes_equal ax)).2 < 1000.
Proof.
  intros ax.
  destruct (set_axes_equal_z_from_zero ax) as (H0 & H1 & _); [cbn; lra|].
  split; [exact H0|]. rewrite H1. unfold set_axes_equal, ax. cbn.
  replace (Rabs (10 - 0)) with 10 by (rewrite Rabs_right; lra).
  replace (Rabs (1010 - 1000)) with 10 by (rewrite Rabs_right; lra).
  rewrite !(Rmax_left 10 10) by lra. lra.
Defined.

End Axes.

Section Floor.
Local Open Scope R_scope.

Lemma foldl_Rmin_le (v : R) (vs : list R) :
  foldl Rmin v vs <= v ∧ Forall (λ x, foldl Rmin v vs <= x) vs.
Proof.
  revert v. induction vs as [|x vs IH]; intros v; cbn.
  - split; [lra|constructor].
  - destruct (IH (Rmin v x)) as [H1 H2].
    pose proof (Rmin_l v x). pose proof (Rmin_r v x).
    split; [lra|]. constructor; [lra|done].
Qed.

Lemma foldl_Rmax_ge (v : R) (vs : list R) :
  v <= foldl Rmax v vs ∧ Forall (λ x, x <= foldl Rmax v vs) vs.
Proof.
  revert v. induction vs as [|x vs IH]; intros v; cbn.
  - split; [lra|constructor].
  - destruct (IH (Rmax v x)) as [H1 H2].
    pose proof (Rmax_l v x). pose proof (Rmax_r v x).
    split; [lra|]. constructor; [lra|done].
Qed.

Lemma py_min_le (values : list R) (lo : R) :
  py_min values = Some lo → Forall (λ x, lo <= x) values.
Proof.
  destruct values as [|v vs]; [done|]. intros [= <-].
  destruct (foldl_Rmin_le v vs). by constructor.
Qed.

Lemma py_max_ge (values : list R) (hi : R) :
  py_max values = Some hi → Forall (λ x, x <= hi) values.
Proof.
  destruct values as [|v vs]; [done|]. intros [= <-].
  destruct (foldl_Rmax_ge v vs). by constructor.
Qed.

Lemma linspace_50 (start stop : R) :
  length (linspace start stop 50) = 50%nat
  ∧ head (linspace start stop 50) = Some start
  ∧ last (linspace start stop 50) = Some stop.
Proof.
  split; [reflexivity|]. split.
  - cbn. f_equal. lra.
  - cbn. f_equal. lra.
Qed.

(** X23. [create_floor] fails when there is no image. When there are
    images, each with a position of two entries at least, the two axes it
    builds have fifty grid lines each, and every camera lies between the
    first and the last of them with a margin of [grid_size] on both
    sides. *)
Theorem floor_covers_cameras (images : list Image) (grid_size : R) :
  (images = [] → create_floor_axes images grid_size = None)
  ∧ (images ≠ [] →
     Forall (λ image, (2 <= length (img_tvec image))%nat) images →
     ∃ xs ys x_first x_last y_first y_last,
       create_floor_axes images grid_size = Some (xs, ys)
       ∧ length xs = 50%nat ∧ length ys = 50%nat
       ∧ head xs = Some x_first ∧ last xs = Some x_last
       ∧ head ys = Some y_first ∧ last ys = Some y_last
       ∧ ∀ (image : Image) (x y : R),
           image ∈ images →
           img_tvec image !! 0%nat = Some x →
           img_tvec image !! 1%nat = Some y →
           x_first + grid_size <= x <= x_last - grid_size
           ∧ y_first + grid_size <= y <= y_last - grid_size).
Proof.
  split; [by intros ->|]. intros Hne Hall.
  unfold create_floor_axes.
  destruct (mapM (λ image, img_tvec image !! 0%nat) images) as [xv|] eqn:Hxv.
  2: { apply mapM_None_1, Exists_exists in Hxv as (image & Hin & Hx).
       rewrite Forall_forall in Hall. specialize (Hall image Hin).
       apply lookup_ge_None in Hx. lia. }
  destruct (mapM (λ image, img_tvec image !! 1%nat) images) as [yv|] eqn:Hyv.
  2: { apply mapM_None_1, Exists_exists in Hyv as (image & Hin & Hy).
       rewrite Forall_forall in Hall. specialize (Hall image Hin).
       apply lookup_ge_None in Hy. lia. }
  cbn.
  apply mapM_Some_1 in Hxv, Hyv.
  assert (Hxne : xv ≠ []).
  { intros ->. apply Forall2_nil_inv_r in Hxv. done. }
  assert (Hyne : yv ≠ []).
  { intros ->. apply Forall2_nil_inv_r in Hyv. done. }
  destruct (py_min xv) as [x_min|] eqn:Hxmin; [|by destruct xv].
  destruct (py_max xv) as [x_max|] eqn:Hxmax; [|by destruct xv].
  destruct (py_min yv) as [y_min|] eqn:Hymin; [|by destruct yv].
  destruct (py_max yv) as [y_max|] eqn:Hymax; [|by destruct yv].
  cbn.
  destruct (linspace_50 (x_min - grid_size) (x_max + grid_size))
    as (Hlx & Hhx & Htx).
  destruct (linspace_50 (y_min - grid_size) (y_max + grid_size))
    as (Hly & Hhy & Hty).
  eexists _, _, _, _, _, _. split; [reflexivity|].
  repeat (split; [eassumption|]).
  intros image x y Hin Hx Hy.
  apply py_min_le in Hxmin, Hymin. apply py_max_ge in Hxmax, Hymax.
  assert (Hxin : x ∈ xv).
  { apply list_elem_of_lookup in Hin as [i Hi].
    destruct (Forall2_lookup_l _ _ _ _ _ Hxv Hi) as (x' & Hx' & Heq).
    rewrite Hx in Heq. injection Heq as <-.
    by apply list_elem_of_lookup_2 in Hx'. }
  assert (Hyin : y ∈ yv).
  { apply list_elem_of_lookup in Hin as [i Hi].
    destruct (Forall2_lookup_l _ _ _ _ _ Hyv Hi) as (y' & Hy' & Heq).
    rewrite Hy in Heq. injection Heq as <-.
    by apply list_elem_of_lookup_2 in Hy'. }
  rewrite Forall_forall in Hxmin, Hxmax, Hymin, Hymax.
  specialize (Hxmin x Hxin). specialize (Hxmax x Hxin).
  specialize (Hymin y Hyin). specialize (Hymax y Hyin).
  lra.
Qed.

Lemma floor_covers_cameras_witness :
  let images := [ mkImage 1 (1, 0, 0, 0) [1; 2; 3] 1 "Camera_1" [] [];
                  mkImage 2 (1, 0, 0, 0) [5; 0; 3] 2 "Camera_2" [] [] ] in
  ∃ xs ys,
    create_floor_axes images 750 = Some (xs, ys)
    ∧ head xs = Some (1 - 750) ∧ last xs = Some (5 + 750).
Proof.
  intros images.
  destruct (proj2 (floor_covers_cameras images 750))
    as (xs & ys & x_first & x_last & y_first & y_last & Hfloor & _ & _
        & Hfx & Hlx & _ & _ & Hcover); [done| |].
  { repeat (apply Forall_cons_2; [cbn; lia|]). apply Forall_nil_2. }
  exists xs, ys. split; [exact Hfloor|].
  destruct (Hcover (mkImage 1 (1, 0, 0, 0) [1; 2; 3] 1 "Camera_1" [] [])
              1 2) as [[H1 _] _]; [apply list_elem_of_here|done|done|].
  destruct (Hcover (mkImage 2 (1, 0, 0, 0) [5; 0; 3] 2 "Camera_2" [] [])
              5 0) as [[_ H2] _];
    [apply list_elem_of_further, list_elem_of_here|done|done|].
  unfold create_floor_axes in Hfloor. cbn in Hfloor.
  injection Hfloor as <- _.
  rewrite Rmin_left, Rmax_right by lra.
  destruct (linspace_50 (1 - 750) (5 + 750)) as (_ & Hh & Hl). done.
Defined.

End Floor.

(* ===================================================================== *)
(** * The matcher *)
(* ===================================================================== *)

Lemma chars_app (a b : string) : chars (a +:+ b) = chars a ++ chars b.
Proof.
  induction a as [|c a IH]; [done|].
  change (chars (String c a +:+ b)) with (c :: chars (a +:+ b)).
  by rewrite IH.
Qed.

Lemma chars_inj (a b : string) : chars a = chars b → a = b.
Proof.
  intros H. rewrite <- (String.string_of_list_ascii_of_string a),
    <- (String.string_of_list_ascii_of_string b). unfold chars in H.
  by rewrite H.
Qed.

Lemma chars_string_of_list_ascii (l : list ascii) :
  chars (String.string_of_list_ascii l) = l.
Proof. apply String.list_ascii_of_string_of_list_ascii. Qed.

Lemma keep_false (cs : list ascii) (x : option (list ascii)) :
  keep false cs <$> x = x.
Proof. by destruct x. Qed.

Lemma greedy_Some_inv (k : list ascii → option (list ascii)) (cap : bool)
    (lo n : nat) (s r : list ascii) :
  greedy k cap lo n s = Some r →
  ∃ m g, (lo ≤ m ≤ n)%nat ∧ k (drop m s) = Some g
         ∧ r = keep cap (take m s) g.
Proof.
  induction n as [|n IH]; cbn [greedy].
  - destruct (0 <? lo)%nat eqn:Hlo; [done|]. apply Nat.ltb_ge in Hlo.
    destruct (k (drop 0 s)) as [g|] eqn:Hk; [|done].
    intros [= <-]. exists 0%nat, g. split; [lia|]. done.
  - destruct (S n <? lo)%nat eqn:Hlo; [done|]. apply Nat.ltb_ge in Hlo.
    destruct (k (drop (S n) s)) as [g|] eqn:Hk.
    + intros [= <-]. exists (S n), g. split; [lia|]. done.
    + intros (m & g & Hm & Hg & ->)%IH. exists m, g. split; [lia|]. done.
Qed.

(** The repetition settles on the longest stretch after which the rest of
    the pattern matches. *)
Lemma greedy_longest (k : list ascii → option (list ascii)) (cap : bool)
    (lo n m : nat) (s g : list ascii) :
  (lo ≤ m ≤ n)%nat → k (drop m s) = Some g →
  (∀ m', (m < m' ≤ n)%nat → k (drop m' s) = None) →
  greedy k cap lo n s = Some (keep cap (take m s) g).
Proof.
  intros Hm Hg. induction n as [|n IH]; intros Hlater; cbn [greedy].
  - assert (m = 0)%nat as -> by lia.
    rewrite (proj2 (Nat.ltb_ge 0 lo)) by lia. by rewrite Hg.
  - rewrite (proj2 (Nat.ltb_ge (S n) lo)) by lia.
    destruct (decide (m = S n)) as [->|Hne]; [by rewrite Hg|].
    rewrite Hlater by lia. apply IH; [lia|]. intros m' Hm'. apply Hlater. lia.
Qed.

Lemma greedy_is_Some (k : list ascii → option (list ascii)) (cap : bool)
    (lo n m : nat) (s : list ascii) :
  (lo ≤ m ≤ n)%nat → is_Some (k (drop m s)) →
  is_Some (greedy k cap lo n s).
Proof.
  intros Hm Hg. induction n as [|n IH]; cbn [greedy].
  - assert (m = 0)%nat as -> by lia.
    rewrite (proj2 (Nat.ltb_ge 0 lo)) by lia. destruct Hg as [g ->]. eauto.
  - rewrite (proj2 (Nat.ltb_ge (S n) lo)) by lia.
    destruct (k (drop (S n) s)) as [g|] eqn:Hk; [eauto|].
    apply IH. destruct (decide (m = S n)) as [->|Hne]; [|lia].
    rewrite Hk in Hg. by destruct Hg.
Qed.

Lemma run_take (cls : char_class) (s : list ascii) (m : nat) :
  (m ≤ run cls s)%nat → Forall (λ c, accepts cls c = true) (take m s).
Proof.
  revert m. induction s as [|c s IH]; intros m Hm; cbn in *.
  - by rewrite take_nil.
  - destruct m as [|m]; [constructor|].
    destruct (accepts cls c) eqn:Hc; [|lia].
    cbn. constructor; [done|]. apply IH. lia.
Qed.

Lemma run_app (cls : char_class) (cs s : list ascii) :
  Forall (λ c, accepts cls c = true) cs →
  (length cs ≤ run cls (cs ++ s))%nat.
Proof.
  induction 1 as [|c cs Hc _ IH]; cbn; [lia|]. rewrite Hc. lia.
Qed.

(** A stretch followed by a character the class refuses, or by nothing, is
    as far as the repetition goes. *)
Lemma run_exact (cls : char_class) (cs s : list ascii) :
  Forall (λ c, accepts cls c = true) cs →
  match s with [] => True | c :: _ => accepts cls c = false end →
  run cls (cs ++ s) = length cs.
Proof.
  intros Hcs Hs. induction Hcs as [|c cs Hc _ IH]; cbn.
  - destruct s as [|c s]; [done|]. cbn. by rewrite Hs.
  - by rewrite Hc, IH.
Qed.

Lemma accepts_Literal (c : ascii) : accepts (Literal c) c = true.
Proof. apply Ascii.eqb_refl. Qed.

Lemma re_run_literally (text : string) (p : list regex_item) (cap : bool)
    (s : list ascii) :
  re_run (literally text ++ p) cap (chars text ++ s)
  = keep cap (chars text) <$> re_run p cap s.
Proof.
  unfold literally, chars.
  induction text as [|c text IH]; cbn.
  - destruct (re_run p cap s), cap; done.
  - rewrite Ascii.eqb_refl, IH.
    destruct (re_run p cap s), cap; done.
Qed.

Lemma re_run_literally_inv (text : string) (p : list regex_item)
    (cap : bool) (s r : list ascii) :
  re_run (literally text ++ p) cap s = Some r →
  ∃ s' g, s = chars text ++ s' ∧ re_run p cap s' = Some g
          ∧ r = keep cap (chars text) g.
Proof.
  unfold literally, chars. revert s r.
  induction text as [|c text IH]; intros s r; cbn.
  - intros H. exists s, r. by destruct cap.
  - destruct s as [|c' s]; [done|].
    destruct (Ascii.eqb c c') eqn:Hc; [|done].
    apply Ascii.eqb_eq in Hc as <-.
    destruct (re_run _ cap s) as [r'|] eqn:Hr; [|done]. intros [= <-].
    apply IH in Hr as (s' & g & -> & Hg & ->).
    exists s', g. by destruct cap.
Qed.

(** A text that starts with [c] does not match where another character
    stands. *)
Lemma re_run_literally_mismatch (c : ascii) (text : string)
    (p : list regex_item) (cap : bool) (s : list ascii) :
  head s ≠ Some c →
  re_run (literally (String c text) ++ p) cap s = None.
Proof.
  destruct s as [|c' s]; [done|]. cbn. intros Hc.
  destruct (Ascii.eqb c c') eqn:Heq; [|done].
  apply Ascii.eqb_eq in Heq as <-. done.
Qed.

(** Outside the parentheses nothing is added to the group. *)
Lemma re_run_no_group (p : list regex_item) (s g : list ascii) :
  GroupOpen ∉ p → re_run p false s = Some g → g = [].
Proof.
  revert s g. induction p as [|i p IH]; intros s g Hp; cbn.
  - by intros [= <-].
  - assert (Hp' : GroupOpen ∉ p) by (intros ?; apply Hp; by right).
    destruct i.
    + destruct s as [|c s]; [done|]. destruct (accepts cls c); [|done].
      rewrite keep_false. by apply IH.
    + intros (m & g' & _ & Hg & ->)%greedy_Some_inv. by apply IH in Hg.
    + intros (m & g' & _ & Hg & ->)%greedy_Some_inv. by apply IH in Hg.
    + destruct Hp. by left.
    + by apply IH.
    + destruct (at_end s); [|done]. by apply IH.
Qed.

Lemma re_search_from_app (p : list regex_item) (before s : list ascii) :
  is_Some (re_run p false s) → is_Some (re_search_from p (before ++ s)).
Proof.
  intros Hs. induction before as [|c before IH]; cbn.
  - destruct s; cbn; destruct Hs as [g ->]; eauto.
  - destruct (re_run p false (c :: before ++ s)); eauto.
Qed.

Lemma re_search_from_here (p : list regex_item) (s g : list ascii) :
  re_run p false s = Some g → re_search_from p s = Some g.
Proof. intros H. destruct s; cbn; by rewrite H. Qed.

Lemma re_search_from_skip (p : list regex_item) (c : ascii)
    (s : list ascii) :
  re_run p false (c :: s) = None →
  re_search_from p (c :: s) = re_search_from p s.
Proof. intros H. cbn. by rewrite H. Qed.

(* ===================================================================== *)
(** * The two patterns *)
(* ===================================================================== *)

(** The end of the image pattern, [\.png$]. *)
Lemma re_run_png (ending : list ascii) :
  at_end ending = true →
  re_run (literally ".png" ++ [EndOfString]) false (chars ".png" ++ ending)
  = Some [].
Proof. intros H. rewrite re_run_literally. cbn. by rewrite H. Qed.

Lemma re_run_png_inv (s g : list ascii) :
  re_run (literally ".png" ++ [EndOfString]) false s = Some g →
  ∃ ending, s = chars ".png" ++ ending ∧ at_end ending = true.
Proof.
  intros (ending & g' & -> & H & _)%re_run_literally_inv.
  exists ending. split; [done|]. cbn in H. by destruct (at_end ending).
Qed.

(** What follows the group in the image pattern, [_.*\.png$]. *)
Lemma re_run_after_group (after ending : list ascii) :
  Forall (λ c, accepts AnyChar c = true) after →
  at_end ending = true →
  re_run (literally "_" ++ [ZeroOrMore AnyChar] ++ literally ".png"
          ++ [EndOfString]) false
    (chars "_" ++ after ++ chars ".png" ++ ending) = Some [].
Proof.
  intros Hafter Hending. rewrite re_run_literally, keep_false.
  cbn [app re_run].
  destruct (greedy_is_Some
              (re_run (literally ".png" ++ [EndOfString]) false) false 0
              (run AnyChar (after ++ chars ".png" ++ ending))
              (length after) (after ++ chars ".png" ++ ending)) as [g Hg].
  - split; [lia|]. by apply run_app.
  - rewrite drop_app_length, re_run_png; eauto.
  - rewrite Hg. f_equal.
    apply greedy_Some_inv in Hg as (m & g' & _ & Hg' & ->).
    apply re_run_no_group in Hg'; [done|no_group].
Qed.

(** What the group and the rest of the image pattern match,
    [(\d+)_.*\.png$]: the digits are all taken, since an underscore
    follows. *)
Lemma re_run_group (digits after ending : list ascii) :
  digits ≠ [] → Forall (λ c, is_digit c = true) digits →
  Forall (λ c, accepts AnyChar c = true) after →
  at_end ending = true →
  re_run ([GroupOpen; OneOrMore Digit; GroupClose] ++ literally "_"
          ++ [ZeroOrMore AnyChar] ++ literally ".png" ++ [EndOfString])
    false (digits ++ chars "_" ++ after ++ chars ".png" ++ ending)
  = Some digits.
Proof.
  intros Hne Hdigits Hafter Hending. cbn [app re_run].
  rewrite run_exact; [|done|done].
  rewrite (greedy_longest _ true 1 _ (length digits) _ []).
  - cbn. by rewrite take_app_length, app_nil_r.
  - split; [|lia]. destruct digits; [done|cbn; lia].
  - rewrite drop_app_length. by apply re_run_after_group.
  - lia.
Qed.

Lemma re_run_group_inv (p : list regex_item) (s g : list ascii) :
  GroupOpen ∉ p →
  re_run ([GroupOpen; OneOrMore Digit; GroupClose] ++ p) false s = Some g →
  ∃ s', s = g ++ s' ∧ g ≠ [] ∧ Forall (λ c, is_digit c = true) g
        ∧ is_Some (re_run p false s').
Proof.
  intros Hp. cbn [app re_run].
  intros (m & g' & Hm & Hg' & ->)%greedy_Some_inv.
  cbn [re_run] in Hg'. apply re_run_no_group in Hg' as Hnil; [|done].
  subst g'. cbn. rewrite app_nil_r. exists (drop m s).
  split; [by rewrite take_drop|]. split; [|split; [|eauto]].
  - intros Hnil. apply (f_equal length) in Hnil.
    pose proof (run_take Digit s m (proj2 Hm)) as Hall.
    assert (m ≤ length s)%nat.
    { clear -Hm. destruct Hm as [_ Hm]. revert m Hm.
      induction s as [|c s IH]; intros m; cbn; [lia|].
      destruct (is_digit c); [|lia]. destruct m; [lia|].
      intros ?. specialize (IH m). lia. }
    rewrite length_take in Hnil. cbn in Hnil. lia.
  - apply (run_take Digit), Hm.
Qed.

Lemma image_pattern_inv (s g : list ascii) :
  re_run IMAGE_PATTERN false s = Some g →
  ∃ before after ending,
    s = before ++ chars "Miqus_" ++ g ++ chars "_" ++ after ++ chars ".png"
        ++ ending
    ∧ g ≠ [] ∧ Forall (λ c, is_digit c = true) g
    ∧ Forall (λ c, accepts AnyChar c = true) before
    ∧ Forall (λ c, accepts AnyChar c = true) after
    ∧ at_end ending = true.
Proof.
  unfold IMAGE_PATTERN. cbn [app re_run].
  intros (m & g1 & Hm & H & ->)%greedy_Some_inv. cbn [keep].
  apply re_run_literally_inv in H as (s1 & g2 & Hs & H & ->). cbn [keep].
  apply re_run_group_inv in H as (s2 & -> & Hne & Hdigits & [g3 H]);
    [|no_group].
  apply re_run_literally_inv in H as (s3 & g4 & -> & H & _).
  cbn [app re_run] in H.
  apply greedy_Some_inv in H as (m' & g5 & Hm' & H & _).
  apply re_run_png_inv in H as (ending & Hs3 & Hending).
  exists (take m s), (take m' s3), ending.
  split; [|split; [done|]; split; [done|]; split; [|split; [|done]]].
  - rewrite <- Hs3, take_drop, <- Hs, take_drop. done.
  - apply (run_take AnyChar), Hm.
  - apply (run_take AnyChar), Hm'.
Qed.

(** Python's [.*] goes as far as it can and comes back a character at a
    time: the pattern settles on the last place where [Miqus_] starts a
    match. With no [M] after the number, that is where the number is. *)
Lemma image_pattern_last (before digits after ending : list ascii) :
  digits ≠ [] → Forall (λ c, is_digit c = true) digits →
  Forall (λ c, accepts AnyChar c = true) before →
  Forall (λ c, accepts AnyChar c = true) after →
  at_end ending = true →
  "M"%char ∉ after →
  re_run IMAGE_PATTERN false
    (before ++ chars "Miqus_" ++ digits ++ chars "_" ++ after
     ++ chars ".png" ++ ending)
  = Some digits.
Proof.
  intros Hne Hdigits Hbefore Hafter Hending HM.
  unfold IMAGE_PATTERN. cbn [app re_run].
  rewrite (greedy_longest _ false 0 _ (length before) _ digits).
  - done.
  - split; [lia|]. by apply run_app.
  - rewrite drop_app_length, re_run_literally, keep_false.
    by apply re_run_group.
  - intros m' [Hm' _]. apply re_run_literally_mismatch.
    rewrite <- (Nat.sub_add (length before) m') by lia.
    rewrite Nat.add_comm, <- drop_drop, drop_app_length.
    destruct (m' - length before)%nat as [|j] eqn:Hj; [lia|].
    cbn [chars String.list_ascii_of_string app drop].
    intros Hhead. apply head_Some_elem_of in Hhead.
    apply (subseteq_drop j) in Hhead.
    repeat (apply elem_of_cons in Hhead as [Hhead|Hhead];
            [discriminate Hhead|]).
    apply elem_of_app in Hhead as [Hhead|Hhead].
    { rewrite Forall_forall in Hdigits. by apply Hdigits in Hhead. }
    apply elem_of_cons in Hhead as [Hhead|Hhead]; [discriminate Hhead|].
    apply elem_of_app in Hhead as [Hhead|Hhead]; [done|].
    repeat (apply elem_of_cons in Hhead as [Hhead|Hhead];
            [discriminate Hhead|]).
    destruct ending as [|c [|? ?]]; try discriminate Hending.
    + by apply elem_of_nil in Hhead.
    + apply list_elem_of_singleton in Hhead as <-. discriminate Hending.
Qed.

Lemma image_pattern_is_Some (before digits after ending : list ascii) :
  digits ≠ [] → Forall (λ c, is_digit c = true) digits →
  Forall (λ c, accepts AnyChar c = true) before →
  Forall (λ c, accepts AnyChar c = true) after →
  at_end ending = true →
  is_Some (re_run IMAGE_PATTERN false
             (before ++ chars "Miqus_" ++ digits ++ chars "_" ++ after
              ++ chars ".png" ++ ending)).
Proof.
  intros Hne Hdigits Hbefore Hafter Hending.
  unfold IMAGE_PATTERN. cbn [app re_run].
  apply (greedy_is_Some _ false 0 _ (length before)).
  - split; [lia|]. by apply run_app.
  - rewrite drop_app_length, re_run_literally, keep_false.
    rewrite re_run_group; eauto.
Qed.

(** [Miqus_(\d+)_] where it stands. *)
Lemma number_pattern_here (digits rest : list ascii) :
  digits ≠ [] → Forall (λ c, is_digit c = true) digits →
  re_run NUMBER_PATTERN false (chars "Miqus_" ++ digits ++ chars "_" ++ rest)
  = Some digits.
Proof.
  intros Hne Hdigits. unfold NUMBER_PATTERN.
  rewrite re_run_literally, keep_false. cbn [app re_run].
  rewrite run_exact; [|done|done].
  rewrite (greedy_longest _ true 1 _ (length digits) _ []).
  - cbn. by rewrite take_app_length, app_nil_r.
  - split; [|lia]. destruct digits; [done|cbn; lia].
  - rewrite drop_app_length. cbn [re_run].
    rewrite <- (app_nil_r (literally "_")), re_run_literally. done.
  - lia.
Qed.

(** [re.search] stops at the first place where the pattern matches: with
    no [M] before it, that is the first [Miqus_<digits>_]. *)
Lemma number_pattern_first (before digits rest : list ascii) :
  digits ≠ [] → Forall (λ c, is_digit c = true) digits →
  "M"%char ∉ before →
  re_search_from NUMBER_PATTERN
    (before ++ chars "Miqus_" ++ digits ++ chars "_" ++ rest)
  = Some digits.
Proof.
  intros Hne Hdigits HM. induction before as [|c before IH].
  - apply re_search_from_here. by apply number_pattern_here.
  - cbn [app]. rewrite re_search_from_skip.
    + apply IH. intros ?. apply HM. by right.
    + apply re_run_literally_mismatch. cbn. intros [= ->]. apply HM. by left.
Qed.

(** A name the image pattern matches has a number for [re.search]. *)
Lemma image_pattern_number (s g : list ascii) :
  re_run IMAGE_PATTERN false s = Some g →
  is_Some (re_search_from NUMBER_PATTERN s).
Proof.
  intros (before & after & ending & -> & Hne & Hdigits & _)%image_pattern_inv.
  apply re_search_from_app. rewrite number_pattern_here; eauto.
Qed.

(* ===================================================================== *)
(** * Names as strings *)
(* ===================================================================== *)

Lemma chars_image_name (before digits after ending : string) :
  chars (image_name before digits after ending)
  = chars before ++ chars "Miqus_" ++ chars digits ++ chars "_"
    ++ chars after ++ chars ".png" ++ chars ending.
Proof. unfold image_name. by rewrite !chars_app. Qed.

Lemma decimal_chars (digits : string) :
  decimal digits ↔
  chars digits ≠ [] ∧ Forall (λ c, is_digit c = true) (chars digits).
Proof.
  unfold decimal. split; intros [Hne Hall]; (split; [|done]).
  - intros H. apply Hne. by apply chars_inj.
  - by intros ->.
Qed.

Lemma one_line_chars (s : string) :
  one_line s ↔ Forall (λ c, accepts AnyChar c = true) (chars s).
Proof.
  unfold one_line. rewrite Forall_forall. split.
  - intros H c Hc. cbn. destruct (Ascii.eqb_spec c newline) as [->|]; done.
  - intros H Hin. apply H in Hin. discriminate Hin.
Qed.

Lemma ending_chars (ending : string) :
  ending = "" ∨ ending = String newline "" ↔ at_end (chars ending) = true.
Proof.
  split.
  - by intros [-> | ->].
  - destruct ending as [|c [|? ?]]; cbn; [by left| |done].
    intros ->%Ascii.eqb_eq. by right.
Qed.

Lemma re_match_chars (p : list regex_item) (name digits : string) :
  re_match p name = Some digits ↔
  re_run p false (chars name) = Some (chars digits).
Proof.
  unfold re_match. fold (chars name).
  destruct (re_run p false (chars name)) as [g|]; cbn; [|done]. split.
  - intros [= <-]. by rewrite chars_string_of_list_ascii.
  - intros [= ->]. f_equal. apply String.string_of_list_ascii_of_string.
Qed.

Lemma re_search_chars (p : list regex_item) (name digits : string) :
  re_search p name = Some digits ↔
  re_search_from p (chars name) = Some (chars digits).
Proof.
  unfold re_search. fold (chars name).
  destruct (re_search_from p (chars name)) as [g|]; cbn; [|done]. split.
  - intros [= <-]. by rewrite chars_string_of_list_ascii.
  - intros [= ->]. f_equal. apply String.string_of_list_ascii_of_string.
Qed.

(** The names the image pattern matches, and the text of the group. *)
Lemma re_match_image_inv (file digits : string) :
  re_match IMAGE_PATTERN file = Some digits →
  ∃ before after ending,
    file = image_name before digits after ending
    ∧ decimal digits ∧ one_line before ∧ one_line after
    ∧ (ending = "" ∨ ending = String newline "").
Proof.
  intros (before & after & ending & Hs & Hne & Hdigits & Hbefore & Hafter
          & Hending)%re_match_chars%image_pattern_inv.
  exists (String.string_of_list_ascii before),
    (String.string_of_list_ascii after),
    (String.string_of_list_ascii ending).
  rewrite decimal_chars, !one_line_chars, ending_chars,
    !chars_string_of_list_ascii.
  split; [|done]. apply chars_inj.
  by rewrite chars_image_name, !chars_string_of_list_ascii.
Qed.

Lemma re_match_image_is_Some (before digits after ending : string) :
  decimal digits → one_line before → one_line after →
  ending = "" ∨ ending = String newline "" →
  is_Some (re_match IMAGE_PATTERN (image_name before digits after ending)).
Proof.
  intros [Hne Hdigits]%decimal_chars Hbefore%one_line_chars
    Hafter%one_line_chars Hending%ending_chars.
  unfold re_match. rewrite fmap_is_Some.
  fold (chars (image_name before digits after ending)).
  rewrite chars_image_name. by apply image_pattern_is_Some.
Qed.

(* ===================================================================== *)
(** * The order of the tuples *)
(* ===================================================================== *)

#[global] Instance tuple_le_trans : Transitive tuple_le.
Proof.
  intros [n1 f1] [n2 f2] [n3 f3]. unfold tuple_le. cbn.
  intros [?|[-> H12]] [?|[-> H23]]; [left; lia..|].
  right. split; [done|]. by etrans.
Qed.

#[global] Instance tuple_le_total : Total tuple_le.
Proof.
  intros [n1 f1] [n2 f2]. unfold tuple_le. cbn.
  destruct (Z.lt_trichotomy n1 n2) as [?|[->|?]]; [by left; left| |by right; left].
  destruct (total String.le f1 f2); [left|right]; right; done.
Qed.

#[global] Instance tuple_le_antisym : AntiSymm (=) tuple_le.
Proof.
  intros [n1 f1] [n2 f2]. unfold tuple_le. cbn.
  intros [?|[-> H12]] [?|[? H21]]; try lia.
  f_equal. by apply (anti_symm String.le).
Qed.

(** The tuples have one sorted arrangement only: whatever algorithm
    [list.sort] runs, it returns what [merge_sort] returns. *)
Lemma sorted_tuples_unique (images sorted : list (Z * string)) :
  sorted ≡ₚ images → Sorted tuple_le sorted →
  sorted = merge_sort tuple_le images.
Proof.
  intros Hperm Hsorted. apply (Sorted_unique tuple_le); [done| |].
  - apply (Sorted_merge_sort tuple_le).
  - by rewrite merge_sort_Permutation.
Qed.

Lemma StronglySorted_lookup {A} (R : relation A) (l : list A) (i j : nat)
    (x y : A) :
  StronglySorted R l → (i < j)%nat → l !! i = Some x → l !! j = Some y →
  R x y.
Proof.
  intros Hl. revert i j. induction Hl as [|a l _ IH Ha]; intros i j Hij Hi Hj.
  - done.
  - destruct j as [|j]; [lia|]. cbn in Hj. destruct i as [|i].
    + injection Hi as <-. rewrite Forall_forall in Ha.
      apply Ha. by eapply list_elem_of_lookup_2.
    + cbn in Hi. apply (IH i j); [lia|done..].
Qed.

(** The tuples [sorted_image_files] collects: one per file the pattern
    matches, in the order of the listing. *)
Lemma images_files (files : list string) :
  (omap (λ file, digits ← re_match IMAGE_PATTERN file;
                 Some (int digits, file)) files).*2
  = filter (λ file, is_Some (sort_number file)) files.
Proof.
  induction files as [|file files IH]; [done|].
  cbn [omap list_omap]. rewrite filter_cons.
  destruct (decide (is_Some (sort_number file))) as [[n Hn]|Hn];
    unfold sort_number in Hn;
    destruct (re_match IMAGE_PATTERN file) as [digits|]; cbn in *.
  - by f_equal.
  - done.
  - destruct Hn; eauto.
  - done.
Qed.

Lemma images_number (files : list string) (n : Z) (file : string) :
  (n, file) ∈ omap (λ file, digits ← re_match IMAGE_PATTERN file;
                            Some (int digits, file)) files →
  file ∈ files ∧ sort_number file = Some n.
Proof.
  intros (file' & Hin & H)%list_elem_of_omap. unfold sort_number.
  destruct (re_match IMAGE_PATTERN file') as [digits|] eqn:Hm; [|done].
  cbn in H. injection H as <- <-. by rewrite Hm.
Qed.

Lemma sorted_image_files_Ok (listdir : string → result (list string))
    (directory : string) (files : list string) :
  listdir directory = Ok files → Forall (λ file, plain_name file = true) files →
  sorted_image_files listdir directory
  = Ok ((merge_sort tuple_le
           (omap (λ file, digits ← re_match IMAGE_PATTERN file;
                          Some (int digits, file)) files)).*2).
Proof.
  intros Hdir Hplain. unfold sorted_image_files. rewrite Hdir, bind_Ok.
  assert (forallb plain_name files = true) as ->; [|done].
  clear Hdir. induction Hplain as [|file files Hfile _ IH]; [done|].
  cbn [forallb]. by rewrite Hfile, IH.
Qed.

Lemma sorted_image_files_Ok_inv (listdir : string → result (list string))
    (directory : string) (sorted_files : list string) :
  sorted_image_files listdir directory = Ok sorted_files →
  ∃ files,
    listdir directory = Ok files
    ∧ Forall (λ file, plain_name file = true) files
    ∧ sorted_files
      = (merge_sort tuple_le
           (omap (λ file, digits ← re_match IMAGE_PATTERN file;
                          Some (int digits, file)) files)).*2.
Proof.
  unfold sorted_image_files.
  destruct (listdir directory) as [files| |]; try discriminate.
  rewrite bind_Ok.
  destruct (forallb plain_name files) eqn:Hplain; [|discriminate].
  intros [= <-]. exists files. split; [done|]. split; [|done].
  apply Forall_forall. intros file Hin.
  apply Is_true_true_2, forallb_True in Hplain.
  rewrite Forall_forall in Hplain. by apply Is_true_true_1, Hplain.
Qed.

(** Every returned name is a listed name the pattern matches. *)
Lemma sorted_files_matched (files : list string) (file : string) :
  file ∈ (merge_sort tuple_le
            (omap (λ file, digits ← re_match IMAGE_PATTERN file;
                           Some (int digits, file)) files)).*2
  ↔ file ∈ files ∧ is_Some (sort_number file).
Proof.
  rewrite merge_sort_Permutation, images_files, list_elem_of_filter. tauto.
Qed.

(* ===================================================================== *)
(** * The loop of the script *)
(* ===================================================================== *)

Lemma sorted_images_loop_spec (extrinsics : gmap Z Image)
    (files : list string) (acc : gmap Z Image) :
  Forall (λ file, is_Some (lookup_number file)) files → acc ⊆ extrinsics →
  ∃ out,
    sorted_images_loop extrinsics files acc = Some out
    ∧ out ⊆ extrinsics
    ∧ ∀ k, is_Some (out !! k) ↔
           is_Some (acc !! k)
           ∨ (is_Some (extrinsics !! k)
              ∧ ∃ file, file ∈ files ∧ lookup_number file = Some k).
Proof.
  intros Hfiles. revert acc.
  induction Hfiles as [|file files [k0 Hfile] _ IH]; intros acc Hacc.
  - exists acc. split; [done|]. split; [done|]. intros k. split; [auto|].
    intros [?|(_ & file & Hin & _)]; [done|]. by apply elem_of_nil in Hin.
  - cbn [sorted_images_loop]. unfold lookup_number in Hfile.
    destruct (re_search NUMBER_PATTERN file) as [digits|] eqn:Hdigits;
      [|done].
    injection Hfile as Hk0. cbn. rewrite Hk0.
    assert (Hnum : lookup_number file = Some k0).
    { unfold lookup_number. by rewrite Hdigits, <- Hk0. }
    destruct (extrinsics !! k0) as [image|] eqn:Himage.
    + destruct (IH (<[k0 := image]> acc)) as (out & Hout & Hsub & Hkeys).
      { by apply insert_subseteq_l. }
      exists out. split; [done|]. split; [done|]. intros k.
      rewrite Hkeys, lookup_insert_is_Some. split.
      * intros [[<-|[_ ?]]|(? & file' & Hin & ?)]; [|by left|].
        -- right. split; [by rewrite Himage|].
           exists file. split; [by left|done].
        -- right. split; [done|]. exists file'. split; [by right|done].
      * intros [?|(Hk & file' & Hin & Hnum')].
        -- destruct (decide (k0 = k)); [by left; left|by left; right].
        -- apply elem_of_cons in Hin as [->|Hin].
           ++ left. left. congruence.
           ++ right. eauto.
    + destruct (IH acc Hacc) as (out & Hout & Hsub & Hkeys).
      exists out. split; [done|]. split; [done|]. intros k.
      rewrite Hkeys. split.
      * intros [?|(? & file' & Hin & ?)]; [by left|].
        right. split; [done|]. exists file'. split; [by right|done].
      * intros [?|(Hk & file' & Hin & Hnum')]; [by left|].
        apply elem_of_cons in Hin as [->|Hin].
        -- assert (k = k0) as -> by congruence.
           rewrite Himage in Hk. by destruct Hk.
        -- right. eauto.
Qed.

(** Every name [sorted_image_files] keeps has a number for the script. *)
Lemma sort_number_lookup_number (file : string) :
  is_Some (sort_number file) → is_Some (lookup_number file).
Proof.
  unfold sort_number, lookup_number, re_match, re_search.
  rewrite !fmap_is_Some. intros [g Hg]. by eapply image_pattern_number.
Qed.

(* ===================================================================== *)
(** * The image files of a recording *)
(* ===================================================================== *)

(** X24. [sorted_image_files] returns the listed names the image pattern
    matches, each as often as it is listed, ordered by camera number as a
    number (so 9 comes before 10) and, for equal numbers, by name. *)
Theorem sorted_by_number_then_name
    (listdir : string → result (list string)) (directory : string)
    (files : list string) :
  listdir directory = Ok files →
  Forall (λ file, plain_name file = true) files →
  ∃ sorted_files,
    sorted_image_files listdir directory = Ok sorted_files
    ∧ sorted_files ≡ₚ filter (λ file, is_Some (sort_number file)) files
    ∧ ∀ (i j : nat) (a b : string),
        (i < j)%nat →
        sorted_files !! i = Some a → sorted_files !! j = Some b →
        ∃ n m, sort_number a = Some n ∧ sort_number b = Some m
               ∧ ((n < m)%Z ∨ (n = m ∧ (a ≤ b)%string)).
Proof.
  intros Hdir Hplain. rewrite (sorted_image_files_Ok _ _ _ Hdir Hplain).
  eexists. split; [reflexivity|]. split.
  - by rewrite merge_sort_Permutation, images_files.
  - intros i j a b Hij. rewrite !list_lookup_fmap.
    destruct (merge_sort _ _ !! i) as [[n a']|] eqn:Hi; [|done].
    destruct (merge_sort _ _ !! j) as [[m b']|] eqn:Hj; [|done].
    cbn. intros [= ->] [= ->]. exists n, m.
    pose proof (list_elem_of_lookup_2 _ _ _ Hi) as Ha.
    pose proof (list_elem_of_lookup_2 _ _ _ Hj) as Hb.
    rewrite merge_sort_Permutation in Ha, Hb.
    apply images_number in Ha as [_ Ha], Hb as [_ Hb].
    split; [done|]. split; [done|].
    refine (StronglySorted_lookup tuple_le _ i j (n, a) (m, b) _ Hij Hi Hj).
    apply (StronglySorted_merge_sort tuple_le).
Qed.

Lemma sorted_by_number_then_name_witness :
  ∃ sorted_files,
    sorted_image_files sample_listdir "qualisys_json_loader_test_data"
    = Ok sorted_files
    ∧ sorted_files
      = [ "Rec_Miqus_02_copy.png"; "Rec_Miqus_2_22247.png";
          "Rec_Miqus_9_22254.png"; "Rec_Miqus_10_22255.png" ]
    ∧ sort_number "Rec_Miqus_9_22254.png" = Some 9%Z
    ∧ sort_number "Rec_Miqus_10_22255.png" = Some 10%Z.
Proof.
  destruct (sorted_by_number_then_name sample_listdir
              "qualisys_json_loader_test_data" _ eq_refl)
    as (sorted_files & Hsorted & _ & Horder).
  { repeat (apply Forall_cons_2; [reflexivity|]). apply Forall_nil_2. }
  exists sorted_files. split; [exact Hsorted|].
  vm_compute in Hsorted. injection Hsorted as <-.
  split; [reflexivity|].
  destruct (Horder 2%nat 3%nat _ _ ltac:(lia) eq_refl eq_refl)
    as (n & m & Hn & Hm & _).
  split; reflexivity.
Defined.

(** X25. The names [sorted_image_files] returns are the listed names of
    the shape [<before>Miqus_<digits>_<after>.png], with one digit at
    least and no newline in the two free parts; a newline may end such a
    name. Nothing else is returned, and no such name is left out. *)
Theorem sorted_files_are_image_names
    (listdir : string → result (list string)) (directory : string)
    (sorted_files : list string) :
  sorted_image_files listdir directory = Ok sorted_files →
  ∃ files,
    listdir directory = Ok files
    ∧ ∀ file, file ∈ sorted_files ↔
        file ∈ files
        ∧ ∃ before digits after ending,
            file = image_name before digits after ending
            ∧ decimal digits ∧ one_line before ∧ one_line after
            ∧ (ending = "" ∨ ending = String newline "").
Proof.
  intros (files & Hdir & _ & ->)%sorted_image_files_Ok_inv.
  exists files. split; [done|]. intros file.
  rewrite sorted_files_matched. unfold sort_number. rewrite fmap_is_Some.
  split; intros [Hin H]; (split; [done|]).
  - destruct H as [digits H]. apply re_match_image_inv in H
      as (before & after & ending & H). eauto 10.
  - destruct H as (before & digits & after & ending & -> & ? & ? & ? & ?).
    by apply re_match_image_is_Some.
Qed.

Lemma sorted_files_are_image_names_witness :
  ∃ sorted_files,
    sorted_image_files sample_listdir "qualisys_json_loader_test_data"
    = Ok sorted_files
    ∧ "Rec_Miqus_2_22247.png" ∈ sorted_files
    ∧ "Rec_Miqus_3_22248.avi" ∉ sorted_files.
Proof.
  eexists. split; [reflexivity|].
  destruct (sorted_files_are_image_names sample_listdir
              "qualisys_json_loader_test_data" _ eq_refl)
    as (files & Hdir & Hfiles).
  injection Hdir as <-. split.
  - apply Hfiles. split.
    + do 2 apply list_elem_of_further. apply list_elem_of_here.
    + exists "Rec_", "2", "22247", "". split; [reflexivity|].
      split; [split; [discriminate|repeat constructor]|].
      split; [apply one_line_chars; repeat constructor|].
      split; [apply one_line_chars; repeat constructor|]. by left.
  - intros Hin. vm_compute in Hin.
    repeat (apply elem_of_cons in Hin as [Hin|Hin]; [discriminate Hin|]).
    by apply elem_of_nil in Hin.
Defined.

(** X26. [sorted_image_files] sorts a name by its last camera number: for
    a name [<before>Miqus_<digits>_<after>.png] whose part after the number
    has no [M], the number is that of [digits], whatever stands before
    (another [Miqus_<digits>_] for one). *)
Theorem sort_number_is_last (before digits after ending : string) :
  decimal digits → one_line before → one_line after →
  ending = "" ∨ ending = String newline "" →
  "M"%char ∉ chars after →
  sort_number (image_name before digits after ending) = Some (int digits).
Proof.
  intros [Hne Hdigits]%decimal_chars Hbefore%one_line_chars
    Hafter%one_line_chars Hending%ending_chars HM.
  unfold sort_number.
  assert (re_match IMAGE_PATTERN (image_name before digits after ending)
          = Some digits) as ->; [|done].
  apply re_match_chars. rewrite chars_image_name.
  by apply image_pattern_last.
Qed.

Lemma sort_number_is_last_witness :
  decimal "2" ∧ one_line "Miqus_1_"
  ∧ sort_number "Miqus_1_Miqus_2_.png" = Some 2%Z.
Proof.
  assert (Hd : decimal "2").
  { split; [discriminate|repeat constructor]. }
  assert (Hb : one_line "Miqus_1_").
  { apply one_line_chars. repeat constructor. }
  assert (Ha : one_line "").
  { apply one_line_chars. constructor. }
  split; [exact Hd|]. split; [exact Hb|].
  apply (sort_number_is_last "Miqus_1_" "2" "" "" Hd Hb Ha (or_introl eq_refl)).
  intros H. by apply elem_of_nil in H.
Defined.

(** X27. The script looks a pose up by the first camera number of the
    name: for a name [<before>Miqus_<digits>_<rest>] with no [M] in
    [before], the number is that of [digits], whatever follows. A name
    with two numbers is therefore sorted by one and looked up by the
    other. *)
Theorem lookup_number_is_first (before digits rest : string) :
  decimal digits → "M"%char ∉ chars before →
  lookup_number (before +:+ "Miqus_" +:+ digits +:+ "_" +:+ rest)
  = Some (int digits).
Proof.
  intros [Hne Hdigits]%decimal_chars HM. unfold lookup_number.
  assert (re_search NUMBER_PATTERN
            (before +:+ "Miqus_" +:+ digits +:+ "_" +:+ rest)
          = Some digits) as ->; [|done].
  apply re_search_chars. rewrite !chars_app.
  by apply number_pattern_first.
Qed.

Lemma lookup_number_is_first_witness :
  decimal "1"
  ∧ lookup_number "Miqus_1_Miqus_2_.png" = Some 1%Z
  ∧ sort_number "Miqus_1_Miqus_2_.png" = Some 2%Z.
Proof.
  assert (Hd : decimal "1").
  { split; [discriminate|repeat constructor]. }
  split; [exact Hd|]. split; [|reflexivity].
  apply (lookup_number_is_first "" "1" "Miqus_2_.png" Hd).
  intros H. by apply elem_of_nil in H.
Defined.

(** X28. On the names [sorted_image_files] returns the loop of the script
    never fails: [re.search] finds a number in each of them. The dictionary
    it builds is a part of [extrinsics]: it holds the poses whose key is the
    number of one of the files at least, under that key. *)
Theorem script_keeps_numbered_poses
    (listdir : string → result (list string)) (directory : string)
    (sorted_files : list string) (extrinsics : gmap Z Image) :
  sorted_image_files listdir directory = Ok sorted_files →
  ∃ sorted_images,
    sorted_images_loop extrinsics sorted_files ∅ = Some sorted_images
    ∧ sorted_images ⊆ extrinsics
    ∧ ∀ k, is_Some (sorted_images !! k) ↔
           is_Some (extrinsics !! k)
           ∧ ∃ file, file ∈ sorted_files ∧ lookup_number file = Some k.
Proof.
  intros (files & _ & _ & ->)%sorted_image_files_Ok_inv.
  destruct (sorted_images_loop_spec extrinsics
              (merge_sort tuple_le
                 (omap (λ file, digits ← re_match IMAGE_PATTERN file;
                                Some (int digits, file)) files)).*2 ∅)
    as (out & Hout & Hsub & Hkeys).
  - apply Forall_forall. intros file [_ H]%sorted_files_matched.
    by apply sort_number_lookup_number.
  - apply map_empty_subseteq.
  - exists out. split; [done|]. split; [done|]. intros k.
    rewrite Hkeys, lookup_empty. split; [|auto].
    intros [[? [=]]|?]. done.
Qed.

Lemma script_keeps_numbered_poses_witness :
  ∃ images sorted_images,
    read_extrinsics_json identity_eigh sample_fs "rig.json" = Ok images
    ∧ sorted_images_loop images
        [ "Rec_Miqus_02_copy.png"; "Rec_Miqus_2_22247.png";
          "Rec_Miqus_9_22254.png"; "Rec_Miqus_10_22255.png" ] ∅
      = Some sorted_images
    ∧ is_Some (sorted_images !! 2%Z) ∧ sorted_images !! 9%Z = None.
Proof.
  eexists. 
  destruct (script_keeps_numbered_poses sample_listdir
              "qualisys_json_loader_test_data" _
              (fill (image_of identity_eigh) 1 [sample_camera; sample_camera] ∅)
              eq_refl)
    as (sorted_images & Hloop & Hsub & Hkeys).
  exists sorted_images.
  split; [apply (read_extrinsics_sample_rig identity_eigh)|].
  split; [exact Hloop|]. split.
  - apply Hkeys. split; [vm_compute; eauto|].
    exists "Rec_Miqus_2_22247.png". split; [|reflexivity].
    apply list_elem_of_further, list_elem_of_here.
  - apply eq_None_not_Some. intros [H _]%Hkeys.
    vm_compute in H. by destruct H.
Defined.

(** X29. Poses and pictures together: with the poses read from a document
    of N cameras, the script keeps the pose of camera k exactly when k is
    between 1 and N and some returned file has k as its first number;
    files with other numbers (0, or more than N) are passed over without
    an error. The poses kept are the parsed ones, [id] and name
    unchanged. *)
Theorem script_keeps_cameras_with_files (eigh : M4 → V4 * M4)
    (fs : filesystem) (path : string)
    (listdir : string → result (list string)) (directory : string)
    (images : gmap Z Image) (sorted_files : list string) :
  read_extrinsics_json eigh fs path = Ok images →
  sorted_image_files listdir directory = Ok sorted_files →
  ∃ data items sorted_images,
    fs path = Holds data ∧ camera_items data = Ok items
    ∧ sorted_images_loop images sorted_files ∅ = Some sorted_images
    ∧ (∀ k, is_Some (sorted_images !! k) ↔
            (1 ≤ k ≤ Z.of_nat (length items))%Z
            ∧ ∃ file, file ∈ sorted_files ∧ lookup_number file = Some k)
    ∧ (∀ k image, sorted_images !! k = Some image →
         images !! k = Some image
         ∧ img_id image = k ∧ img_name image = "Camera_" +:+ pretty k).
Proof.
  intros (data & items & Hfs & Hitems & -> & _)%read_extrinsics_json_Ok_inv.
  intros (files & _ & _ & ->)%sorted_image_files_Ok_inv.
  destruct (sorted_images_loop_spec (fill (image_of eigh) 1 items ∅)
              (merge_sort tuple_le
                 (omap (λ file, digits ← re_match IMAGE_PATTERN file;
                                Some (int digits, file)) files)).*2 ∅)
    as (out & Hout & Hsub & Hkeys).
  { apply Forall_forall. intros file [_ H]%sorted_files_matched.
    by apply sort_number_lookup_number. }
  { apply map_empty_subseteq. }
  exists data, items, out. repeat (split; [done|]).
  pose proof (fill_keyed img_id (image_of eigh) items (λ _ _, eq_refl))
    as (_ & Hik & _).
  split.
  - intros k. rewrite Hkeys, lookup_empty, Hik. split; [|auto].
    intros [[? [=]]|?]. done.
  - intros k image Hk.
    apply (lookup_weaken _ _ _ _ Hk) in Hsub as Himage.
    split; [done|].
    by apply lookup_fill_1_inv in Himage as (x & _ & ->).
Qed.

Lemma script_keeps_cameras_with_files_witness :
  ∃ images sorted_files sorted_images,
    read_extrinsics_json identity_eigh sample_fs "rig.json" = Ok images
    ∧ sorted_image_files sample_listdir "qualisys_json_loader_test_data"
      = Ok sorted_files
    ∧ sorted_images_loop images sorted_files ∅ = Some sorted_images
    ∧ is_Some (sorted_images !! 2%Z) ∧ sorted_images !! 10%Z = None.
Proof.
  eexists _, _.
  destruct (script_keeps_cameras_with_files identity_eigh sample_fs
              "rig.json" sample_listdir "qualisys_json_loader_test_data"
              _ _ (read_extrinsics_sample_rig identity_eigh) eq_refl)
    as (data & items & sorted_images & Hfs & Hitems & Hloop & Hkeys & _).
  injection Hfs as <-. injection Hitems as <-.
  exists sorted_images.
  split; [apply (read_extrinsics_sample_rig identity_eigh)|].
  split; [reflexivity|].
  split; [exact Hloop|]. split.
  - apply Hkeys. split; [vm_compute; split; discriminate|].
    exists "Rec_Miqus_2_22247.png". split; [|reflexivity].
    vm_compute. apply list_elem_of_further, list_elem_of_here.
  - apply eq_None_not_Some. intros [[_ H] _]%Hkeys.
    vm_compute in H. by apply H.
Defined.
